(** * The moving-integrator golden model

    A shallow embedding of [testbench/model/moving_integrator_model.py]:
    the floating reference [moving_integrator] (a full convolution with a
    uniform kernel) and the streaming model [fpga_moving_integrator]
    (shift register, running accumulator, scaling and quantisation).

    Python integers are unbounded ([Z]).  Every Python [float] and NumPy
    [float64] is an IEEE-754 binary64 number, modelled by the Standard
    Library's [spec_float] with its correctly rounded operations
    ([SFadd], [SFsub], [SFmul], [SFdiv]).  A call either returns a value
    or raises an exception. *)

From Stdlib Require Import ZArith List Bool Lia QArith Qround Qpower SpecFloat.
From Stdlib Require Import Lqa.
From Stdlib Require Import DecimalString.
Import ListNotations.
Local Open Scope Z_scope.

(** ** Exceptions and fallible computations *)

Inductive exn : Set :=
| IndexError
| ValueError
| OverflowError
| ZeroDivisionError.

Inductive res (A : Type) : Type :=
| Ok (a : A)
| Raise (e : exn).

Arguments Ok {A} a.
Arguments Raise {A} e.

Definition bind {A B : Type} (c : res A) (k : A -> res B) : res B :=
  match c with
  | Ok a => k a
  | Raise e => Raise e
  end.

Notation "x <- c ;; k" := (bind c (fun x => k))
  (at level 61, c at next level, right associativity).
Notation "' p <- c ;; k" := (bind c (fun p => k))
  (at level 61, p pattern, c at next level, right associativity).

(** A left-to-right loop whose body may raise. *)
Fixpoint foldM {A S : Type} (body : S -> A -> res S) (l : list A) (s : S)
  : res S :=
  match l with
  | [] => Ok s
  | a :: l' => s' <- body s a ;; foldM body l' s'
  end.

(** A left-to-right traversal whose body may raise. *)
Fixpoint mapM {A B : Type} (f : A -> res B) (l : list A) : res (list B) :=
  match l with
  | [] => Ok []
  | a :: l' => b <- f a ;; bs <- mapM f l' ;; Ok (b :: bs)
  end.

(** ** Binary64 arithmetic *)

Definition prec : Z := 53.
Definition emax : Z := 1024.

Definition float : Set := spec_float.

Definition fadd : float -> float -> float := SFadd prec emax.
Definition fsub : float -> float -> float := SFsub prec emax.
Definition fmul : float -> float -> float := SFmul prec emax.
Definition fdiv : float -> float -> float := SFdiv prec emax.

(** The binary64 number nearest to an integer (ties to even); infinite
    when the integer is beyond the binary64 range. *)
Definition Z2SF (z : Z) : float := binary_normalize prec emax z 0 false.

(** An integer as an unrounded mantissa with exponent 0. *)
Definition Z2raw (z : Z) : float :=
  match z with
  | Z0 => S754_zero false
  | Zpos p => S754_finite false p 0
  | Zneg p => S754_finite true p 0
  end.

(** Conversion of a Python [int] to a float: correctly rounded, and an
    [OverflowError] ("int too large to convert to float") out of range. *)
Definition float_of_int (z : Z) : res float :=
  match Z2SF z with
  | S754_infinity _ => Raise OverflowError
  | f => Ok f
  end.

(** [2.0 ** e] for a negative integer [e]: the power of two when it is
    representable, [0.0] once it underflows. *)
Definition fpow2 (e : Z) : float := binary_round prec emax false 1 e.

(** The signed mantissa of a finite number. *)
Definition smant (s : bool) (m : positive) : Z := cond_Zopp s (Zpos m).

(** [np.floor]: the largest integral float not above the argument (the
    division of [Z] rounds toward minus infinity). *)
Definition np_floor (x : float) : float :=
  match x with
  | S754_finite s m e =>
      if 0 <=? e then x
      else binary_normalize prec emax (smant s m / 2 ^ (- e)) 0 s
  | _ => x
  end.

(** [int(x)] on a float: truncation toward zero; infinities and NaN are
    refused. *)
Definition py_int (x : float) : res Z :=
  match x with
  | S754_zero _ => Ok 0
  | S754_finite s m e =>
      Ok (if 0 <=? e then smant s m * 2 ^ e
          else Z.quot (smant s m) (2 ^ (- e)))
  | S754_infinity _ => Raise OverflowError
  | S754_nan => Raise ValueError
  end.

(** The integer nearest to [m / d], ties to the even neighbour
    ([0 <= m], [0 < d]). *)
Definition rne_div (m d : Z) : Z :=
  let q := m / d in
  let r := m mod d in
  match 2 * r ?= d with
  | Lt => q
  | Gt => q + 1
  | Eq => if Z.even q then q else q + 1
  end.

(** [round(x)] with one argument on a float: the nearest integer, ties to
    even, as a Python [int]. *)
Definition py_round (x : float) : res Z :=
  match x with
  | S754_zero _ => Ok 0
  | S754_finite s m e =>
      Ok (if 0 <=? e then smant s m * 2 ^ e
          else cond_Zopp s (rne_div (Zpos m) (2 ^ (- e))))
  | S754_infinity _ => Raise OverflowError
  | S754_nan => Raise ValueError
  end.

(** ** Python numbers and their operators *)

Inductive num : Set :=
| Int (z : Z)
| Float (f : float).

Definition to_float (a : num) : res float :=
  match a with
  | Int z => float_of_int z
  | Float f => Ok f
  end.

(** [a - b]: exact on two ints, binary64 as soon as one side is a float. *)
Definition py_sub (a b : num) : res num :=
  match a, b with
  | Int x, Int y => Ok (Int (x - y))
  | _, _ => x <- to_float a ;; y <- to_float b ;; Ok (Float (fsub x y))
  end.

Definition py_add (a b : num) : res num :=
  match a, b with
  | Int x, Int y => Ok (Int (x + y))
  | _, _ => x <- to_float a ;; y <- to_float b ;; Ok (Float (fadd x y))
  end.

Definition py_mul (a b : num) : res num :=
  match a, b with
  | Int x, Int y => Ok (Int (x * y))
  | _, _ => x <- to_float a ;; y <- to_float b ;; Ok (Float (fmul x y))
  end.

(** [a / b] on two Python ints: the correctly rounded quotient of the two
    integers themselves. *)
Definition int_truediv (a b : Z) : res float :=
  if b =? 0 then Raise ZeroDivisionError
  else match fdiv (Z2raw a) (Z2raw b) with
       | S754_infinity _ => Raise OverflowError
       | f => Ok f
       end.

(** [a / b] where the result is a Python float (an int over an int or
    over a float): a zero divisor raises. *)
Definition py_truediv (a b : num) : res float :=
  match a, b with
  | Int x, Int y => int_truediv x y
  | _, _ =>
      x <- to_float a ;; y <- to_float b ;;
      match y with
      | S754_zero _ => Raise ZeroDivisionError
      | _ => Ok (fdiv x y)
      end
  end.

(** [a / b] where [a] is a NumPy [float64]: IEEE division, which never
    raises. *)
Definition np_truediv (a : float) (b : num) : res float :=
  y <- to_float b ;; Ok (fdiv a y).

(** [2 ** e]: an int for [0 <= e]; for a negative [e] the float power
    [2.0 ** float(e)], where the conversion of the exponent to a float
    raises [OverflowError] out of range. *)
Definition py_pow2 (e : Z) : res num :=
  if 0 <=? e then Ok (Int (2 ^ e))
  else (_ <- float_of_int e ;; Ok (Float (fpow2 e))).

(** ** NumPy arrays and the shift register *)

(** [np.zeros(n)] and [np.ones(n)]: a negative length is refused. *)
Definition np_full {A : Type} (x : A) (n : Z) : res (list A) :=
  if n <? 0 then Raise ValueError else Ok (repeat x (Z.to_nat n)).

Definition fzero : float := S754_zero false.

Definition np_zeros (n : Z) : res (list num) := np_full (Float fzero) n.

(** A [deque] as a list, leftmost element first.  [pop] takes the
    rightmost element and fails on an empty deque. *)
Definition deque_pop {A : Type} (d : list A) : res (A * list A) :=
  match rev d with
  | [] => Raise IndexError
  | x :: r => Ok (x, rev r)
  end.

Definition deque_appendleft {A : Type} (x : A) (d : list A) : list A :=
  x :: d.

(** ** [fpga_moving_integrator] *)

(** The loop state: the shift register [sreg], the accumulator [acc] and
    the list [result] of emitted values. *)
Record state : Set := mkState {
  sreg : list num;
  acc : num;
  result : list float
}.

(** [acc += sample - sreg.pop()] followed by [sreg.appendleft(sample)]. *)
Definition update (st : state) (sample : Z) : res state :=
  '(old, rest) <- deque_pop (sreg st) ;;
  d <- py_sub (Int sample) old ;;
  acc' <- py_add (acc st) d ;;
  Ok (mkState (deque_appendleft (Int sample) rest) acc' (result st)).

(** [acc / integration]: the accumulator is a NumPy [float64] as soon as
    one register cell has been popped. *)
Definition mean (a : num) (integration : Z) : res float :=
  match a with
  | Int z => int_truediv z integration
  | Float f => np_truediv f (Int integration)
  end.

(** [acc / integration * 2 ** extra_bits] *)
Definition scaled (a : num) (integration extra_bits : Z) : res float :=
  q <- mean a integration ;;
  pw <- py_pow2 extra_bits ;;
  p <- to_float pw ;;
  Ok (fmul q p).

(** [int(round(y))] or [int(np.floor(y))] *)
Definition quantize (math_round : bool) (y : float) : res Z :=
  if math_round then py_round y else py_int (np_floor y).

(** The emitted value of one iteration. *)
Definition value_of (math_round : bool) (a : num)
    (integration extra_bits : Z) : res float :=
  y <- scaled a integration extra_bits ;;
  k <- quantize math_round y ;;
  pw <- py_pow2 extra_bits ;;
  py_truediv (Int k) pw.

(** One iteration of the [for] loop. *)
Definition body (integration : Z) (math_round : bool) (extra_bits : Z)
    (st : state) (sample : Z) : res state :=
  st1 <- update st sample ;;
  v <- value_of math_round (acc st1) integration extra_bits ;;
  Ok (mkState (sreg st1) (acc st1) (result st1 ++ [v])).

Definition init (integration : Z) : res state :=
  z <- np_zeros integration ;; Ok (mkState z (Int 0) []).

(** The state after the loop has consumed [samples]. *)
Definition run (samples : list Z) (integration : Z) (math_round : bool)
    (extra_bits : Z) : res state :=
  st <- init integration ;;
  foldM (body integration math_round extra_bits) samples st.

Definition fpga_moving_integrator (samples : list Z) (integration : Z)
    (math_round : bool) (extra_bits : Z) : res (list float) :=
  st <- run samples integration math_round extra_bits ;; Ok (result st).

(** ** [moving_integrator] *)

Section Reference.

(** The element type of the arrays and its arithmetic; [recip n] is the
    kernel element [1.0 / n].  The samples are array elements here:
    what depends only on the lengths of the operands is stated at this
    level, and [moving_integrator64] below starts from Python ints and
    converts them. *)
Variable T : Type.
Variable tzero : T.
Variable tadd tmul : T -> T -> T.
Variable recip : Z -> T.

(** Element [k] of the full convolution: the sum of [a[j] * v[k - j]]
    over the indices where both exist.  The products are added one by
    one in the order of [j], each operation rounded on its own; NumPy
    may add them in another order, so the values are those of
    [np.convolve] only where no operation rounds. *)
Definition conv_at (a v : list T) (k : nat) : T :=
  fold_left
    (fun s j =>
       match nth_error a j, nth_error v (k - j) with
       | Some x, Some y => if (j <=? k)%nat then tadd s (tmul x y) else s
       | _, _ => s
       end)
    (seq 0 (length a)) tzero.

(** [np.convolve(a, v)] in its default ["full"] mode. *)
Definition np_convolve (a v : list T) : res (list T) :=
  let '(a, v) := if (length a <? length v)%nat then (v, a) else (a, v) in
  match a, v with
  | [], _ => Raise ValueError
  | _, [] => Raise ValueError
  | _, _ => Ok (map (conv_at a v) (seq 0 (length a + length v - 1)))
  end.

Definition moving_integrator (samples : list T) (integration : Z)
    (trim_output : bool) : res (list T) :=
  ones <- np_full (recip integration) integration ;;
  moving_mean <- np_convolve samples ones ;;
  Ok (if trim_output then firstn (length samples) moving_mean
      else moving_mean).

End Reference.

(** The reference on a list of Python ints.  The kernel
    [np.ones(integration) / integration] is built first; [np.convolve]
    then refuses an empty operand; the samples become binary64 numbers
    when they meet the kernel, and an int beyond the binary64 range
    raises [OverflowError] there. *)
Definition moving_integrator64 (samples : list Z) (integration : Z)
    (trim_output : bool) : res (list float) :=
  ones <- np_full (fdiv (Z2SF 1) (Z2SF integration)) integration ;;
  match samples, ones with
  | [], _ => Raise ValueError
  | _, [] => Raise ValueError
  | _, _ =>
      a <- mapM float_of_int samples ;;
      moving_mean <- np_convolve float fzero fadd fmul a ones ;;
      Ok (if trim_output then firstn (length samples) moving_mean
          else moving_mean)
  end.

(** ** Specification vocabulary for binary64 rounding *)

Definition emin : Z := -1074.

(** The round and sticky bits of the fraction [N / D]. *)
Definition frac_r (N D : Z) : bool := D <=? 2 * (N mod D).
Definition frac_s (N D : Z) : bool :=
  negb (N mod D =? 0) && negb (2 * (N mod D) =? D).

(** A shift record that holds the quotient [N / D] with its round and
    sticky bits. *)
Definition located (N D : Z) (mrs : shr_record) : Prop :=
  shr_m mrs = N / D /\ shr_r mrs = frac_r N D /\ shr_s mrs = frac_s N D.

(** Where [N / D] lies between two consecutive integers. *)
Definition loc_of (N D : Z) : location :=
  if N mod D =? 0 then loc_Exact else loc_Inexact (2 * (N mod D) ?= D).

(** The float made of a rounded mantissa [M] at exponent [E]: a mantissa
    that reached [2^53] is renormalised, an exponent above the largest
    one overflows to infinity. *)
Definition encode (sx : bool) (M E : Z) : float :=
  if M =? 0 then S754_zero sx
  else if M =? 2 ^ prec then
         if E + 1 <=? emax - prec
         then S754_finite sx (Z.to_pos (2 ^ (prec - 1))) (E + 1)
         else S754_infinity sx
       else if E <=? emax - prec then S754_finite sx (Z.to_pos M) E
            else S754_infinity sx.

(** Equality of the dyadic numbers [m1 * 2^e1] and [m2 * 2^e2]. *)
Definition deq (m1 e1 m2 e2 : Z) : Prop :=
  m1 * 2 ^ (e1 - Z.min e1 e2) = m2 * 2 ^ (e2 - Z.min e1 e2).

Definition sign_of (z : Z) : bool := z <? 0.

(** The rational value of a float (0 for infinities and NaN). *)
Definition pow2 (e : Z) : Q := (2 ^ e)%Q.

Definition SF2Q (f : float) : Q :=
  match f with
  | S754_finite s m e => (inject_Z (smant s m) * pow2 e)%Q
  | _ => 0%Q
  end.

Definition is_finite (f : float) : bool :=
  match f with
  | S754_zero _ | S754_finite _ _ _ => true
  | _ => false
  end.

Definition valid (f : float) : Prop := valid_binary prec emax f = true.

(** [x <= y] on floats, as Python compares them. *)
Definition fle (x y : float) : bool := SFleb x y.

(** The binary64 number nearest to the dyadic number [z * 2^e]. *)
Definition dyadic (z e : Z) : float := binary_normalize prec emax z e false.

(** [z * 2^e] is a nonzero binary64 number: at most 53 significant bits,
    no bit below [2^emin], magnitude below [2^1024]. *)
Definition repr (z e : Z) : Prop :=
  z <> 0 /\ Zdigits2 z <= 53 /\ emin <= e /\ Zdigits2 z + e <= 1024.

(** The floor and the nearest integer (ties to even) of the dyadic number
    [z * 2^e]. *)
Definition floor_dy (z e : Z) : Z :=
  if 0 <=? e then z * 2 ^ e else z / 2 ^ (- e).

Definition rne_dy (z e : Z) : Z :=
  if 0 <=? e then z * 2 ^ e
  else cond_Zopp (sign_of z) (rne_div (Z.abs z) (2 ^ (- e))).

(** ** Specification vocabulary for the streaming model *)

(** The rational value of a Python number. *)
Definition num_value (a : num) : Q :=
  match a with
  | Int z => inject_Z z
  | Float f => SF2Q f
  end.

(** The exact sum of the cells of a shift register. *)
Definition window_sum (d : list num) : Q :=
  fold_right Qplus 0%Q (map num_value d).

(** The last [n] samples of [p], most recent first, and their sum. *)
Definition window (n : Z) (p : list Z) : list Z := firstn (Z.to_nat n) (rev p).

Definition wsum (n : Z) (p : list Z) : Z := fold_right Z.add 0 (window n p).

(** Two calls agree: both raise the same exception, or both return and the
    results are related. *)
Definition res_agree {A : Type} (R : A -> A -> Prop) (x y : res A) : Prop :=
  match x, y with
  | Ok a, Ok b => R a b
  | Raise e1, Raise e2 => e1 = e2
  | _, _ => False
  end.

(** The same for lists, related element by element. *)
Definition res_rel {A : Type} (R : A -> A -> Prop) (x y : res (list A))
  : Prop :=
  res_agree (Forall2 R) x y.

(** The state reached after the samples [p] when every addition has been
    exact: the register holds the last samples over the zeros that are
    left, the accumulator holds their sum. *)
Definition state_after (n : Z) (p : list Z) (st : state) : Prop :=
  sreg st = map Int (window n p)
            ++ repeat (Float fzero) (Z.to_nat n - length p)
  /\ acc st = match p with
              | [] => Int 0
              | _ => Float (Z2SF (wsum n p))
              end.

(** Every sample has magnitude at most [B]. *)
Definition bounded_by (B : Z) (l : list Z) : Prop :=
  Forall (fun s => Z.abs s <= B) l.

(** A rounded mantissa at its exponent: at most [2^53], and at least
    [2^52] unless the exponent is the smallest one. *)
Definition rounded (M E : Z) : Prop :=
  0 <= M <= 2 ^ 53 /\ emin <= E /\ (E = emin \/ 2 ^ 52 <= M).

(** The value of [2 ** e] whenever it is computed. *)
Definition pow2_num (e : Z) : num :=
  if 0 <=? e then Int (2 ^ e) else Float (fpow2 e).

(** A cell or an accumulator that holds zero. *)
Definition zero_num (a : num) : Prop := a = Int 0 \/ a = Float fzero.

(** The quantised value of the dyadic number [z * 2^e]: the nearest
    integer in Round mode, the floor in Truncate mode. *)
Definition quant (math_round : bool) (z e : Z) : Z :=
  if math_round then rne_dy z e else floor_dy z e.

(** The float [k / 2 ** extra_bits] for an integer [k] of at most 53 bits:
    the exact quotient, or an infinity when it overflows. *)
Definition final_value (k eb : Z) : float :=
  if k =? 0 then fzero
  else if Zdigits2 k - eb <=? 1024 then dyadic k (- eb)
       else S754_infinity (sign_of k).

(** Two states that differ only in the values emitted so far. *)
Definition same_window (R : float -> float -> Prop) (s1 s2 : state) : Prop :=
  sreg s1 = sreg s2 /\ acc s1 = acc s2
  /\ Forall2 R (result s1) (result s2).

(** The specification's truncated output for an accumulator value [a]:
    [floor(a / integration * 2^extra_bits) / 2^extra_bits], computed on
    exact rationals. *)
Definition spec_truncate (a : Q) (integration extra_bits : Z) : Q :=
  (inject_Z (Qfloor (a / inject_Z integration * pow2 extra_bits))
   / pow2 extra_bits)%Q.

(** The sum of the window after each sample of [p], in order. *)
Definition window_sums (n : Z) (p : list Z) : list Z :=
  map (fun k => wsum n (firstn (S k) p)) (seq 0 (length p)).

(** [k] is an integer nearest to the rational [x], and the even one when
    [x] lies half-way between two integers. *)
Definition nearest_even (k : Z) (x : Q) : Prop :=
  (x - (1 # 2) <= inject_Z k <= x + (1 # 2))%Q
  /\ ((inject_Z k == x + (1 # 2))%Q \/ (inject_Z k == x - (1 # 2))%Q ->
      Z.even k = true).

(** ** The earlier [fpga_moving_integrator]

    [testbench/moving_integrator.py] keeps the first version of the
    streaming model: the same register and accumulator, and the plain
    quotient [acc / integration] as the emitted value. *)

Module Legacy.

(** One iteration of the [for] loop. *)
Definition body (integration : Z) (st : state) (sample : Z) : res state :=
  st1 <- update st sample ;;
  v <- mean (acc st1) integration ;;
  Ok (mkState (sreg st1) (acc st1) (result st1 ++ [v])).

Definition run (samples : list Z) (integration : Z) : res state :=
  st <- init integration ;;
  foldM (body integration) samples st.

Definition fpga_moving_integrator (samples : list Z) (integration : Z)
  : res (list float) :=
  st <- run samples integration ;; Ok (result st).

End Legacy.

(** ** The test-vector generator of [testbench/run.py] *)

(** The generics of the test bench. *)
Definition G_DATA_IN_WIDTH : Z := 16.
Definition G_DATA_OUT_WIDTH : Z := 24.
Definition G_SAMPLES : Z := 32.
Definition G_INPUT_SIGNED : bool := false.
Definition G_ROUND_EVEN : bool := false.
Definition G_PROTECTION_BITS : Z := 0.

(** The values [random.randrange] can return for one sample; the stop
    value of the range is excluded. *)
Definition drawn (signed : bool) (bit_width x : Z) : Prop :=
  if signed then - 2 ^ (bit_width - 1) <= x < 2 ^ (bit_width - 1) - 1
  else 0 <= x < 2 ^ bit_width - 1.

(** [int(res * 2 ** k)] on one output of the model. *)
Definition rescale (k : Z) (r : float) : res Z :=
  pw <- py_pow2 k ;;
  y <- py_mul (Float r) pw ;;
  match y with
  | Float f => py_int f
  | Int z => Ok z
  end.

(** [str(z)] for an int: its decimal digits, with a minus sign when
    negative. *)
Definition py_str (z : Z) : String.string :=
  NilZero.string_of_int (Z.to_int z).

(** One written line: the sample, two spaces, the golden value, a
    newline. *)
Definition format_line (sam golden : Z) : String.string :=
  String.append (py_str sam)
    (String.String (Ascii.ascii_of_nat 32)
       (String.String (Ascii.ascii_of_nat 32)
          (String.append (py_str golden)
             (String.String (Ascii.ascii_of_nat 10) String.EmptyString)))).

(** [generate_test_vectors], for the vector it has drawn: the lines it
    writes to the file, in order.  The golden values come from the model
    run with [out_width - bit_width + extra_bits] extra bits, scaled back
    to integers. *)
Definition generate_test_vectors (vector : list Z)
    (bit_width out_width integration : Z) (round_even : bool)
    (extra_bits : Z) : res (list String.string) :=
  let k := out_width - bit_width + extra_bits in
  result <- fpga_moving_integrator vector integration round_even k ;;
  result <- mapM (rescale k) result ;;
  Ok (map (fun p => format_line (fst p) (snd p)) (combine vector result)).

Lemma digits2_pos_bounds (p : positive) :
  2 ^ (Zpos (digits2_pos p) - 1) <= Zpos p < 2 ^ Zpos (digits2_pos p).
Proof.
  induction p as [p IH | p IH |]; simpl digits2_pos.
  - rewrite Pos2Z.inj_succ. change (Zpos p~1) with (2 * Zpos p + 1).
    replace (Z.succ (Zpos (digits2_pos p)) - 1)
      with (Z.succ (Zpos (digits2_pos p) - 1)) by lia.
    rewrite !Z.pow_succ_r; lia.
  - rewrite Pos2Z.inj_succ. change (Zpos p~0) with (2 * Zpos p).
    replace (Z.succ (Zpos (digits2_pos p)) - 1)
      with (Z.succ (Zpos (digits2_pos p) - 1)) by lia.
    rewrite !Z.pow_succ_r; lia.
  - simpl. lia.
Qed.

Lemma Zdigits2_bounds (m : Z) :
  0 < m -> 2 ^ (Zdigits2 m - 1) <= m < 2 ^ Zdigits2 m.
Proof.
  destruct m as [|p|p]; try lia. intros _. apply digits2_pos_bounds.
Qed.

Lemma Zdigits2_nonneg (m : Z) : 0 <= Zdigits2 m.
Proof. destruct m; simpl; lia. Qed.

Lemma Zdigits2_pos (m : Z) : 0 < m -> 0 < Zdigits2 m.
Proof. destruct m; simpl; lia. Qed.

Lemma Zdigits2_unique (m d : Z) :
  2 ^ (d - 1) <= m < 2 ^ d -> 0 < m -> Zdigits2 m = d.
Proof.
  intros H Hm.
  pose proof (Zdigits2_bounds m Hm) as B.
  pose proof (Zdigits2_pos m Hm) as P.
  assert (Hd : 0 < d).
  { destruct (Z_lt_le_dec 0 d) as [|Hd]; [assumption|].
    exfalso. destruct (Z.eq_dec d 0) as [->|].
    - simpl in H. lia.
    - rewrite (Z.pow_neg_r 2 d) in H by lia. lia. }
  destruct (Z.lt_trichotomy (Zdigits2 m) d) as [L|[E|G]]; [|assumption|].
  - exfalso.
    assert (2 ^ Zdigits2 m <= 2 ^ (d - 1)) by (apply Z.pow_le_mono_r; lia).
    lia.
  - exfalso.
    assert (2 ^ d <= 2 ^ (Zdigits2 m - 1)) by (apply Z.pow_le_mono_r; lia).
    lia.
Qed.

Lemma Zdigits2_le (a b : Z) : 0 <= a <= b -> Zdigits2 a <= Zdigits2 b.
Proof.
  intros [Ha Hab].
  destruct (Z.eq_dec a 0) as [->|Na]; [apply Zdigits2_nonneg|].
  pose proof (Zdigits2_bounds a ltac:(lia)) as Ba.
  pose proof (Zdigits2_bounds b ltac:(lia)) as Bb.
  destruct (Z_lt_le_dec (Zdigits2 b) (Zdigits2 a)) as [L|]; [|assumption].
  exfalso.
  assert (2 ^ Zdigits2 b <= 2 ^ (Zdigits2 a - 1))
    by (apply Z.pow_le_mono_r; lia).
  lia.
Qed.

Lemma Zdigits2_mul_pow2 (m k : Z) :
  0 < m -> 0 <= k -> Zdigits2 (m * 2 ^ k) = Zdigits2 m + k.
Proof.
  intros Hm Hk.
  pose proof (Zdigits2_bounds m Hm) as B.
  pose proof (Zdigits2_pos m Hm) as P.
  assert (0 < 2 ^ k) by (apply Z.pow_pos_nonneg; lia).
  apply Zdigits2_unique; [|nia].
  replace (Zdigits2 m + k - 1) with (Zdigits2 m - 1 + k) by lia.
  rewrite !Z.pow_add_r by lia. nia.
Qed.

Lemma Zdigits2_div_pow2 (m k : Z) :
  0 < m -> 0 <= k < Zdigits2 m -> Zdigits2 (m / 2 ^ k) = Zdigits2 m - k.
Proof.
  intros Hm Hk.
  pose proof (Zdigits2_bounds m Hm) as B.
  assert (P2 : 0 < 2 ^ k) by (apply Z.pow_pos_nonneg; lia).
  assert (L : 2 ^ (Zdigits2 m - k - 1) <= m / 2 ^ k).
  { apply Z.div_le_lower_bound; [assumption|].
    rewrite <- Z.pow_add_r by lia.
    replace (k + (Zdigits2 m - k - 1)) with (Zdigits2 m - 1) by lia. lia. }
  assert (U : m / 2 ^ k < 2 ^ (Zdigits2 m - k)).
  { apply Z.div_lt_upper_bound; [assumption|].
    rewrite <- Z.pow_add_r by lia.
    replace (k + (Zdigits2 m - k)) with (Zdigits2 m) by lia. lia. }
  assert (0 < 2 ^ (Zdigits2 m - k - 1)) by (apply Z.pow_pos_nonneg; lia).
  apply Zdigits2_unique; [|lia]. split; [assumption|assumption].
Qed.

Lemma xI_div2 (p : positive) : Zpos p~1 / 2 = Zpos p /\ Zpos p~1 mod 2 = 1.
Proof.
  split; symmetry.
  - apply (Z.div_unique _ 2 _ 1); lia.
  - apply (Z.mod_unique _ 2 (Zpos p)); lia.
Qed.

Lemma xO_div2 (p : positive) : Zpos p~0 / 2 = Zpos p /\ Zpos p~0 mod 2 = 0.
Proof.
  split; symmetry.
  - apply (Z.div_unique _ 2 _ 0); lia.
  - apply (Z.mod_unique _ 2 (Zpos p)); lia.
Qed.

Lemma located_shr_1 (N D : Z) (mrs : shr_record) :
  0 <= N -> 0 < D -> located N D mrs -> located N (D * 2) (shr_1 mrs).
Proof.
  intros HN HD (Hm & Hr & Hs).
  destruct mrs as [m r s]; cbn [shr_m shr_r shr_s] in Hm, Hr, Hs.
  assert (Hq : N / (D * 2) = m / 2)
    by (rewrite Hm, Z.div_div by lia; reflexivity).
  assert (Hrem : N mod (D * 2) = N mod D + D * (m mod 2))
    by (rewrite Hm; apply Z.rem_mul_r; lia).
  pose proof (Z.mod_pos_bound N D HD) as Bd.
  pose proof (Z.div_pos N D HN HD) as Bq.
  assert (Hrs : (r || s)%bool = negb (N mod D =? 0)).
  { subst r s. unfold frac_r, frac_s.
    destruct (Z.leb_spec D (2 * (N mod D)));
      destruct (Z.eqb_spec (N mod D) 0);
      destruct (Z.eqb_spec (2 * (N mod D)) D); simpl; try reflexivity; lia. }
  assert (Hpar : m = 2 * (m / 2) + m mod 2 /\ 0 <= m mod 2 < 2).
  { split; [apply Z.div_mod; lia | apply Z.mod_pos_bound; lia]. }
  assert (Hgoal : forall m2 b, m / 2 = m2 -> m mod 2 = Z.b2z b ->
            located N (D * 2) (Build_shr_record m2 b (r || s))).
  { intros m2 b E2 Eb. unfold located; cbn [shr_m shr_r shr_s].
    unfold frac_r, frac_s. rewrite Hq, Hrem, Hrs, Eb.
    split; [symmetry; assumption|].
    destruct b; cbn [Z.b2z]; split.
    - symmetry. apply Z.leb_le. lia.
    - destruct (Z.eqb_spec (N mod D) 0);
        destruct (Z.eqb_spec (N mod D + D * 1) 0);
        destruct (Z.eqb_spec (2 * (N mod D + D * 1)) (D * 2));
        simpl; try reflexivity; lia.
    - symmetry. apply Z.leb_gt. lia.
    - destruct (Z.eqb_spec (N mod D) 0);
        destruct (Z.eqb_spec (N mod D + D * 0) 0);
        destruct (Z.eqb_spec (2 * (N mod D + D * 0)) (D * 2));
        simpl; try reflexivity; lia. }
  destruct m as [|q|q]; [|destruct q as [p|p|]|lia]; unfold shr_1.
  - apply (Hgoal 0 false); reflexivity.
  - apply (Hgoal (Zpos p) true); apply xI_div2.
  - apply (Hgoal (Zpos p) false); apply xO_div2.
  - apply (Hgoal 0 true); reflexivity.
Qed.

Lemma located_iter (p : positive) :
  forall N D mrs, 0 <= N -> 0 < D -> located N D mrs ->
    located N (D * 2 ^ Zpos p) (iter_pos shr_1 p mrs).
Proof.
  induction p as [p IH | p IH |]; intros N D mrs HN HD H; cbn [iter_pos].
  - change (Zpos p~1) with (2 * Zpos p + 1).
    replace (D * 2 ^ (2 * Zpos p + 1))
      with (D * 2 * 2 ^ Zpos p * 2 ^ Zpos p).
    + assert (0 < 2 ^ Zpos p) by (apply Z.pow_pos_nonneg; lia).
      apply IH; [lia|nia|]. apply IH; [lia|lia|].
      apply located_shr_1; assumption.
    + rewrite Z.pow_add_r, Z.pow_mul_r, Z.pow_2_r by lia.
      rewrite Z.pow_mul_l. change (2 ^ 1) with 2. ring.
  - change (Zpos p~0) with (2 * Zpos p).
    replace (D * 2 ^ (2 * Zpos p)) with (D * 2 ^ Zpos p * 2 ^ Zpos p).
    + assert (0 < 2 ^ Zpos p) by (apply Z.pow_pos_nonneg; lia).
      apply IH; [lia|nia|]. apply IH; assumption.
    + rewrite Z.pow_mul_r, Z.pow_2_r by lia.
      rewrite Z.pow_mul_l. ring.
  - change (2 ^ 1) with 2. apply located_shr_1; assumption.
Qed.

Lemma located_of_loc (N D : Z) :
  0 < D -> located N D (shr_record_of_loc (N / D) (loc_of N D)).
Proof.
  intros HD. pose proof (Z.mod_pos_bound N D HD) as B.
  unfold located, loc_of, frac_r, frac_s.
  destruct (Z.eqb_spec (N mod D) 0) as [E|E].
  - cbn [shr_record_of_loc shr_m shr_r shr_s]. rewrite E.
    repeat split. symmetry. apply Z.leb_gt. lia.
  - destruct (Z.compare_spec (2 * (N mod D)) D) as [C|C|C];
      cbn [shr_record_of_loc shr_m shr_r shr_s];
      destruct (Z.leb_spec D (2 * (N mod D))); try lia;
      destruct (Z.eqb_spec (2 * (N mod D)) D); try lia;
      repeat split.
Qed.

Lemma round_located (N D : Z) (mrs : shr_record) :
  0 < D -> located N D mrs ->
  round_nearest_even (shr_m mrs) (loc_of_shr_record mrs) = rne_div N D.
Proof.
  intros HD (Hm & Hr & Hs). pose proof (Z.mod_pos_bound N D HD) as B.
  destruct mrs as [m r s]; cbn [shr_m shr_r shr_s] in *.
  unfold rne_div, frac_r, frac_s in *. subst m.
  destruct (Z.compare_spec (2 * (N mod D)) D) as [C|C|C];
    destruct (Z.leb_spec D (2 * (N mod D))); try lia;
    destruct (Z.eqb_spec (N mod D) 0); try lia;
    destruct (Z.eqb_spec (2 * (N mod D)) D); try lia;
    subst r s; reflexivity.
Qed.

Lemma rne_div_bounds (N D : Z) :
  0 < D -> N / D <= rne_div N D <= N / D + 1.
Proof.
  intros HD. unfold rne_div.
  destruct (2 * (N mod D) ?= D); [destruct (Z.even (N / D))| |]; lia.
Qed.

Lemma rne_div_exact (M D : Z) : 0 < D -> rne_div (M * D) D = M.
Proof.
  intros HD. unfold rne_div.
  rewrite Z.mod_mul, Z.div_mul by lia.
  change (2 * 0) with 0.
  destruct (Z.compare_spec 0 D); lia.
Qed.

Lemma fexp_eq (e : Z) : fexp prec emax e = Z.max (e - 53) emin.
Proof. reflexivity. Qed.

Lemma shr_fexp_located (N D e : Z) :
  0 <= N -> 0 < D ->
  let n := fexp prec emax (Zdigits2 (N / D) + e) - e in
  0 <= n ->
  exists mrs, shr_fexp prec emax (N / D) e (loc_of N D) = (mrs, e + n)
              /\ located N (D * 2 ^ n) mrs.
Proof.
  intros HN HD n Hn. unfold shr_fexp. fold n.
  pose proof (located_of_loc N D HD) as L.
  destruct n as [|p|p] eqn:En; [| |lia]; unfold shr.
  - eexists; split; [rewrite Z.add_0_r; reflexivity|].
    change (2 ^ 0) with 1. rewrite Z.mul_1_r. exact L.
  - eexists; split; [reflexivity|].
    apply located_iter; assumption.
Qed.

Lemma shr_fexp_small (M E : Z) :
  0 <= M -> emin <= E -> Zdigits2 M <= 53 ->
  shr_fexp prec emax M E loc_Exact = (Build_shr_record M false false, E).
Proof.
  intros HM HE Hd. unfold shr_fexp. rewrite fexp_eq.
  cbn [shr_record_of_loc].
  destruct (Z.max (Zdigits2 M + E - 53) emin - E) as [|p|p] eqn:En;
    unfold shr; try reflexivity.
  lia.
Qed.

Lemma shr_fexp_carry (E : Z) :
  emin <= E ->
  shr_fexp prec emax (2 ^ prec) E loc_Exact
  = (Build_shr_record (2 ^ (prec - 1)) false false, E + 1).
Proof.
  intros HE. unfold shr_fexp. rewrite fexp_eq.
  replace (Zdigits2 (2 ^ prec)) with 54 by reflexivity.
  replace (Z.max (54 + E - 53) emin - E) with 1 by lia.
  reflexivity.
Qed.

Theorem bra_spec (sx : bool) (N D e : Z) :
  0 <= N -> 0 < D ->
  let E := fexp prec emax (Zdigits2 (N / D) + e) in
  e <= E ->
  binary_round_aux prec emax sx (N / D) e (loc_of N D)
  = encode sx (rne_div N (D * 2 ^ (E - e))) E.
Proof.
  intros HN HD E HE.
  destruct (shr_fexp_located N D e HN HD) as (mrs & Hs & L); [fold E; lia|].
  fold E in Hs, L. replace (e + (E - e)) with E in Hs by lia.
  unfold binary_round_aux. rewrite Hs.
  assert (P2 : 0 < 2 ^ (E - e)) by (apply Z.pow_pos_nonneg; lia).
  assert (HD' : 0 < D * 2 ^ (E - e)) by nia.
  rewrite (round_located N _ mrs HD' L).
  set (M := rne_div N (D * 2 ^ (E - e))).
  assert (Emin : emin <= E) by (unfold E; rewrite fexp_eq; lia).
  pose proof (rne_div_bounds N (D * 2 ^ (E - e)) HD') as BM. fold M in BM.
  rewrite <- Z.div_div in BM by lia.
  set (m := N / D) in *.
  assert (Hm : 0 <= m) by (apply Z.div_pos; lia).
  assert (Hm1 : 0 <= m / 2 ^ (E - e) < 2 ^ 53).
  { split; [apply Z.div_pos; lia|].
    destruct (Z.eq_dec m 0) as [->|Nm].
    - rewrite Z.div_0_l by lia. reflexivity.
    - apply Z.div_lt_upper_bound; [assumption|].
      pose proof (Zdigits2_bounds m ltac:(lia)) as Bm.
      rewrite <- Z.pow_add_r by lia.
      assert (2 ^ Zdigits2 m <= 2 ^ (E - e + 53)).
      { apply Z.pow_le_mono_r; [lia|]. unfold E. rewrite fexp_eq. lia. }
      lia. }
  unfold encode.
  destruct (Z.eqb_spec M (2 ^ prec)) as [E53|N53].
  - rewrite E53, shr_fexp_carry by assumption.
    cbn [shr_m]. reflexivity.
  - rewrite shr_fexp_small; try lia.
    + cbn [shr_m]. destruct M as [|p|p]; try reflexivity; lia.
    + destruct (Z.eq_dec M 0) as [->|NM]; [simpl; lia|].
      assert (B53 : M < 2 ^ 53) by (change (2 ^ prec) with (2 ^ 53) in N53; lia).
      pose proof (Zdigits2_bounds M ltac:(lia)) as Bd.
      destruct (Z_lt_le_dec 53 (Zdigits2 M)) as [G|]; [|assumption].
      exfalso.
      assert (2 ^ 53 <= 2 ^ (Zdigits2 M - 1)) by (apply Z.pow_le_mono_r; lia).
      lia.
Qed.

Lemma iter_xO (d m : positive) : Zpos (Pos.iter xO m d) = Zpos m * 2 ^ Zpos d.
Proof.
  change (Pos.iter xO m d) with (shift_pos d m).
  rewrite shift_pos_correct, Z.pow_pos_fold. ring.
Qed.

Lemma loc_of_1 (N : Z) : loc_of N 1 = loc_Exact.
Proof. unfold loc_of. rewrite Z.mod_1_r. reflexivity. Qed.

Lemma rne_div_scale (N D c : Z) :
  0 < D -> 0 < c -> rne_div (N * c) (D * c) = rne_div N D.
Proof.
  intros HD Hc. unfold rne_div.
  rewrite Z.div_mul_cancel_r, Z.mul_mod_distr_r by lia.
  replace (2 * (N mod D * c)) with (2 * (N mod D) * c) by ring.
  assert (C : (2 * (N mod D) * c ?= D * c) = (2 * (N mod D) ?= D)).
  { destruct (Z.compare_spec (2 * (N mod D)) D);
      [apply Z.compare_eq_iff|apply Z.compare_lt_iff|apply Z.compare_gt_iff];
      nia. }
  rewrite C. reflexivity.
Qed.

Theorem binary_round_spec (s : bool) (m : positive) (e : Z) :
  let E := fexp prec emax (Zpos (digits2_pos m) + e) in
  binary_round prec emax s m e
  = encode s (rne_div (Zpos m * 2 ^ Z.max (e - E) 0) (2 ^ Z.max (E - e) 0)) E.
Proof.
  intros E. unfold binary_round, shl_align. fold E.
  destruct (E - e) as [|p|p] eqn:En.
  - replace (Z.max (e - E) 0) with 0 by lia. change (Z.max 0 0) with 0.
    change (2 ^ 0) with 1. rewrite Z.mul_1_r.
    pose proof (bra_spec s (Zpos m) 1 e ltac:(lia) ltac:(lia)) as H.
    rewrite Z.div_1_r, loc_of_1 in H. cbn [Zdigits2] in H. fold E in H.
    rewrite H by lia. replace (E - e) with 0 by lia. reflexivity.
  - replace (Z.max (e - E) 0) with 0 by lia.
    replace (Z.max (Zpos p) 0) with (Zpos p) by lia.
    change (2 ^ 0) with 1. rewrite Z.mul_1_r.
    pose proof (bra_spec s (Zpos m) 1 e ltac:(lia) ltac:(lia)) as H.
    rewrite Z.div_1_r, loc_of_1 in H. cbn [Zdigits2] in H. fold E in H.
    rewrite H by lia. rewrite En, Z.mul_1_l. reflexivity.
  - replace (Z.max (e - E) 0) with (Zpos p) by lia.
    change (Z.max (Zneg p) 0) with 0. change (2 ^ 0) with 1.
    pose proof (bra_spec s (Zpos (Pos.iter xO m p)) 1 E ltac:(lia) ltac:(lia))
      as H.
    rewrite Z.div_1_r, loc_of_1 in H.
    assert (HE : fexp prec emax (Zdigits2 (Zpos (Pos.iter xO m p)) + E) = E).
    { rewrite iter_xO, Zdigits2_mul_pow2 by lia. cbn [Zdigits2].
      replace (Zpos (digits2_pos m) + Zpos p + E)
        with (Zpos (digits2_pos m) + e) by lia.
      reflexivity. }
    rewrite HE in H. rewrite H by lia.
    rewrite Z.sub_diag, iter_xO. reflexivity.
Qed.

Lemma binary_round_scale (s : bool) (m : positive) (e k : Z) :
  0 <= k ->
  binary_round prec emax s (Z.to_pos (Zpos m * 2 ^ k)) (e - k)
  = binary_round prec emax s m e.
Proof.
  intros Hk.
  assert (P : 0 < 2 ^ k) by (apply Z.pow_pos_nonneg; lia).
  assert (Hpos : Zpos (Z.to_pos (Zpos m * 2 ^ k)) = Zpos m * 2 ^ k)
    by (apply Z2Pos.id; nia).
  rewrite !binary_round_spec.
  assert (Hd : Zpos (digits2_pos (Z.to_pos (Zpos m * 2 ^ k))) + (e - k)
               = Zpos (digits2_pos m) + e).
  { change (Zpos (digits2_pos (Z.to_pos (Zpos m * 2 ^ k))))
      with (Zdigits2 (Zpos (Z.to_pos (Zpos m * 2 ^ k)))).
    rewrite Hpos, Zdigits2_mul_pow2 by lia. cbn [Zdigits2]. lia. }
  rewrite Hd, Hpos.
  set (E := fexp prec emax (Zpos (digits2_pos m) + e)).
  f_equal.
  destruct (Z_le_gt_dec E (e - k)) as [C1|C1].
  - replace (Z.max (e - k - E) 0) with (e - k - E) by lia.
    replace (Z.max (E - (e - k)) 0) with 0 by lia.
    replace (Z.max (e - E) 0) with (e - k - E + k) by lia.
    replace (Z.max (E - e) 0) with 0 by lia.
    rewrite Z.pow_add_r by lia. f_equal. ring.
  - destruct (Z_le_gt_dec E e) as [C2|C2].
    + replace (Z.max (e - k - E) 0) with 0 by lia.
      replace (Z.max (E - (e - k)) 0) with (E - (e - k)) by lia.
      replace (Z.max (e - E) 0) with (e - E) by lia.
      replace (Z.max (E - e) 0) with 0 by lia.
      change (2 ^ 0) with 1. rewrite Z.mul_1_r.
      replace (Zpos m * 2 ^ k)
        with (Zpos m * 2 ^ (e - E) * 2 ^ (E - (e - k))).
      * rewrite <- (Z.mul_1_l (2 ^ (E - (e - k)))) at 2.
        apply rne_div_scale; [lia|apply Z.pow_pos_nonneg; lia].
      * rewrite <- Z.mul_assoc, <- Z.pow_add_r by lia.
        f_equal. f_equal. lia.
    + replace (Z.max (e - k - E) 0) with 0 by lia.
      replace (Z.max (E - (e - k)) 0) with (E - e + k) by lia.
      replace (Z.max (e - E) 0) with 0 by lia.
      replace (Z.max (E - e) 0) with (E - e) by lia.
      change (2 ^ 0) with 1. rewrite !Z.mul_1_r.
      rewrite Z.pow_add_r by lia.
      apply rne_div_scale; [apply Z.pow_pos_nonneg; lia|assumption].
Qed.

Lemma bounded_inv (m : positive) (e : Z) :
  bounded prec emax m e = true ->
  fexp prec emax (Zpos (digits2_pos m) + e) = e /\ e <= 971
  /\ Zpos m < 2 ^ 53 /\ emin <= e.
Proof.
  unfold bounded, canonical_mantissa. intros H.
  apply andb_true_iff in H. destruct H as [H1 H2].
  apply Z.eqb_eq in H1. apply Z.leb_le in H2.
  change (emax - prec) with 971 in H2.
  split; [assumption|]. split; [assumption|].
  rewrite fexp_eq in H1.
  pose proof (digits2_pos_bounds m) as B.
  split; [|lia].
  assert (2 ^ Zpos (digits2_pos m) <= 2 ^ 53)
    by (apply Z.pow_le_mono_r; lia).
  lia.
Qed.

Lemma deq_digits (m1 m2 : positive) (e1 e2 : Z) :
  deq (Zpos m1) e1 (Zpos m2) e2 ->
  Zpos (digits2_pos m1) + e1 = Zpos (digits2_pos m2) + e2.
Proof.
  unfold deq. intros H.
  apply (f_equal Zdigits2) in H.
  rewrite !Zdigits2_mul_pow2 in H by lia.
  cbn [Zdigits2] in H. lia.
Qed.

Theorem binary_round_exact (s : bool) (m M0 : positive) (e E0 : Z) :
  bounded prec emax M0 E0 = true ->
  deq (Zpos m) e (Zpos M0) E0 ->
  binary_round prec emax s m e = S754_finite s M0 E0.
Proof.
  intros Hb Hd.
  destruct (bounded_inv M0 E0 Hb) as (Hc & He & Hm & _).
  rewrite binary_round_spec, (deq_digits _ _ _ _ Hd), Hc.
  assert (HM : rne_div (Zpos m * 2 ^ Z.max (e - E0) 0) (2 ^ Z.max (E0 - e) 0)
               = Zpos M0).
  { unfold deq in Hd. destruct (Z_le_gt_dec E0 e) as [C|C].
    - replace (Z.max (e - E0) 0) with (e - E0) by lia.
      replace (Z.max (E0 - e) 0) with 0 by lia.
      replace (e - Z.min e E0) with (e - E0) in Hd by lia.
      replace (E0 - Z.min e E0) with 0 in Hd by lia.
      rewrite Hd. change (2 ^ 0) with 1. rewrite Z.mul_1_r.
      rewrite <- (Z.mul_1_r (Zpos M0)) at 1. apply rne_div_exact. lia.
    - replace (Z.max (e - E0) 0) with 0 by lia.
      replace (Z.max (E0 - e) 0) with (E0 - e) by lia.
      replace (e - Z.min e E0) with 0 in Hd by lia.
      replace (E0 - Z.min e E0) with (E0 - e) in Hd by lia.
      change (2 ^ 0) with 1 in *. rewrite Z.mul_1_r in *. rewrite Hd.
      apply rne_div_exact. apply Z.pow_pos_nonneg; lia. }
  rewrite HM. unfold encode.
  destruct (Z.eqb_spec (Zpos M0) 0) as [?|_]; [lia|].
  destruct (Z.eqb_spec (Zpos M0) (2 ^ prec)) as [A|_];
    [change (2 ^ prec) with (2 ^ 53) in A; lia|].
  change (emax - prec) with 971.
  destruct (Z.leb_spec E0 971); [reflexivity|lia].
Qed.

Theorem binary_normalize_exact (z e : Z) (sz : bool) (M0 : positive) (E0 : Z) :
  bounded prec emax M0 E0 = true ->
  deq (Z.abs z) e (Zpos M0) E0 ->
  binary_normalize prec emax z e sz = S754_finite (sign_of z) M0 E0.
Proof.
  intros Hb Hd. destruct z as [|p|p]; cbn [binary_normalize Z.abs] in *.
  - exfalso. unfold deq in Hd. rewrite Z.mul_0_l in Hd.
    assert (0 < 2 ^ (E0 - Z.min e E0)) by (apply Z.pow_pos_nonneg; lia).
    nia.
  - apply binary_round_exact; assumption.
  - apply binary_round_exact; assumption.
Qed.

(** The canonical mantissa and exponent of a nonzero integer of at most 53
    bits. *)
Lemma Z2SF_small (c : Z) :
  c <> 0 -> Z.abs c < 2 ^ 53 ->
  let d := Zdigits2 c in
  binary_normalize prec emax c 0 false
  = S754_finite (sign_of c) (Z.to_pos (Z.abs c * 2 ^ (53 - d))) (d - 53)
  /\ bounded prec emax (Z.to_pos (Z.abs c * 2 ^ (53 - d))) (d - 53) = true.
Proof.
  intros Hc Hlt d.
  assert (Hd : Zdigits2 (Z.abs c) = d) by (destruct c; reflexivity).
  pose proof (Zdigits2_bounds (Z.abs c) ltac:(lia)) as B. rewrite Hd in B.
  assert (Hd53 : 0 < d <= 53).
  { split; [rewrite <- Hd; apply Zdigits2_pos; lia|].
    destruct (Z_lt_le_dec 53 d); [|assumption].
    assert (2 ^ 53 <= 2 ^ (d - 1)) by (apply Z.pow_le_mono_r; lia). lia. }
  assert (P : 0 < 2 ^ (53 - d)) by (apply Z.pow_pos_nonneg; lia).
  assert (Hid : Zpos (Z.to_pos (Z.abs c * 2 ^ (53 - d)))
                = Z.abs c * 2 ^ (53 - d)) by (apply Z2Pos.id; nia).
  assert (Hb : bounded prec emax (Z.to_pos (Z.abs c * 2 ^ (53 - d))) (d - 53)
               = true).
  { unfold bounded, canonical_mantissa. apply andb_true_iff. split.
    - apply Z.eqb_eq.
      change (Zpos (digits2_pos (Z.to_pos (Z.abs c * 2 ^ (53 - d)))))
        with (Zdigits2 (Zpos (Z.to_pos (Z.abs c * 2 ^ (53 - d))))).
      rewrite Hid, Zdigits2_mul_pow2, Hd, fexp_eq by lia. unfold emin. lia.
    - apply Z.leb_le. change (emax - prec) with 971. lia. }
  split; [|exact Hb].
  apply binary_normalize_exact; [exact Hb|].
  unfold deq. rewrite Hid.
  replace (0 - Z.min 0 (d - 53)) with (53 - d) by lia.
  replace (d - 53 - Z.min 0 (d - 53)) with 0 by lia.
  change (2 ^ 0) with 1. ring.
Qed.

Lemma deq_shift (m1 e1 m2 e2 k : Z) :
  deq m1 e1 m2 e2 -> k <= e1 -> k <= e2 ->
  m1 * 2 ^ (e1 - k) = m2 * 2 ^ (e2 - k).
Proof.
  unfold deq. intros H H1 H2.
  replace (e1 - k) with (e1 - Z.min e1 e2 + (Z.min e1 e2 - k)) by lia.
  replace (e2 - k) with (e2 - Z.min e1 e2 + (Z.min e1 e2 - k)) by lia.
  rewrite !Z.pow_add_r by lia. rewrite !Z.mul_assoc, H. reflexivity.
Qed.

Lemma deq_of_shift (m1 e1 m2 e2 k : Z) :
  k <= e1 -> k <= e2 ->
  m1 * 2 ^ (e1 - k) = m2 * 2 ^ (e2 - k) -> deq m1 e1 m2 e2.
Proof.
  unfold deq. intros H1 H2 H.
  replace (e1 - k) with (e1 - Z.min e1 e2 + (Z.min e1 e2 - k)) in H by lia.
  replace (e2 - k) with (e2 - Z.min e1 e2 + (Z.min e1 e2 - k)) in H by lia.
  rewrite !Z.pow_add_r, !Z.mul_assoc in H by lia.
  apply Z.mul_reg_r in H; [assumption|].
  apply Z.neq_sym, Z.lt_neq, Z.pow_pos_nonneg; lia.
Qed.

Lemma deq_sym (m1 e1 m2 e2 : Z) : deq m1 e1 m2 e2 -> deq m2 e2 m1 e1.
Proof. unfold deq. rewrite (Z.min_comm e2 e1). intros H; symmetry; exact H. Qed.

Lemma binary_normalize_scale (z e k : Z) (s : bool) :
  0 <= k ->
  binary_normalize prec emax (z * 2 ^ k) (e - k) s
  = binary_normalize prec emax z e s.
Proof.
  intros Hk. assert (P : 0 < 2 ^ k) by (apply Z.pow_pos_nonneg; lia).
  destruct z as [|p|p].
  - reflexivity.
  - assert (H : Zpos p * 2 ^ k = Zpos (Z.to_pos (Zpos p * 2 ^ k)))
      by (symmetry; apply Z2Pos.id; nia).
    rewrite H. cbn [binary_normalize]. apply binary_round_scale; assumption.
  - assert (H : Zneg p * 2 ^ k = Zneg (Z.to_pos (Zpos p * 2 ^ k))).
    { change (Zneg p) with (- Zpos p). rewrite Z.mul_opp_l.
      rewrite <- (Z2Pos.id (Zpos p * 2 ^ k)) at 1 by nia. reflexivity. }
    rewrite H. cbn [binary_normalize]. apply binary_round_scale; assumption.
Qed.

Theorem binary_normalize_deq (z1 e1 z2 e2 : Z) (s : bool) :
  deq z1 e1 z2 e2 ->
  binary_normalize prec emax z1 e1 s = binary_normalize prec emax z2 e2 s.
Proof.
  intros H. unfold deq in H. set (mn := Z.min e1 e2) in *.
  rewrite <- (binary_normalize_scale z1 e1 (e1 - mn)) by lia.
  rewrite <- (binary_normalize_scale z2 e2 (e2 - mn)) by lia.
  rewrite H. f_equal. lia.
Qed.

Lemma shl_align_fst (mx : positive) (ex ez : Z) :
  ez <= ex -> Zpos (fst (shl_align mx ex ez)) = Zpos mx * 2 ^ (ex - ez).
Proof.
  intros H. unfold shl_align.
  destruct (ez - ex) as [|d|d] eqn:E; cbn [fst].
  - replace (ex - ez) with 0 by lia. change (2 ^ 0) with 1. lia.
  - lia.
  - rewrite iter_xO. f_equal. f_equal. lia.
Qed.

Lemma SFadd_finite (sx sy : bool) (mx my : positive) (ex ey : Z) :
  let ez := Z.min ex ey in
  SFadd prec emax (S754_finite sx mx ex) (S754_finite sy my ey)
  = binary_normalize prec emax
      (smant sx mx * 2 ^ (ex - ez) + smant sy my * 2 ^ (ey - ez)) ez false.
Proof.
  intros ez. unfold SFadd. fold ez.
  rewrite !shl_align_fst by lia.
  f_equal. unfold smant. destruct sx, sy; cbn [cond_Zopp]; ring.
Qed.

Lemma new_location_loc_of (N D : Z) :
  0 < D -> new_location D (N mod D) = loc_of N D.
Proof.
  intros HD. pose proof (Z.mod_pos_bound N D HD) as B.
  unfold new_location, new_location_even, new_location_odd, loc_of.
  destruct (Z.even D) eqn:Ev; [reflexivity|].
  destruct (Z.eqb_spec (N mod D) 0); [reflexivity|].
  assert (Hodd : D = 2 * (D / 2) + 1).
  { pose proof (Zmod_odd D) as Ho. rewrite <- Z.negb_even, Ev in Ho.
    cbn [negb] in Ho. pose proof (Z.div_mod D 2 ltac:(lia)). lia. }
  f_equal.
  destruct (Z.compare_spec (2 * (N mod D) + 1) D);
    destruct (Z.compare_spec (2 * (N mod D)) D); try reflexivity; lia.
Qed.

Lemma SFdiv_core_spec (m1 e1 m2 e2 : Z) :
  0 < m1 -> 0 < m2 ->
  let e' := Z.min (fexp prec emax (Zdigits2 m1 + e1 - (Zdigits2 m2 + e2)))
                  (e1 - e2) in
  let N := m1 * 2 ^ (e1 - e2 - e') in
  SFdiv_core_binary prec emax m1 e1 m2 e2 = (N / m2, e', loc_of N m2).
Proof.
  intros H1 H2 e' N. unfold SFdiv_core_binary. fold e'.
  assert (Hm : match e1 - e2 - e' with
               | Zpos _ => Z.shiftl m1 (e1 - e2 - e')
               | Z0 => m1
               | Zneg _ => 0
               end = N).
  { unfold N. destruct (e1 - e2 - e') as [|p|p] eqn:E.
    - change (2 ^ 0) with 1. lia.
    - rewrite Z.shiftl_mul_pow2 by lia. reflexivity.
    - unfold e' in E. lia. }
  rewrite Hm. unfold Z.div, Z.modulo.
  pose proof (new_location_loc_of N m2 H2) as L.
  unfold Z.modulo in L. unfold loc_of at 1 in L.
  destruct (Z.div_eucl N m2) as [q r] eqn:Eq.
  rewrite L. unfold loc_of, Z.modulo. rewrite Eq. reflexivity.
Qed.

Lemma Zdigits2_pow2 (k : Z) : 0 <= k -> Zdigits2 (2 ^ k) = k + 1.
Proof.
  intros Hk. rewrite <- (Z.mul_1_l (2 ^ k)).
  rewrite Zdigits2_mul_pow2 by lia. cbn [Zdigits2 digits2_pos]. lia.
Qed.

Lemma Zdigits2_mul_le (a b : Z) :
  0 < a -> 0 < b -> Zdigits2 a + Zdigits2 b - 1 <= Zdigits2 (a * b)
                    /\ Zdigits2 (a * b) <= Zdigits2 a + Zdigits2 b.
Proof.
  intros Ha Hb.
  pose proof (Zdigits2_bounds a Ha) as Ba.
  pose proof (Zdigits2_bounds b Hb) as Bb.
  pose proof (Zdigits2_pos a Ha). pose proof (Zdigits2_pos b Hb).
  assert (Hab : 0 < a * b) by nia.
  pose proof (Zdigits2_bounds (a * b) Hab) as Bab.
  assert (L : 2 ^ (Zdigits2 a - 1 + (Zdigits2 b - 1)) <= a * b).
  { rewrite Z.pow_add_r by lia.
    assert (0 < 2 ^ (Zdigits2 a - 1)) by (apply Z.pow_pos_nonneg; lia).
    assert (0 < 2 ^ (Zdigits2 b - 1)) by (apply Z.pow_pos_nonneg; lia).
    nia. }
  assert (U : a * b < 2 ^ (Zdigits2 a + Zdigits2 b)).
  { rewrite Z.pow_add_r by lia. nia. }
  split.
  - destruct (Z_lt_le_dec (Zdigits2 (a * b)) (Zdigits2 a + Zdigits2 b - 1));
      [|lia].
    assert (2 ^ Zdigits2 (a * b) <= 2 ^ (Zdigits2 a - 1 + (Zdigits2 b - 1)))
      by (apply Z.pow_le_mono_r; lia).
    lia.
  - destruct (Z_lt_le_dec (Zdigits2 a + Zdigits2 b) (Zdigits2 (a * b)));
      [|lia].
    assert (2 ^ (Zdigits2 a + Zdigits2 b) <= 2 ^ (Zdigits2 (a * b) - 1))
      by (apply Z.pow_le_mono_r; lia).
    lia.
Qed.

Lemma fexp_mono (a b : Z) : a <= b -> fexp prec emax a <= fexp prec emax b.
Proof. rewrite !fexp_eq. lia. Qed.

Lemma fexp_ge_emin (a : Z) : emin <= fexp prec emax a.
Proof. rewrite fexp_eq. lia. Qed.

Section Division.

Variables (sx sy : bool) (mx my : positive) (ex ey : Z).

Let e' := Z.min (fexp prec emax (Zpos (digits2_pos mx) + ex
                                 - (Zpos (digits2_pos my) + ey)))
                (ex - ey).
Let N := Zpos mx * 2 ^ (ex - ey - e').
Let E := fexp prec emax (Zdigits2 (N / Zpos my) + e').

Lemma div_enough : e' <= E.
Proof.
  set (d1 := Zpos (digits2_pos mx)). set (d2 := Zpos (digits2_pos my)).
  set (sh := ex - ey - e').
  assert (Hsh : 0 <= sh) by (unfold sh, e'; lia).
  destruct (Z_lt_le_dec 0 (d1 + sh - d2)) as [C|C].
  - assert (Hq : 2 ^ (d1 + sh - d2 - 1) <= N / Zpos my).
    { apply Z.div_le_lower_bound; [lia|].
      pose proof (digits2_pos_bounds mx) as B1.
      pose proof (digits2_pos_bounds my) as B2. fold d1 in B1. fold d2 in B2.
      unfold N. fold sh.
      assert (P1 : 0 < 2 ^ (d1 + sh - d2 - 1))
        by (apply Z.pow_pos_nonneg; lia).
      assert (P2 : 0 < 2 ^ sh) by (apply Z.pow_pos_nonneg; lia).
      assert (H1 : Zpos my * 2 ^ (d1 + sh - d2 - 1)
                   <= 2 ^ d2 * 2 ^ (d1 + sh - d2 - 1)) by nia.
      rewrite <- Z.pow_add_r in H1 by lia.
      replace (d2 + (d1 + sh - d2 - 1)) with (d1 - 1 + sh) in H1 by lia.
      rewrite Z.pow_add_r in H1 by lia. nia. }
    assert (Hd : d1 + sh - d2 <= Zdigits2 (N / Zpos my)).
    { replace (d1 + sh - d2) with (Zdigits2 (2 ^ (d1 + sh - d2 - 1)))
        by (rewrite Zdigits2_pow2; lia).
      apply Zdigits2_le. split; [apply Z.pow_nonneg; lia|assumption]. }
    unfold E.
    apply Z.le_trans with (fexp prec emax (d1 + ex - (d2 + ey))).
    + unfold e'. fold d1 d2. lia.
    + apply fexp_mono. unfold sh in Hd. lia.
  - assert (e' <= emin).
    { unfold sh in C. unfold e' in *. fold d1 d2 in C |- *.
      rewrite fexp_eq in *. lia. }
    pose proof (fexp_ge_emin (Zdigits2 (N / Zpos my) + e')). unfold E. lia.
Qed.

Theorem fdiv_spec :
  SFdiv prec emax (S754_finite sx mx ex) (S754_finite sy my ey)
  = encode (xorb sx sy) (rne_div N (Zpos my * 2 ^ (E - e'))) E.
Proof.
  unfold SFdiv.
  pose proof (SFdiv_core_spec (Zpos mx) ex (Zpos my) ey
                ltac:(lia) ltac:(lia)) as H.
  cbn [Zdigits2] in H. fold e' in H. fold N in H. rewrite H.
  apply bra_spec; [unfold N; apply Z.mul_nonneg_nonneg;
                   [lia|apply Z.pow_nonneg; lia] | lia | apply div_enough].
Qed.

Theorem fdiv_exact (M0 : positive) (E0 : Z) :
  bounded prec emax M0 E0 = true ->
  deq (Zpos mx) ex (Zpos M0 * Zpos my) (E0 + ey) ->
  SFdiv prec emax (S754_finite sx mx ex) (S754_finite sy my ey)
  = S754_finite (xorb sx sy) M0 E0.
Proof.
  intros Hb Hd. destruct (bounded_inv M0 E0 Hb) as (Hc & He & Hm & Hmin).
  assert (Hdig : Zpos (digits2_pos mx) + ex
                 = Zdigits2 (Zpos M0 * Zpos my) + (E0 + ey)).
  { unfold deq in Hd. apply (f_equal Zdigits2) in Hd.
    rewrite !Zdigits2_mul_pow2 in Hd by lia. cbn [Zdigits2] in Hd. lia. }
  pose proof (Zdigits2_mul_le (Zpos M0) (Zpos my) ltac:(lia) ltac:(lia))
    as [_ Hle]. cbn [Zdigits2] in Hle.
  assert (He' : e' <= E0).
  { apply Z.le_trans
      with (fexp prec emax (Zpos (digits2_pos mx) + ex
                            - (Zpos (digits2_pos my) + ey)));
      [unfold e'; lia|].
    rewrite <- Hc. apply fexp_mono. lia. }
  assert (HN : N = Zpos M0 * (Zpos my * 2 ^ (E0 - e'))).
  { unfold N.
    pose proof (deq_shift _ _ _ _ (ey + e') Hd) as S.
    replace (ex - (ey + e')) with (ex - ey - e') in S by lia.
    replace (E0 + ey - (ey + e')) with (E0 - e') in S by lia.
    rewrite S; [ring| unfold e'; lia | lia]. }
  assert (P : 0 < 2 ^ (E0 - e')) by (apply Z.pow_pos_nonneg; lia).
  assert (Hq : N / Zpos my = Zpos M0 * 2 ^ (E0 - e')).
  { rewrite HN.
    replace (Zpos M0 * (Zpos my * 2 ^ (E0 - e')))
      with (Zpos M0 * 2 ^ (E0 - e') * Zpos my) by ring.
    apply Z.div_mul. lia. }
  assert (HE : E = E0).
  { unfold E. rewrite Hq, Zdigits2_mul_pow2 by lia. cbn [Zdigits2].
    replace (Zpos (digits2_pos M0) + (E0 - e') + e')
      with (Zpos (digits2_pos M0) + E0) by lia.
    exact Hc. }
  rewrite fdiv_spec, HE, HN, rne_div_exact by nia.
  unfold encode.
  destruct (Z.eqb_spec (Zpos M0) 0) as [?|_]; [lia|].
  destruct (Z.eqb_spec (Zpos M0) (2 ^ prec)) as [A|_];
    [change (2 ^ prec) with (2 ^ 53) in A; lia|].
  change (emax - prec) with 971.
  destruct (Z.leb_spec E0 971); [reflexivity|lia].
Qed.

End Division.

Lemma bounded_digits (m : positive) (e : Z) :
  bounded prec emax m e = true ->
  Zpos (digits2_pos m) <= 53
  /\ (Zpos (digits2_pos m) = 53 \/ e = emin).
Proof.
  intros H. destruct (bounded_inv m e H) as (Hc & _ & _ & _).
  rewrite fexp_eq in Hc. lia.
Qed.

Theorem fmul_exact (sx sy : bool) (mx my M0 : positive) (ex ey E0 : Z) :
  bounded prec emax mx ex = true ->
  bounded prec emax my ey = true ->
  bounded prec emax M0 E0 = true ->
  deq (Zpos mx * Zpos my) (ex + ey) (Zpos M0) E0 ->
  SFmul prec emax (S754_finite sx mx ex) (S754_finite sy my ey)
  = S754_finite (xorb sx sy) M0 E0.
Proof.
  intros Hx Hy Hb Hd.
  destruct (bounded_inv M0 E0 Hb) as (Hc & He & Hm & Hmin).
  destruct (bounded_digits mx ex Hx) as (Hdx & Hcx).
  destruct (bounded_digits my ey Hy) as (Hdy & Hcy).
  destruct (bounded_inv mx ex Hx) as (_ & _ & _ & Hminx).
  destruct (bounded_inv my ey Hy) as (_ & _ & _ & Hminy).
  pose proof (Zdigits2_mul_le (Zpos mx) (Zpos my) ltac:(lia) ltac:(lia))
    as [Hlo _]. cbn [Zdigits2] in Hlo.
  assert (Hdig : Zdigits2 (Zpos mx * Zpos my) + (ex + ey)
                 = Zpos (digits2_pos M0) + E0).
  { unfold deq in Hd. apply (f_equal Zdigits2) in Hd.
    rewrite !Zdigits2_mul_pow2 in Hd by lia. cbn [Zdigits2] in Hd.
    cbn [Zdigits2]. lia. }
  assert (Hen : ex + ey <= E0).
  { rewrite <- Hc, <- Hdig, fexp_eq.
    pose proof (Pos2Z.is_pos (digits2_pos mx)).
    pose proof (Pos2Z.is_pos (digits2_pos my)).
    change (Zdigits2 (Zpos mx * Zpos my))
      with (Zdigits2 (Zpos (mx * my))) in *.
    cbn [Zdigits2] in *. unfold emin in *. lia. }
  unfold SFmul.
  pose proof (bra_spec (xorb sx sy) (Zpos (mx * my)) 1 (ex + ey)
                ltac:(lia) ltac:(lia)) as H.
  rewrite Z.div_1_r, loc_of_1 in H.
  change (Zpos (mx * my)) with (Zpos mx * Zpos my) in *.
  rewrite Hdig, Hc in H. rewrite H by assumption. clear H.
  rewrite Z.mul_1_l.
  pose proof (deq_shift _ _ _ _ (ex + ey) Hd ltac:(lia) ltac:(lia)) as S.
  rewrite Z.sub_diag in S. change (2 ^ 0) with 1 in S.
  rewrite Z.mul_1_r in S. rewrite S.
  rewrite rne_div_exact by (apply Z.pow_pos_nonneg; lia).
  unfold encode.
  destruct (Z.eqb_spec (Zpos M0) 0) as [?|_]; [lia|].
  destruct (Z.eqb_spec (Zpos M0) (2 ^ prec)) as [A|_];
    [change (2 ^ prec) with (2 ^ 53) in A; lia|].
  change (emax - prec) with 971.
  destruct (Z.leb_spec E0 971); [reflexivity|lia].
Qed.

(** The mantissa before rounding has 53 digits, or fewer at the smallest
    exponent. *)
Lemma bra_range (N D e : Z) :
  0 <= N -> 0 < D ->
  let E := fexp prec emax (Zdigits2 (N / D) + e) in
  e <= E ->
  0 <= N / (D * 2 ^ (E - e)) < 2 ^ 53
  /\ (E = emin \/ 2 ^ 52 <= N / (D * 2 ^ (E - e))).
Proof.
  intros HN HD E HE.
  assert (HEe : E = Z.max (Zdigits2 (N / D) + e - 53) emin)
    by (unfold E; apply fexp_eq).
  clearbody E.
  assert (P2 : 0 < 2 ^ (E - e)) by (apply Z.pow_pos_nonneg; lia).
  rewrite <- Z.div_div by lia.
  assert (Hm : 0 <= N / D) by (apply Z.div_pos; lia).
  destruct (Z.eq_dec (N / D) 0) as [Em|Nm].
  - rewrite Em in *. rewrite Z.div_0_l by lia.
    split; [split; [lia|reflexivity]|].
    left. cbn [Zdigits2] in HEe. unfold emin in *. lia.
  - pose proof (Zdigits2_bounds (N / D) ltac:(lia)) as Bm.
    split.
    + split; [apply Z.div_pos; lia|].
      apply Z.div_lt_upper_bound; [assumption|].
      rewrite <- Z.pow_add_r by lia.
      assert (2 ^ Zdigits2 (N / D) <= 2 ^ (E - e + 53))
        by (apply Z.pow_le_mono_r; lia).
      lia.
    + destruct (Z.eq_dec E emin) as [|NE]; [left; assumption|right].
      assert (Hn : E - e = Zdigits2 (N / D) - 53) by lia.
      apply Z.div_le_lower_bound; [assumption|].
      rewrite <- Z.pow_add_r by lia.
      replace (E - e + 52) with (Zdigits2 (N / D) - 1) by lia. lia.
Qed.

Lemma rne_div_nonneg (N D : Z) : 0 <= N -> 0 < D -> 0 <= rne_div N D.
Proof.
  intros HN HD. pose proof (rne_div_bounds N D HD).
  pose proof (Z.div_pos N D HN HD). lia.
Qed.

(** The rounded mantissa is nearest to [N / D]. *)
Lemma rne_div_nearest (N D : Z) :
  0 < D -> Z.abs (2 * (rne_div N D * D) - 2 * N) <= D.
Proof.
  intros HD. unfold rne_div.
  pose proof (Z.div_mod N D ltac:(lia)) as E.
  pose proof (Z.mod_pos_bound N D HD) as B.
  destruct (Z.compare_spec (2 * (N mod D)) D);
    [destruct (Z.even (N / D))| |]; nia.
Qed.

(** A half-way case goes to the even neighbour. *)
Lemma rne_div_tie (N D : Z) :
  0 < D -> 2 * (N mod D) = D -> Z.even (rne_div N D) = true.
Proof.
  intros HD H. unfold rne_div.
  rewrite (proj2 (Z.compare_eq_iff _ _) H).
  destruct (Z.even (N / D)) eqn:Ev; [assumption|].
  rewrite Z.even_add, Ev. reflexivity.
Qed.

Section DivisionRange.

Variables (mx my : positive) (ex ey : Z).

Let e' := Z.min (fexp prec emax (Zpos (digits2_pos mx) + ex
                                 - (Zpos (digits2_pos my) + ey)))
                (ex - ey).
Let N := Zpos mx * 2 ^ (ex - ey - e').
Let E := fexp prec emax (Zdigits2 (N / Zpos my) + e').
Let D := Zpos my * 2 ^ (E - e').

Lemma fdiv_range :
  0 < D /\ 0 <= N /\ emin <= E /\ e' <= E /\ e' <= ex - ey
  /\ 0 <= N / D < 2 ^ 53 /\ (E = emin \/ 2 ^ 52 <= N / D).
Proof.
  pose proof (div_enough mx my ex ey) as He. fold e' N E in He.
  assert (HN : 0 <= N)
    by (unfold N; apply Z.mul_nonneg_nonneg; [lia|apply Z.pow_nonneg; lia]).
  assert (P : 0 < 2 ^ (E - e')) by (apply Z.pow_pos_nonneg; lia).
  pose proof (bra_range N (Zpos my) e' HN ltac:(lia)) as B.
  fold E in B. specialize (B He). fold D in B.
  assert (emin <= E) by (unfold E; apply fexp_ge_emin).
  assert (e' <= ex - ey) by (unfold e'; lia).
  repeat split; try (unfold D; nia); try apply B; lia.
Qed.

End DivisionRange.

(** ** Rational values *)

Lemma pow2_pos (e : Z) : (0 < pow2 e)%Q.
Proof. apply Qpower_0_lt. reflexivity. Qed.

Lemma pow2_nz (e : Z) : ~ (pow2 e == 0)%Q.
Proof. intros H. pose proof (pow2_pos e) as P. rewrite H in P. discriminate. Qed.

Lemma pow2_add (a b : Z) : (pow2 (a + b) == pow2 a * pow2 b)%Q.
Proof. apply Qpower_plus. discriminate. Qed.

Lemma pow2_Z (k : Z) : 0 <= k -> (pow2 k == inject_Z (2 ^ k))%Q.
Proof.
  intros H. unfold pow2. rewrite Zpower_Qpower by assumption. reflexivity.
Qed.

Lemma pow2_opp (k : Z) : (pow2 (- k) == / pow2 k)%Q.
Proof. apply Qpower_opp. Qed.

Lemma deq_Q (m1 e1 m2 e2 : Z) :
  deq m1 e1 m2 e2 <-> (inject_Z m1 * pow2 e1 == inject_Z m2 * pow2 e2)%Q.
Proof.
  unfold deq. set (mn := Z.min e1 e2).
  assert (H1 : (pow2 e1 == inject_Z (2 ^ (e1 - mn)) * pow2 mn)%Q).
  { rewrite <- pow2_Z, <- pow2_add by lia.
    replace (e1 - mn + mn) with e1 by lia. reflexivity. }
  assert (H2 : (pow2 e2 == inject_Z (2 ^ (e2 - mn)) * pow2 mn)%Q).
  { rewrite <- pow2_Z, <- pow2_add by lia.
    replace (e2 - mn + mn) with e2 by lia. reflexivity. }
  rewrite H1, H2.
  rewrite !Qmult_assoc, <- !inject_Z_mult.
  split; intros H.
  - rewrite H. reflexivity.
  - apply Qmult_inj_r in H; [|apply pow2_nz].
    apply (proj1 (inject_Z_injective _ _)); exact H.
Qed.

Lemma smant_abs (z : Z) (m : positive) :
  Zpos m = Z.abs z -> smant (sign_of z) m = z.
Proof.
  unfold smant, sign_of. intros H.
  destruct (Z.ltb_spec z 0); cbn [cond_Zopp]; lia.
Qed.

Lemma smant_mul (s1 s2 : bool) (m1 m2 : positive) :
  smant s1 m1 * smant s2 m2 = smant (xorb s1 s2) (m1 * m2).
Proof. unfold smant. destruct s1, s2; cbn [cond_Zopp xorb]; lia. Qed.

Lemma signed_deq (s1 s2 : bool) (m1 m2 : positive) (e1 e2 : Z) :
  deq (smant s1 m1) e1 (smant s2 m2) e2 ->
  s1 = s2 /\ deq (Zpos m1) e1 (Zpos m2) e2.
Proof.
  unfold deq, smant. intros H.
  assert (P1 : 0 < 2 ^ (e1 - Z.min e1 e2)) by (apply Z.pow_pos_nonneg; lia).
  assert (P2 : 0 < 2 ^ (e2 - Z.min e1 e2)) by (apply Z.pow_pos_nonneg; lia).
  destruct s1, s2; cbn [cond_Zopp] in H; (split; [try reflexivity|]); nia.
Qed.

Lemma deq_signed (s : bool) (m1 m2 : positive) (e1 e2 : Z) :
  deq (Zpos m1) e1 (Zpos m2) e2 ->
  deq (smant s m1) e1 (smant s m2) e2.
Proof.
  unfold deq, smant. intros H. destruct s; cbn [cond_Zopp]; lia.
Qed.

(** ** Exactness of rounding, in terms of values *)

Theorem dyadic_Q (z e : Z) (s0 s : bool) (m : positive) (ef : Z) :
  bounded prec emax m ef = true ->
  (inject_Z z * pow2 e == SF2Q (S754_finite s m ef))%Q ->
  binary_normalize prec emax z e s0 = S754_finite s m ef.
Proof.
  intros Hb H. cbn [SF2Q] in H. apply deq_Q in H.
  assert (Hz : z = smant (sign_of z) (Z.to_pos (Z.abs z)) /\ z <> 0).
  { assert (z <> 0).
    { intros ->. unfold deq, smant in H.
      assert (0 < 2 ^ (ef - Z.min e ef)) by (apply Z.pow_pos_nonneg; lia).
      destruct s; cbn [cond_Zopp] in H; nia. }
    split; [|assumption]. symmetry. apply smant_abs. apply Z2Pos.id. lia. }
  destruct Hz as [Hz Hnz]. rewrite Hz in H.
  apply signed_deq in H. destruct H as [Hs H]. rewrite <- Hs.
  rewrite Z2Pos.id in H by lia.
  apply binary_normalize_exact; assumption.
Qed.

Theorem fdiv_Q (sx sy s0 : bool) (mx my M0 : positive) (ex ey E0 : Z) :
  bounded prec emax M0 E0 = true ->
  (SF2Q (S754_finite sx mx ex)
   == SF2Q (S754_finite s0 M0 E0) * SF2Q (S754_finite sy my ey))%Q ->
  fdiv (S754_finite sx mx ex) (S754_finite sy my ey) = S754_finite s0 M0 E0.
Proof.
  intros Hb H. cbn [SF2Q] in H.
  assert (H' : (inject_Z (smant sx mx) * pow2 ex
                == inject_Z (smant (xorb s0 sy) (M0 * my)) * pow2 (E0 + ey))%Q).
  { rewrite H, <- smant_mul, inject_Z_mult, pow2_add. ring. }
  apply deq_Q, signed_deq in H'. destruct H' as [Hs Hd].
  assert (s0 = xorb sx sy) as -> by (subst sx; destruct s0, sy; reflexivity).
  apply fdiv_exact; assumption.
Qed.

Theorem fmul_Q (sx sy s0 : bool) (mx my M0 : positive) (ex ey E0 : Z) :
  bounded prec emax mx ex = true ->
  bounded prec emax my ey = true ->
  bounded prec emax M0 E0 = true ->
  (SF2Q (S754_finite s0 M0 E0)
   == SF2Q (S754_finite sx mx ex) * SF2Q (S754_finite sy my ey))%Q ->
  fmul (S754_finite sx mx ex) (S754_finite sy my ey) = S754_finite s0 M0 E0.
Proof.
  intros Hx Hy Hb H. cbn [SF2Q] in H.
  assert (H' : (inject_Z (smant s0 M0) * pow2 E0
                == inject_Z (smant (xorb sx sy) (mx * my)) * pow2 (ex + ey))%Q).
  { rewrite H, <- smant_mul, inject_Z_mult, pow2_add. ring. }
  apply deq_Q, signed_deq in H'. destruct H' as [Hs Hd]. subst s0.
  apply fmul_exact; try assumption. apply deq_sym. exact Hd.
Qed.

(** The sum of two finite numbers is the rounded exact sum. *)
Theorem fadd_dyadic (sx sy : bool) (mx my : positive) (ex ey z e : Z) :
  (inject_Z z * pow2 e
   == SF2Q (S754_finite sx mx ex) + SF2Q (S754_finite sy my ey))%Q ->
  fadd (S754_finite sx mx ex) (S754_finite sy my ey) = dyadic z e.
Proof.
  intros H. unfold fadd, dyadic. rewrite SFadd_finite.
  apply binary_normalize_deq. apply deq_Q. rewrite H. cbn [SF2Q].
  set (ez := Z.min ex ey).
  rewrite inject_Z_plus, !inject_Z_mult, <- !pow2_Z by lia.
  rewrite Qmult_plus_distr_l, <- !Qmult_assoc, <- !pow2_add.
  replace (ex - ez + ez) with ex by lia.
  replace (ey - ez + ez) with ey by lia. reflexivity.
Qed.

(** ** Representable dyadic numbers *)

Lemma Zdigits2_abs (z : Z) : Zdigits2 (Z.abs z) = Zdigits2 z.
Proof. destruct z; reflexivity. Qed.

Lemma Zdigits2_lt_pow2 (z k : Z) :
  0 <= k -> Z.abs z < 2 ^ k -> Zdigits2 z <= k.
Proof.
  intros Hk H. rewrite <- Zdigits2_abs.
  destruct (Z.eq_dec z 0) as [->|Nz]; [simpl; lia|].
  pose proof (Zdigits2_bounds (Z.abs z) ltac:(lia)) as B.
  destruct (Z_lt_le_dec k (Zdigits2 (Z.abs z))); [|assumption].
  assert (2 ^ k <= 2 ^ (Zdigits2 (Z.abs z) - 1))
    by (apply Z.pow_le_mono_r; lia).
  lia.
Qed.

Lemma Zdigits2_le_pow2 (z k : Z) :
  z <> 0 -> Zdigits2 z <= k -> Z.abs z < 2 ^ k.
Proof.
  intros Nz H. rewrite <- Zdigits2_abs in H.
  pose proof (Zdigits2_bounds (Z.abs z) ltac:(lia)) as B.
  assert (2 ^ Zdigits2 (Z.abs z) <= 2 ^ k)
    by (apply Z.pow_le_mono_r; lia).
  lia.
Qed.

Section Repr.

Variables z e : Z.
Hypothesis R : repr z e.

Let E0 := fexp prec emax (Zdigits2 z + e).
Let M0 := Z.to_pos (Z.abs z * 2 ^ (e - E0)).

Lemma repr_exp : E0 <= e /\ emin <= E0 /\ E0 <= 971.
Proof.
  destruct R as (Nz & Hd & He & Hu). unfold E0. rewrite fexp_eq.
  unfold emin in *. lia.
Qed.

Lemma repr_mant : Zpos M0 = Z.abs z * 2 ^ (e - E0).
Proof.
  destruct R as (Nz & _). pose proof repr_exp as (H1 & _).
  assert (0 < 2 ^ (e - E0)) by (apply Z.pow_pos_nonneg; lia).
  unfold M0. apply Z2Pos.id. nia.
Qed.

Lemma repr_bounded : bounded prec emax M0 E0 = true.
Proof.
  destruct R as (Nz & Hd & He & Hu). pose proof repr_exp as (H1 & H2 & H3).
  unfold bounded, canonical_mantissa. apply andb_true_iff. split.
  - apply Z.eqb_eq.
    change (Zpos (digits2_pos M0)) with (Zdigits2 (Zpos M0)).
    rewrite repr_mant, Zdigits2_mul_pow2, Zdigits2_abs by lia.
    replace (Zdigits2 z + (e - E0) + E0) with (Zdigits2 z + e) by lia.
    reflexivity.
  - apply Z.leb_le. change (emax - prec) with 971. lia.
Qed.

Lemma repr_smant : smant (sign_of z) M0 = z * 2 ^ (e - E0).
Proof.
  unfold smant, sign_of. rewrite repr_mant.
  destruct (Z.ltb_spec z 0); cbn [cond_Zopp]; lia.
Qed.

Lemma repr_value :
  (SF2Q (S754_finite (sign_of z) M0 E0) == inject_Z z * pow2 e)%Q.
Proof.
  pose proof repr_exp as (H1 & _).
  cbn [SF2Q]. rewrite repr_smant, inject_Z_mult, <- pow2_Z by lia.
  rewrite <- Qmult_assoc, <- pow2_add.
  replace (e - E0 + E0) with e by lia. reflexivity.
Qed.

Theorem dyadic_repr : dyadic z e = S754_finite (sign_of z) M0 E0.
Proof.
  apply dyadic_Q; [apply repr_bounded|]. symmetry. apply repr_value.
Qed.

End Repr.

Lemma dyadic_valid (z e : Z) : repr z e -> valid (dyadic z e).
Proof. intros R. rewrite dyadic_repr by assumption. apply repr_bounded, R. Qed.

Lemma dyadic_value (z e : Z) :
  repr z e -> (SF2Q (dyadic z e) == inject_Z z * pow2 e)%Q.
Proof. intros R. rewrite dyadic_repr by assumption. apply repr_value, R. Qed.

Lemma dyadic_0 (e : Z) : dyadic 0 e = fzero.
Proof. reflexivity. Qed.

(** A valid nonzero finite float is the dyadic number of its own signed
    mantissa and exponent. *)
Lemma finite_dyadic (s : bool) (m : positive) (e : Z) :
  bounded prec emax m e = true ->
  S754_finite s m e = dyadic (smant s m) e /\ repr (smant s m) e.
Proof.
  intros Hb. split.
  - symmetry. apply dyadic_Q; [assumption|]. reflexivity.
  - destruct (bounded_inv m e Hb) as (Hc & He & Hm & Hmin).
    destruct (bounded_digits m e Hb) as (Hd & _).
    unfold repr, smant. rewrite fexp_eq in Hc.
    destruct s; cbn [cond_Zopp Z.opp Zdigits2]; unfold emin in *;
      repeat split; try discriminate; lia.
Qed.

(** Two representations of the same dyadic number round alike. *)
Lemma dyadic_eq (z1 e1 z2 e2 : Z) :
  (inject_Z z1 * pow2 e1 == inject_Z z2 * pow2 e2)%Q ->
  dyadic z1 e1 = dyadic z2 e2.
Proof. intros H. apply binary_normalize_deq, deq_Q, H. Qed.

(** ** The operations on representable numbers *)

Theorem fmul_dyadic (z1 e1 z2 e2 z3 e3 : Z) :
  repr z1 e1 -> repr z2 e2 -> repr z3 e3 ->
  (inject_Z z3 * pow2 e3
   == (inject_Z z1 * pow2 e1) * (inject_Z z2 * pow2 e2))%Q ->
  fmul (dyadic z1 e1) (dyadic z2 e2) = dyadic z3 e3.
Proof.
  intros R1 R2 R3 H.
  rewrite (dyadic_repr z1 e1 R1), (dyadic_repr z2 e2 R2),
    (dyadic_repr z3 e3 R3).
  apply fmul_Q; try (apply repr_bounded; assumption).
  rewrite !repr_value by assumption. exact H.
Qed.

Theorem fdiv_dyadic (z1 e1 z2 e2 z3 e3 : Z) :
  repr z1 e1 -> repr z2 e2 -> repr z3 e3 ->
  (inject_Z z1 * pow2 e1
   == (inject_Z z3 * pow2 e3) * (inject_Z z2 * pow2 e2))%Q ->
  fdiv (dyadic z1 e1) (dyadic z2 e2) = dyadic z3 e3.
Proof.
  intros R1 R2 R3 H.
  rewrite (dyadic_repr z1 e1 R1), (dyadic_repr z2 e2 R2),
    (dyadic_repr z3 e3 R3).
  apply fdiv_Q; try (apply repr_bounded; assumption).
  rewrite !repr_value by assumption. exact H.
Qed.

Theorem fadd_repr (z1 e1 z2 e2 z e : Z) :
  repr z1 e1 -> repr z2 e2 ->
  (inject_Z z * pow2 e == inject_Z z1 * pow2 e1 + inject_Z z2 * pow2 e2)%Q ->
  fadd (dyadic z1 e1) (dyadic z2 e2) = dyadic z e.
Proof.
  intros R1 R2 H.
  rewrite (dyadic_repr z1 e1 R1), (dyadic_repr z2 e2 R2).
  apply fadd_dyadic. rewrite !repr_value by assumption. exact H.
Qed.

Lemma repr_int (z : Z) : z <> 0 -> Z.abs z < 2 ^ 53 -> repr z 0.
Proof.
  intros Nz H. pose proof (Zdigits2_lt_pow2 z 53 ltac:(lia) H).
  unfold repr, emin. repeat split; lia.
Qed.

Lemma Z2SF_dyadic (z : Z) : Z2SF z = dyadic z 0.
Proof. reflexivity. Qed.

Lemma Z2SF_0 : Z2SF 0 = fzero.
Proof. reflexivity. Qed.

(** Sums of 53-bit integers are rounded once. *)
Theorem fadd_Z2SF (a b : Z) :
  Z.abs a < 2 ^ 53 -> Z.abs b < 2 ^ 53 ->
  fadd (Z2SF a) (Z2SF b) = Z2SF (a + b).
Proof.
  intros Ha Hb.
  destruct (Z.eq_dec a 0) as [->|Na]; destruct (Z.eq_dec b 0) as [->|Nb].
  - reflexivity.
  - rewrite Z.add_0_l, Z2SF_0, Z2SF_dyadic.
    rewrite (dyadic_repr b 0 (repr_int b Nb Hb)). reflexivity.
  - rewrite Z.add_0_r, Z2SF_0, Z2SF_dyadic.
    rewrite (dyadic_repr a 0 (repr_int a Na Ha)). reflexivity.
  - rewrite !Z2SF_dyadic.
    apply fadd_repr; try (apply repr_int; assumption).
    rewrite inject_Z_plus. ring.
Qed.

Lemma fsub_zero (x : float) : fsub x fzero = x.
Proof. destruct x as [[|]|[|]| |s m e]; reflexivity. Qed.

Lemma fadd_zero_l (x : float) :
  x <> S754_zero true -> fadd fzero x = x.
Proof. destruct x as [[|]|[|]| |s m e]; intros H; try reflexivity.
  exfalso; apply H; reflexivity. Qed.

Lemma Z2SF_finite (z : Z) :
  Z.abs z < 2 ^ 53 -> float_of_int z = Ok (Z2SF z).
Proof.
  intros H. unfold float_of_int.
  destruct (Z.eq_dec z 0) as [->|Nz]; [reflexivity|].
  rewrite Z2SF_dyadic, (dyadic_repr z 0 (repr_int z Nz H)). reflexivity.
Qed.

Lemma Z2SF_value (z : Z) :
  Z.abs z < 2 ^ 53 -> (SF2Q (Z2SF z) == inject_Z z)%Q.
Proof.
  intros H. destruct (Z.eq_dec z 0) as [->|Nz]; [reflexivity|].
  rewrite Z2SF_dyadic, dyadic_value by (apply repr_int; assumption).
  change (pow2 0) with 1%Q. ring.
Qed.

(** ** Powers of two *)

Lemma repr_pow2 (e : Z) : emin <= e <= 1023 -> repr 1 e.
Proof. intros H. unfold repr. cbn [Zdigits2 digits2_pos]. unfold emin in *.
  repeat split; lia. Qed.

Lemma fpow2_dyadic (e : Z) : fpow2 e = dyadic 1 e.
Proof. reflexivity. Qed.

Lemma Z2SF_pow2 (e : Z) : 0 <= e -> Z2SF (2 ^ e) = dyadic 1 e.
Proof.
  intros H. rewrite Z2SF_dyadic. apply dyadic_eq.
  rewrite <- pow2_Z by assumption. change (pow2 0) with 1%Q. ring.
Qed.

Lemma to_float_pow2 (e : Z) :
  emin <= e <= 1023 -> to_float (pow2_num e) = Ok (dyadic 1 e).
Proof.
  intros H. unfold pow2_num.
  destruct (Z.leb_spec 0 e); cbn [to_float].
  - unfold float_of_int. rewrite Z2SF_pow2 by assumption.
    rewrite (dyadic_repr 1 e (repr_pow2 e H)). reflexivity.
  - rewrite fpow2_dyadic. reflexivity.
Qed.

(** ** Quantisation *)

Lemma binary_normalize_nz (z e : Z) (s : bool) :
  z <> 0 -> binary_normalize prec emax z e s = dyadic z e.
Proof. destruct z; intros H; [exfalso; apply H|..]; reflexivity. Qed.

Lemma sign_of_smant (s : bool) (m : positive) : sign_of (smant s m) = s.
Proof. destruct s; reflexivity. Qed.

Lemma abs_smant (s : bool) (m : positive) : Z.abs (smant s m) = Zpos m.
Proof. destruct s; reflexivity. Qed.

Lemma py_int_Z (F : Z) (s : bool) :
  Z.abs F < 2 ^ 53 -> py_int (binary_normalize prec emax F 0 s) = Ok F.
Proof.
  intros H. destruct (Z.eq_dec F 0) as [->|NF]; [reflexivity|].
  rewrite binary_normalize_nz by assumption.
  pose proof (repr_int F NF H) as R. rewrite (dyadic_repr F 0 R).
  pose proof (repr_exp F 0 R) as (H1 & _).
  cbn [py_int]. rewrite (repr_smant F 0 R).
  set (E0 := fexp prec emax (Zdigits2 F + 0)) in *.
  destruct (Z.leb_spec 0 E0).
  - replace E0 with 0 by lia. change (2 ^ 0) with 1.
    rewrite Z.sub_diag. change (2 ^ 0) with 1. f_equal. ring.
  - replace (0 - E0) with (- E0) by lia. f_equal.
    apply Z.quot_mul. apply Z.neq_sym, Z.lt_neq, Z.pow_pos_nonneg; lia.
Qed.

Lemma floor_small (m : positive) (s : bool) (k : Z) :
  0 < k -> Zpos m < 2 ^ 53 -> Z.abs (smant s m / 2 ^ k) < 2 ^ 53.
Proof.
  intros Hk Hm.
  assert (P : 2 <= 2 ^ k).
  { change 2 with (2 ^ 1) at 1. apply Z.pow_le_mono_r; lia. }
  assert (L : - Zpos m <= smant s m / 2 ^ k).
  { apply Z.div_le_lower_bound; [lia|]. unfold smant.
    destruct s; cbn [cond_Zopp]; nia. }
  assert (U : smant s m / 2 ^ k <= Zpos m).
  { apply Z.div_le_upper_bound; [lia|]. unfold smant.
    destruct s; cbn [cond_Zopp]; nia. }
  lia.
Qed.

Theorem quantize_floor (s : bool) (m : positive) (e : Z) :
  bounded prec emax m e = true ->
  quantize false (S754_finite s m e) = Ok (floor_dy (smant s m) e).
Proof.
  intros Hb. destruct (bounded_inv m e Hb) as (_ & _ & Hm & _).
  unfold quantize, np_floor, floor_dy.
  destruct (Z.leb_spec 0 e) as [He|He].
  - cbn [py_int]. destruct (Z.leb_spec 0 e); [reflexivity|lia].
  - apply py_int_Z. apply floor_small; [lia|assumption].
Qed.

Theorem quantize_round (s : bool) (m : positive) (e : Z) :
  quantize true (S754_finite s m e) = Ok (rne_dy (smant s m) e).
Proof.
  unfold quantize, py_round, rne_dy.
  rewrite sign_of_smant, abs_smant. reflexivity.
Qed.

Lemma quantize_zero (b s : bool) : quantize b (S754_zero s) = Ok 0.
Proof. destruct b; reflexivity. Qed.

Lemma floor_dy_scale (z e k : Z) :
  0 <= k -> floor_dy (z * 2 ^ k) (e - k) = floor_dy z e.
Proof.
  intros Hk. unfold floor_dy.
  assert (P : 0 < 2 ^ k) by (apply Z.pow_pos_nonneg; lia).
  destruct (Z.leb_spec 0 (e - k)); destruct (Z.leb_spec 0 e); try lia.
  - rewrite <- Z.mul_assoc, <- Z.pow_add_r by lia. do 2 f_equal. lia.
  - replace k with (e + (k - e)) at 1 by lia.
    rewrite Z.pow_add_r by lia.
    replace (- (e - k)) with (k - e) by lia.
    rewrite Z.mul_assoc. apply Z.div_mul.
    apply Z.neq_sym, Z.lt_neq, Z.pow_pos_nonneg; lia.
  - replace (- (e - k)) with (- e + k) by lia.
    rewrite Z.pow_add_r by lia.
    apply Z.div_mul_cancel_r; apply Z.neq_sym, Z.lt_neq;
      [apply Z.pow_pos_nonneg; lia|assumption].
Qed.

Lemma rne_dy_scale (z e k : Z) :
  0 <= k -> rne_dy (z * 2 ^ k) (e - k) = rne_dy z e.
Proof.
  intros Hk. unfold rne_dy.
  assert (P : 0 < 2 ^ k) by (apply Z.pow_pos_nonneg; lia).
  assert (Hs : sign_of (z * 2 ^ k) = sign_of z).
  { unfold sign_of. destruct (Z.ltb_spec (z * 2 ^ k) 0);
      destruct (Z.ltb_spec z 0); try reflexivity; nia. }
  assert (Ha : Z.abs (z * 2 ^ k) = Z.abs z * 2 ^ k)
    by (rewrite Z.abs_mul; f_equal; lia).
  destruct (Z.leb_spec 0 (e - k)); destruct (Z.leb_spec 0 e); try lia.
  - rewrite <- Z.mul_assoc, <- Z.pow_add_r by lia. do 2 f_equal. lia.
  - rewrite Hs, Ha.
    replace k with (e + (k - e)) at 1 by lia.
    rewrite Z.pow_add_r by lia.
    replace (- (e - k)) with (k - e) by lia.
    rewrite Z.mul_assoc, rne_div_exact by (apply Z.pow_pos_nonneg; lia).
    unfold sign_of. destruct (Z.ltb_spec z 0); cbn [cond_Zopp]; nia.
  - rewrite Hs, Ha.
    replace (- (e - k)) with (- e + k) by lia.
    rewrite Z.pow_add_r by lia.
    rewrite rne_div_scale; [reflexivity|apply Z.pow_pos_nonneg; lia|assumption].
Qed.

Theorem quantize_dyadic (b : bool) (z e : Z) :
  repr z e ->
  quantize b (dyadic z e) = Ok (if b then rne_dy z e else floor_dy z e).
Proof.
  intros R. rewrite (dyadic_repr z e R).
  pose proof (repr_exp z e R) as (H1 & _).
  destruct b.
  - rewrite quantize_round, (repr_smant z e R). f_equal.
    rewrite <- (rne_dy_scale z e (e - fexp prec emax (Zdigits2 z + e)))
      by lia.
    f_equal. lia.
  - rewrite quantize_floor by (apply repr_bounded; assumption).
    rewrite (repr_smant z e R). f_equal.
    rewrite <- (floor_dy_scale z e (e - fexp prec emax (Zdigits2 z + e)))
      by lia.
    f_equal. lia.
Qed.

(** The floor of a dyadic number is the floor of its rational value. *)
Lemma floor_dy_Q (z e : Z) : floor_dy z e = Qfloor (inject_Z z * pow2 e).
Proof.
  unfold floor_dy. destruct (Z.leb_spec 0 e).
  - rewrite pow2_Z, <- inject_Z_mult by assumption.
    symmetry. apply Qfloor_Z.
  - rewrite Zdiv_Qdiv.
    apply Qfloor_comp. unfold Qdiv.
    rewrite <- pow2_Z, <- pow2_opp, Z.opp_involutive by lia. reflexivity.
Qed.

(** ** The final division *)

Lemma Z2raw_nz (K : Z) :
  K <> 0 -> Z2raw K = S754_finite (sign_of K) (Z.to_pos (Z.abs K)) 0.
Proof. destruct K; intros H; [exfalso; apply H|..]; reflexivity. Qed.

Lemma Z2raw_value (K : Z) : (SF2Q (Z2raw K) == inject_Z K)%Q.
Proof.
  destruct K; cbn [Z2raw SF2Q smant cond_Zopp]; change (pow2 0) with 1%Q;
    try reflexivity; rewrite Qmult_1_r; reflexivity.
Qed.

Theorem int_truediv_exact (K b z e : Z) :
  K <> 0 -> 0 < b -> repr z e ->
  (inject_Z K == inject_Z z * pow2 e * inject_Z b)%Q ->
  int_truediv K b = Ok (dyadic z e).
Proof.
  intros NK Hb R H. unfold int_truediv.
  destruct (Z.eqb_spec b 0); [lia|].
  pose proof (Z2raw_value K) as VK. pose proof (Z2raw_value b) as Vb.
  rewrite (Z2raw_nz K NK) in *. rewrite (Z2raw_nz b) in * by lia.
  rewrite (dyadic_repr z e R).
  rewrite (fdiv_Q _ _ (sign_of z) _ _ _ _ _ _ (repr_bounded z e R));
    [reflexivity|].
  rewrite VK, Vb, repr_value by assumption. exact H.
Qed.

Lemma int_truediv_0 (b : Z) : 0 < b -> int_truediv 0 b = Ok fzero.
Proof.
  intros Hb. unfold int_truediv. destruct (Z.eqb_spec b 0); [lia|].
  destruct b; try lia. reflexivity.
Qed.

(** A quotient of finite numbers is never NaN. *)
Lemma encode_not_nan (s : bool) (M E : Z) : encode s M E <> S754_nan.
Proof.
  unfold encode.
  destruct (M =? 0); [discriminate|].
  destruct (M =? 2 ^ prec);
    [destruct (E + 1 <=? emax - prec)|destruct (E <=? emax - prec)];
    discriminate.
Qed.

Lemma fdiv_finite_not_nan (x : float) (s : bool) (m : positive) (e : Z) :
  is_finite x = true -> fdiv x (S754_finite s m e) <> S754_nan.
Proof.
  destruct x as [sx|sx| |sx mx ex]; cbn [is_finite]; try discriminate;
    intros _.
  unfold fdiv. rewrite fdiv_spec. apply encode_not_nan.
Qed.

Lemma fle_refl (x : float) : x <> S754_nan -> fle x x = true.
Proof.
  unfold fle, SFleb, SFcompare.
  destruct x as [s|[|]| |[|] m e]; intros H; try reflexivity.
  - exfalso; apply H; reflexivity.
  - rewrite Z.compare_refl, Pos.compare_cont_refl. reflexivity.
  - rewrite Z.compare_refl, Pos.compare_cont_refl. reflexivity.
Qed.

(** ** Order *)

Lemma canonical_exp_lt (m1 m2 : positive) (e1 e2 : Z) :
  bounded prec emax m1 e1 = true -> bounded prec emax m2 e2 = true ->
  e1 < e2 -> Zpos m1 < Zpos m2 * 2 ^ (e2 - e1).
Proof.
  intros H1 H2 Hlt.
  destruct (bounded_inv m1 e1 H1) as (_ & _ & Hm1 & Hmin1).
  destruct (bounded_digits m2 e2 H2) as (_ & [Hd|He]); [|lia].
  pose proof (digits2_pos_bounds m2) as B. rewrite Hd in B.
  change (53 - 1) with 52 in B.
  assert (2 <= 2 ^ (e2 - e1)).
  { change 2 with (2 ^ 1) at 1. apply Z.pow_le_mono_r; lia. }
  change (2 ^ 53) with (2 * 2 ^ 52) in Hm1. nia.
Qed.

Lemma pos_value_lt (m1 m2 : positive) (e1 e2 : Z) :
  bounded prec emax m1 e1 = true -> bounded prec emax m2 e2 = true ->
  e1 < e2 -> (inject_Z (Zpos m1) * pow2 e1 < inject_Z (Zpos m2) * pow2 e2)%Q.
Proof.
  intros H1 H2 Hlt.
  pose proof (canonical_exp_lt m1 m2 e1 e2 H1 H2 Hlt) as H.
  assert (E : (inject_Z (Zpos m2) * pow2 e2
               == inject_Z (Zpos m2 * 2 ^ (e2 - e1)) * pow2 e1)%Q).
  { rewrite inject_Z_mult, <- (pow2_Z (e2 - e1)) by lia.
    rewrite <- Qmult_assoc, <- pow2_add.
    replace (e2 - e1 + e1) with e2 by lia. reflexivity. }
  rewrite E.
  apply Qmult_lt_compat_r; [apply pow2_pos|].
  rewrite <- Zlt_Qlt. exact H.
Qed.

Lemma pos_value_compare (m1 m2 : positive) (e1 e2 : Z) :
  bounded prec emax m1 e1 = true -> bounded prec emax m2 e2 = true ->
  match Z.compare e1 e2 with
  | Lt => Lt
  | Gt => Gt
  | Eq => Pos.compare_cont Eq m1 m2
  end
  = (inject_Z (Zpos m1) * pow2 e1 ?= inject_Z (Zpos m2) * pow2 e2)%Q.
Proof.
  intros H1 H2. symmetry.
  destruct (Z.compare_spec e1 e2) as [E|L|G].
  - subst e2. change (Pos.compare_cont Eq m1 m2) with (Zpos m1 ?= Zpos m2).
    destruct (Z.compare_spec (Zpos m1) (Zpos m2)) as [E|L|G].
    + rewrite E. apply Qeq_alt. reflexivity.
    + apply Qlt_alt. apply Qmult_lt_compat_r; [apply pow2_pos|].
      rewrite <- Zlt_Qlt. exact L.
    + apply Qgt_alt. apply Qmult_lt_compat_r; [apply pow2_pos|].
      rewrite <- Zlt_Qlt. exact G.
  - apply Qlt_alt. apply pos_value_lt; assumption.
  - apply Qgt_alt. apply pos_value_lt; assumption.
Qed.

(** On valid finite numbers [fle] is the order of the values. *)
Theorem fle_Q (x y : float) :
  valid x -> valid y -> is_finite x = true -> is_finite y = true ->
  (SF2Q x <= SF2Q y)%Q -> fle x y = true.
Proof.
  unfold valid, fle, SFleb, SFcompare.
  destruct x as [sx|sx| |sx mx ex]; try discriminate;
    destruct y as [sy|sy| |sy my ey]; try discriminate;
    cbn [valid_binary is_finite SF2Q]; intros Vx Vy _ _ H.
  - reflexivity.
  - destruct sy; [|reflexivity]. exfalso.
    pose proof (pow2_pos ey) as P. unfold smant in H. cbn [cond_Zopp] in H.
    assert (inject_Z (Zneg my) * pow2 ey < 0)%Q; [|apply (Qlt_irrefl 0); eapply Qle_lt_trans; eassumption].
    rewrite <- (Qmult_0_l (pow2 ey)).
    apply Qmult_lt_compat_r; [exact P|]. reflexivity.
  - destruct sx; [reflexivity|]. exfalso.
    pose proof (pow2_pos ex) as P. unfold smant in H. cbn [cond_Zopp] in H.
    assert (0 < inject_Z (Zpos mx) * pow2 ex)%Q; [|apply (Qlt_irrefl 0); eapply Qlt_le_trans; eassumption].
    rewrite <- (Qmult_0_l (pow2 ex)).
    apply Qmult_lt_compat_r; [exact P|]. reflexivity.
  - pose proof (pow2_pos ex) as Px. pose proof (pow2_pos ey) as Py.
    assert (Nx : (inject_Z (Zneg mx) * pow2 ex < 0)%Q).
    { rewrite <- (Qmult_0_l (pow2 ex)).
      apply Qmult_lt_compat_r; [exact Px|]. reflexivity. }
    assert (Ny : (inject_Z (Zneg my) * pow2 ey < 0)%Q).
    { rewrite <- (Qmult_0_l (pow2 ey)).
      apply Qmult_lt_compat_r; [exact Py|]. reflexivity. }
    assert (Ppx : (0 < inject_Z (Zpos mx) * pow2 ex)%Q).
    { rewrite <- (Qmult_0_l (pow2 ex)).
      apply Qmult_lt_compat_r; [exact Px|]. reflexivity. }
    assert (Ppy : (0 < inject_Z (Zpos my) * pow2 ey)%Q).
    { rewrite <- (Qmult_0_l (pow2 ey)).
      apply Qmult_lt_compat_r; [exact Py|]. reflexivity. }
    unfold smant in H.
    destruct sx, sy; cbn [cond_Zopp Z.opp] in H.
    + replace (match ex ?= ey with
               | Eq => CompOpp (Pos.compare_cont Eq mx my)
               | Lt => Gt
               | Gt => Lt
               end)
        with (CompOpp (match ex ?= ey with
                       | Eq => Pos.compare_cont Eq mx my
                       | Lt => Lt
                       | Gt => Gt
                       end))
        by (destruct (ex ?= ey); reflexivity).
      rewrite (pos_value_compare mx my ex ey Vx Vy).
      assert (H' : (inject_Z (Zpos my) * pow2 ey
                    <= inject_Z (Zpos mx) * pow2 ex)%Q).
      { apply Qopp_le_compat in H.
        setoid_replace (- (inject_Z (Zneg my) * pow2 ey))%Q
          with (inject_Z (Zpos my) * pow2 ey)%Q in H
          by (change (Zneg my) with (- Zpos my)%Z; rewrite inject_Z_opp; ring).
        setoid_replace (- (inject_Z (Zneg mx) * pow2 ex))%Q
          with (inject_Z (Zpos mx) * pow2 ex)%Q in H
          by (change (Zneg mx) with (- Zpos mx)%Z; rewrite inject_Z_opp; ring).
        exact H. }
      destruct (Qcompare_spec (inject_Z (Zpos mx) * pow2 ex)
                  (inject_Z (Zpos my) * pow2 ey)) as [E|L|G];
        cbn [CompOpp]; try reflexivity.
      exfalso. apply (Qlt_irrefl (inject_Z (Zpos mx) * pow2 ex)).
      eapply Qlt_le_trans; eassumption.
    + reflexivity.
    + exfalso. apply (Qlt_irrefl 0).
      eapply Qlt_le_trans; [exact Ppx|].
      eapply Qle_trans; [exact H|]. apply Qlt_le_weak. exact Ny.
    + rewrite (pos_value_compare mx my ex ey Vx Vy).
      destruct (Qcompare_spec (inject_Z (Zpos mx) * pow2 ex)
                  (inject_Z (Zpos my) * pow2 ey)) as [E|L|G];
        try reflexivity.
      exfalso. apply (Qlt_irrefl (inject_Z (Zpos mx) * pow2 ex)).
      eapply Qle_lt_trans; eassumption.
Qed.

(** ** The shape of rounded results *)

Lemma rounded_of_range (N D E : Z) :
  0 < D -> emin <= E ->
  0 <= N / D < 2 ^ 53 -> (E = emin \/ 2 ^ 52 <= N / D) ->
  rounded (rne_div N D) E.
Proof.
  intros HD HE Hr Hc. pose proof (rne_div_bounds N D HD) as B.
  unfold rounded. repeat split; lia.
Qed.

Lemma encode_shape (s : bool) (M E : Z) :
  encode s M E = S754_zero s
  \/ (exists m e, encode s M E = S754_finite s m e)
  \/ encode s M E = S754_infinity s.
Proof.
  unfold encode.
  destruct (M =? 0); [left; reflexivity|right].
  destruct (M =? 2 ^ prec);
    [destruct (E + 1 <=? emax - prec)|destruct (E <=? emax - prec)];
    try (right; reflexivity); left; eexists; eexists; reflexivity.
Qed.

Lemma digits_53 (M : Z) : 2 ^ 52 <= M < 2 ^ 53 -> Zdigits2 M = 53.
Proof. intros H. apply Zdigits2_unique; [exact H|lia]. Qed.

Theorem encode_valid (s : bool) (M E : Z) :
  rounded M E -> valid (encode s M E).
Proof.
  intros ((M0 & M1) & HE & Hc). unfold valid, encode.
  destruct (Z.eqb_spec M 0); [reflexivity|].
  change (emax - prec) with 971. change (2 ^ prec) with (2 ^ 53).
  change (2 ^ (prec - 1)) with (2 ^ 52).
  destruct (Z.eqb_spec M (2 ^ 53)).
  - destruct (Z.leb_spec (E + 1) 971); [|reflexivity].
    cbn [valid_binary]. unfold bounded, canonical_mantissa.
    apply andb_true_iff. split; [apply Z.eqb_eq|apply Z.leb_le].
    + replace (Zpos (digits2_pos (Z.to_pos (2 ^ 52)))) with 53
        by reflexivity.
      rewrite fexp_eq. lia.
    + change (emax - prec) with 971. lia.
  - destruct (Z.leb_spec E 971); [|reflexivity].
    cbn [valid_binary]. unfold bounded, canonical_mantissa.
    apply andb_true_iff. split; [apply Z.eqb_eq|apply Z.leb_le].
    + change (Zpos (digits2_pos (Z.to_pos M)))
        with (Zdigits2 (Zpos (Z.to_pos M))).
      rewrite Z2Pos.id by lia. rewrite fexp_eq.
      destruct Hc as [Hc|Hc].
      * pose proof (Zdigits2_lt_pow2 M 53 ltac:(lia) ltac:(lia)). lia.
      * rewrite digits_53 by lia. lia.
    + change (emax - prec) with 971. lia.
Qed.

(** The value of a rounded result that does not overflow. *)
Lemma encode_value (s : bool) (M E : Z) :
  rounded M E -> is_finite (encode s M E) = true ->
  (SF2Q (encode s M E) == inject_Z (cond_Zopp s M) * pow2 E)%Q.
Proof.
  intros ((M0 & M1) & HE & Hc). unfold encode.
  change (2 ^ prec) with (2 ^ 53). change (2 ^ (prec - 1)) with (2 ^ 52).
  destruct (Z.eqb_spec M 0) as [->|NM].
  - intros _. cbn [SF2Q].
    destruct s; cbn [cond_Zopp Z.opp]; rewrite Qmult_0_l; reflexivity.
  - destruct (Z.eqb_spec M (2 ^ 53)) as [->|N53].
    + destruct (E + 1 <=? emax - prec); [intros _|discriminate].
      cbn [SF2Q]. rewrite pow2_add.
      replace (cond_Zopp s (2 ^ 53))
        with (smant s (Z.to_pos (2 ^ 52)) * 2)
        by (destruct s; reflexivity).
      rewrite inject_Z_mult.
      setoid_replace (pow2 1) with (inject_Z 2) by reflexivity. ring.
    + destruct (E <=? emax - prec); [intros _|discriminate].
      cbn [SF2Q]. unfold smant. rewrite Z2Pos.id by lia. reflexivity.
Qed.

Theorem fdiv_rounded (sx sy : bool) (mx my : positive) (ex ey : Z) :
  exists M E,
    fdiv (S754_finite sx mx ex) (S754_finite sy my ey)
    = encode (xorb sx sy) M E
    /\ rounded M E.
Proof.
  unfold fdiv. rewrite fdiv_spec.
  pose proof (fdiv_range mx my ex ey) as (HD & HN & HE & _ & _ & Hr & Hc).
  eexists. eexists. split; [reflexivity|].
  apply rounded_of_range; assumption.
Qed.

Lemma fmul_enough (mx my : positive) (ex ey : Z) :
  bounded prec emax mx ex = true ->
  bounded prec emax my ey = true ->
  ex + ey <= fexp prec emax (Zdigits2 (Zpos mx * Zpos my) + (ex + ey)).
Proof.
  intros Hx Hy.
  destruct (bounded_digits mx ex Hx) as (Hdx & Hcx).
  destruct (bounded_digits my ey Hy) as (Hdy & Hcy).
  destruct (bounded_inv mx ex Hx) as (_ & _ & _ & Hminx).
  destruct (bounded_inv my ey Hy) as (_ & _ & _ & Hminy).
  pose proof (Zdigits2_mul_le (Zpos mx) (Zpos my) ltac:(lia) ltac:(lia))
    as [Hlo _]. cbn [Zdigits2] in Hlo.
  pose proof (Pos2Z.is_pos (digits2_pos mx)).
  pose proof (Pos2Z.is_pos (digits2_pos my)).
  rewrite fexp_eq.
  change (Zdigits2 (Zpos mx * Zpos my)) with (Zdigits2 (Zpos (mx * my))) in *.
  cbn [Zdigits2] in *. unfold emin in *. lia.
Qed.

Theorem fmul_rounded (sx sy : bool) (mx my : positive) (ex ey : Z) :
  bounded prec emax mx ex = true ->
  bounded prec emax my ey = true ->
  exists M E,
    fmul (S754_finite sx mx ex) (S754_finite sy my ey)
    = encode (xorb sx sy) M E
    /\ rounded M E.
Proof.
  intros Hx Hy. unfold fmul, SFmul.
  pose proof (fmul_enough mx my ex ey Hx Hy) as He.
  pose proof (bra_spec (xorb sx sy) (Zpos (mx * my)) 1 (ex + ey)
                ltac:(lia) ltac:(lia)) as H.
  pose proof (bra_range (Zpos (mx * my)) 1 (ex + ey)
                ltac:(lia) ltac:(lia)) as R.
  rewrite Z.div_1_r, loc_of_1 in H. rewrite Z.div_1_r in R.
  change (Zpos (mx * my)) with (Zpos mx * Zpos my) in *.
  rewrite H by assumption. specialize (R He). destruct R as [R1 R2].
  eexists. eexists. split; [reflexivity|].
  apply rounded_of_range; try assumption.
  - assert (0 < 2 ^ (fexp prec emax (Zdigits2 (Zpos mx * Zpos my) + (ex + ey))
                     - (ex + ey))) by (apply Z.pow_pos_nonneg; lia).
    lia.
  - apply fexp_ge_emin.
Qed.

Theorem binary_round_rounded (s : bool) (m : positive) (e : Z) :
  exists M E, binary_round prec emax s m e = encode s M E /\ rounded M E
              /\ (M = 0 -> Zpos (digits2_pos m) + e <= emin).
Proof.
  rewrite binary_round_spec.
  set (E := fexp prec emax (Zpos (digits2_pos m) + e)).
  set (N := Zpos m * 2 ^ Z.max (e - E) 0).
  set (D := 2 ^ Z.max (E - e) 0).
  assert (HD : 0 < D) by (apply Z.pow_pos_nonneg; lia).
  assert (PN : 0 < 2 ^ Z.max (e - E) 0) by (apply Z.pow_pos_nonneg; lia).
  assert (HE : emin <= E) by apply fexp_ge_emin.
  pose proof (digits2_pos_bounds m) as Bm.
  pose proof (Pos2Z.is_pos (digits2_pos m)) as Pd.
  assert (HEe : E = Z.max (Zpos (digits2_pos m) + e - 53) emin)
    by apply fexp_eq.
  assert (Hup : N / D < 2 ^ 53).
  { apply Z.div_lt_upper_bound; [assumption|]. unfold N, D.
    destruct (Z_le_gt_dec E e).
    - replace (Z.max (e - E) 0) with (e - E) by lia.
      replace (Z.max (E - e) 0) with 0 by lia.
      change (2 ^ 0) with 1. rewrite Z.mul_1_l.
      assert (2 ^ Zpos (digits2_pos m) * 2 ^ (e - E) <= 2 ^ 53).
      { rewrite <- Z.pow_add_r by lia. apply Z.pow_le_mono_r; lia. }
      nia.
    - replace (Z.max (e - E) 0) with 0 by lia.
      replace (Z.max (E - e) 0) with (E - e) by lia.
      change (2 ^ 0) with 1. rewrite Z.mul_1_r.
      assert (2 ^ Zpos (digits2_pos m) <= 2 ^ (E - e) * 2 ^ 53).
      { rewrite <- Z.pow_add_r by lia. apply Z.pow_le_mono_r; lia. }
      lia. }
  assert (Hlo : E = emin \/ 2 ^ 52 <= N / D).
  { destruct (Z.eq_dec E emin); [left; assumption|right].
    apply Z.div_le_lower_bound; [assumption|]. unfold N, D.
    destruct (Z_le_gt_dec E e).
    - replace (Z.max (e - E) 0) with (e - E) by lia.
      replace (Z.max (E - e) 0) with 0 by lia.
      change (2 ^ 0) with 1. rewrite Z.mul_1_l.
      assert (2 ^ 52 <= 2 ^ (Zpos (digits2_pos m) - 1) * 2 ^ (e - E)).
      { rewrite <- Z.pow_add_r by lia. apply Z.pow_le_mono_r; lia. }
      nia.
    - replace (Z.max (e - E) 0) with 0 by lia.
      replace (Z.max (E - e) 0) with (E - e) by lia.
      change (2 ^ 0) with 1. rewrite Z.mul_1_r.
      assert (2 ^ (E - e) * 2 ^ 52 <= 2 ^ (Zpos (digits2_pos m) - 1)).
      { rewrite <- Z.pow_add_r by lia. apply Z.pow_le_mono_r; lia. }
      lia. }
  assert (H0 : 0 <= N / D) by (apply Z.div_pos; unfold N; nia).
  exists (rne_div N D), E. split; [reflexivity|]. split.
  - apply rounded_of_range; try assumption. lia.
  - intros HM. pose proof (rne_div_bounds N D HD) as B.
    destruct Hlo as [Hlo|Hlo]; [|lia].
    destruct (Z_le_gt_dec E e) as [C|C].
    2:{ pose proof (rne_div_nearest N D HD) as Nr. rewrite HM in Nr.
        unfold N, D in Nr.
        replace (Z.max (e - E) 0) with 0 in Nr by lia.
        replace (Z.max (E - e) 0) with (E - e) in Nr by lia.
        change (2 ^ 0) with 1 in Nr.
        destruct (Z_le_gt_dec (Zpos (digits2_pos m)) (E - e)); [lia|].
        exfalso.
        assert (2 ^ (E - e) <= 2 ^ (Zpos (digits2_pos m) - 1))
          by (apply Z.pow_le_mono_r; lia).
        lia. }
    exfalso. rewrite HM in B. unfold N, D in B.
    replace (Z.max (e - E) 0) with (e - E) in B by lia.
    replace (Z.max (E - e) 0) with 0 in B by lia.
    change (2 ^ 0) with 1 in B. rewrite Z.div_1_r in B.
    assert (0 < 2 ^ (e - E)) by (apply Z.pow_pos_nonneg; lia).
    nia.
Qed.

(** ** The quotient is a nearest representable number *)

Section DivisionNearest.

Variables (sx sy : bool) (mx my : positive) (ex ey : Z).

Let e' := Z.min (fexp prec emax (Zpos (digits2_pos mx) + ex
                                 - (Zpos (digits2_pos my) + ey)))
                (ex - ey).
Let N := Zpos mx * 2 ^ (ex - ey - e').
Let E := fexp prec emax (Zdigits2 (N / Zpos my) + e').
Let D := Zpos my * 2 ^ (E - e').
Let X : Q := (inject_Z (Zpos mx) * pow2 ex)%Q.
Let Y : Q := (inject_Z (Zpos my) * pow2 ey)%Q.

Lemma div_scale_N : (inject_Z N * pow2 (ey + e') == X)%Q.
Proof.
  assert (R : 0 < D /\ 0 <= N /\ emin <= E /\ e' <= E /\ e' <= ex - ey
              /\ 0 <= N / D < 2 ^ 53 /\ (E = emin \/ 2 ^ 52 <= N / D))
    by exact (fdiv_range mx my ex ey).
  destruct R as (_ & _ & _ & _ & He' & _).
  unfold N, X. rewrite inject_Z_mult, <- pow2_Z by lia.
  rewrite <- Qmult_assoc, <- pow2_add.
  replace (ex - ey - e' + (ey + e')) with ex by lia. reflexivity.
Qed.

Lemma div_scale_D : (inject_Z D * pow2 (ey + e') == pow2 E * Y)%Q.
Proof.
  assert (R : 0 < D /\ 0 <= N /\ emin <= E /\ e' <= E /\ e' <= ex - ey
              /\ 0 <= N / D < 2 ^ 53 /\ (E = emin \/ 2 ^ 52 <= N / D))
    by exact (fdiv_range mx my ex ey).
  destruct R as (_ & _ & _ & He & _).
  unfold D, Y. rewrite inject_Z_mult, <- pow2_Z by lia.
  rewrite <- Qmult_assoc, <- pow2_add.
  replace (E - e' + (ey + e')) with (E + ey) by lia.
  rewrite pow2_add. ring.
Qed.

Theorem fdiv_nearest :
  exists M E0,
    fdiv (S754_finite sx mx ex) (S754_finite sy my ey)
    = encode (xorb sx sy) M E0
    /\ rounded M E0
    /\ (inject_Z (2 * M) * (pow2 E0 * Y) <= inject_Z 2 * X + pow2 E0 * Y)%Q
    /\ (inject_Z 2 * X - pow2 E0 * Y <= inject_Z (2 * M) * (pow2 E0 * Y))%Q
    /\ (E0 = emin \/ (inject_Z (2 ^ 52) * (pow2 E0 * Y) <= X)%Q).
Proof.
  assert (R : 0 < D /\ 0 <= N /\ emin <= E /\ e' <= E /\ e' <= ex - ey
              /\ 0 <= N / D < 2 ^ 53 /\ (E = emin \/ 2 ^ 52 <= N / D))
    by exact (fdiv_range mx my ex ey).
  destruct R as (HD & HN & HE & He & He' & Hr & Hc).
  assert (S : fdiv (S754_finite sx mx ex) (S754_finite sy my ey)
              = encode (xorb sx sy) (rne_div N D) E)
    by exact (fdiv_spec sx sy mx my ex ey).
  exists (rne_div N D), E. split; [exact S|].
  split; [apply rounded_of_range; assumption|].
  pose proof (pow2_pos (ey + e')) as Pt.
  pose proof div_scale_N as SN. pose proof div_scale_D as SD.
  pose proof (rne_div_nearest N D HD) as Nr.
  rewrite <- SN, <- SD.
  assert (Sc : forall a b : Z, a <= b ->
            (inject_Z a * pow2 (ey + e') <= inject_Z b * pow2 (ey + e'))%Q).
  { intros a b Hab. apply Qmult_le_compat_r;
      [rewrite <- Zle_Qle; exact Hab|apply Qlt_le_weak; exact Pt]. }
  split; [|split].
  - setoid_replace (inject_Z (2 * rne_div N D)
                    * (inject_Z D * pow2 (ey + e')))%Q
      with (inject_Z (2 * rne_div N D * D) * pow2 (ey + e'))%Q
      by (rewrite !inject_Z_mult; ring).
    setoid_replace (inject_Z 2 * (inject_Z N * pow2 (ey + e'))
                    + inject_Z D * pow2 (ey + e'))%Q
      with (inject_Z (2 * N + D) * pow2 (ey + e'))%Q
      by (rewrite inject_Z_plus, inject_Z_mult; ring).
    apply Sc. lia.
  - setoid_replace (inject_Z (2 * rne_div N D)
                    * (inject_Z D * pow2 (ey + e')))%Q
      with (inject_Z (2 * rne_div N D * D) * pow2 (ey + e'))%Q
      by (rewrite !inject_Z_mult; ring).
    setoid_replace (inject_Z 2 * (inject_Z N * pow2 (ey + e'))
                    - inject_Z D * pow2 (ey + e'))%Q
      with (inject_Z (2 * N - D) * pow2 (ey + e'))%Q
      by (unfold Z.sub; rewrite inject_Z_plus, inject_Z_mult, inject_Z_opp;
          ring).
    apply Sc. lia.
  - destruct Hc as [Hc|Hc]; [left; exact Hc|right].
    setoid_replace (inject_Z (2 ^ 52) * (inject_Z D * pow2 (ey + e')))%Q
      with (inject_Z (2 ^ 52 * D) * pow2 (ey + e'))%Q
      by (rewrite inject_Z_mult; ring).
    apply Sc.
    pose proof (Z.mul_div_le N D HD). nia.
Qed.

End DivisionNearest.

(** ** Every result is a valid float *)

Lemma valid_fdiv (x y : float) : valid (fdiv x y).
Proof.
  destruct x as [sx|sx| |sx mx ex]; destruct y as [sy|sy| |sy my ey];
    try reflexivity.
  destruct (fdiv_rounded sx sy mx my ex ey) as (M & E & -> & R).
  apply encode_valid; assumption.
Qed.

Lemma valid_fmul (x y : float) : valid x -> valid y -> valid (fmul x y).
Proof.
  destruct x as [sx|sx| |sx mx ex]; destruct y as [sy|sy| |sy my ey];
    try reflexivity.
  intros Vx Vy.
  destruct (fmul_rounded sx sy mx my ex ey Vx Vy) as (M & E & -> & R).
  apply encode_valid; assumption.
Qed.

Lemma valid_dyadic (z e : Z) : valid (dyadic z e).
Proof.
  unfold dyadic. destruct z as [|p|p]; [reflexivity| |];
    cbn [binary_normalize];
    [destruct (binary_round_rounded false p e) as (M & E & -> & R & _)
    |destruct (binary_round_rounded true p e) as (M & E & -> & R & _)];
    apply encode_valid; assumption.
Qed.

Lemma valid_to_float (a : num) (f : float) :
  (forall g, a = Float g -> valid g) -> to_float a = Ok f -> valid f.
Proof.
  destruct a as [z|g]; cbn [to_float]; intros Hv H.
  - unfold float_of_int in H.
    pose proof (valid_dyadic z 0) as V. change (dyadic z 0) with (Z2SF z) in V.
    destruct (Z2SF z); try discriminate; injection H as <-; exact V.
  - injection H as <-. apply Hv. reflexivity.
Qed.

(** ** The range of the conversion of an int to a float *)

(** The largest finite binary64 number is [2^1024 - 2^971]; an int rounds
    to it, or below it, exactly when it is below [2^1024 - 2^970]. *)
Lemma round_int_range (s : bool) (p : positive) :
  (Zpos p < 2 ^ 1024 - 2 ^ 970 ->
   forall s', binary_round prec emax s p 0 <> S754_infinity s')
  /\ (2 ^ 1024 - 2 ^ 970 <= Zpos p ->
      binary_round prec emax s p 0 = S754_infinity s).
Proof.
  rewrite binary_round_spec. rewrite fexp_eq.
  pose proof (digits2_pos_bounds p) as Bp.
  set (d := Zpos (digits2_pos p)) in *.
  assert (Hd : 0 < d) by (unfold d; lia).
  replace (d + 0) with d by lia. unfold emin.
  split.
  - intros Hlt s'.
    assert (Hd24 : d <= 1024).
    { destruct (Z_le_gt_dec d 1024); [assumption|].
      assert (2 ^ 1024 <= 2 ^ (d - 1)) by (apply Z.pow_le_mono_r; lia).
      lia. }
    destruct (Z_le_gt_dec d 1023) as [L|G].
    + set (E := Z.max (d - 53) (-1074)).
      assert (HE : E <= 970) by (unfold E; lia).
      generalize (rne_div (Zpos p * 2 ^ Z.max (0 - E) 0)
                    (2 ^ Z.max (E - 0) 0)).
      intros M. unfold encode, emax, prec.
      destruct (M =? 0); [discriminate|].
      destruct (M =? 2 ^ 53).
      * destruct (Z.leb_spec (E + 1) (1024 - 53)); [discriminate|lia].
      * destruct (Z.leb_spec E (1024 - 53)); [discriminate|lia].
    + assert (Ed : d = 1024) by lia. rewrite Ed in *.
      change (Z.max (1024 - 53) (-1074)) with 971.
      change (Z.max (0 - 971) 0) with 0. change (Z.max (971 - 0) 0) with 971.
      change (2 ^ 0) with 1. rewrite Z.mul_1_r.
      set (D := 2 ^ 971).
      assert (HD : 0 < D) by (unfold D; apply Z.pow_pos_nonneg; lia).
      assert (H24 : 2 ^ 1024 = 2 ^ 53 * D)
        by (unfold D; rewrite <- Z.pow_add_r by lia; reflexivity).
      assert (H70 : D = 2 * 2 ^ 970)
        by (unfold D; change 971 with (1 + 970);
            rewrite Z.pow_add_r by lia; reflexivity).
      pose proof (Z.div_mod (Zpos p) D ltac:(lia)) as DM.
      pose proof (Z.mod_pos_bound (Zpos p) D HD) as MB.
      assert (Hq : Zpos p / D <= 2 ^ 53 - 1).
      { assert (Zpos p / D < 2 ^ 53); [|lia].
        apply Z.div_lt_upper_bound; [exact HD|]. lia. }
      assert (Hq0 : 0 <= Zpos p / D) by (apply Z.div_pos; lia).
      assert (HM : 0 < rne_div (Zpos p) D < 2 ^ 53).
      { unfold rne_div.
        assert (Q52 : 2 ^ 52 <= Zpos p / D).
        { apply Z.div_le_lower_bound; [exact HD|].
          replace (D * 2 ^ 52) with (2 ^ (1024 - 1));
            [lia|unfold D; rewrite <- Z.pow_add_r by lia; reflexivity]. }
        assert (P52 : 0 < 2 ^ 52) by (apply Z.pow_pos_nonneg; lia).
        destruct (Z.eq_dec (Zpos p / D) (2 ^ 53 - 1)) as [Eq|Ne].
        - assert (Hr : 2 * (Zpos p mod D) < D) by nia.
          apply Z.compare_lt_iff in Hr. rewrite Hr. lia.
        - destruct (2 * (Zpos p mod D) ?= D);
            [destruct (Z.even (Zpos p / D))| |]; lia. }
      unfold encode, emax, prec.
      destruct (Z.eqb_spec (rne_div (Zpos p) D) 0); [lia|].
      destruct (Z.eqb_spec (rne_div (Zpos p) D) (2 ^ 53)); [lia|].
      discriminate.
  - intros Hge.
    assert (H23 : 2 ^ 1023 <= 2 ^ 1024 - 2 ^ 970).
    { change 1024 with (1 + 1023). rewrite Z.pow_add_r by lia.
      assert (2 ^ 970 <= 2 ^ 1023) by (apply Z.pow_le_mono_r; lia).
      change (2 ^ 1) with 2. lia. }
    assert (Hd24 : 1024 <= d).
    { destruct (Z_le_gt_dec 1024 d); [assumption|].
      assert (2 ^ d <= 2 ^ 1023) by (apply Z.pow_le_mono_r; lia).
      lia. }
    replace (Z.max (d - 53) (-1074)) with (d - 53) by lia.
    replace (Z.max (0 - (d - 53)) 0) with 0 by lia.
    replace (Z.max (d - 53 - 0) 0) with (d - 53) by lia.
    change (2 ^ 0) with 1. rewrite Z.mul_1_r.
    set (D := 2 ^ (d - 53)).
    assert (HD : 0 < D) by (unfold D; apply Z.pow_pos_nonneg; lia).
    assert (Q52 : 2 ^ 52 <= Zpos p / D).
    { apply Z.div_le_lower_bound; [exact HD|].
      replace (D * 2 ^ 52) with (2 ^ (d - 1));
        [lia|unfold D; rewrite <- Z.pow_add_r by lia; f_equal; lia]. }
    assert (P52 : 0 < 2 ^ 52) by (apply Z.pow_pos_nonneg; lia).
    pose proof (rne_div_bounds (Zpos p) D HD) as RB.
    destruct (Z_le_gt_dec 1025 d) as [L|G].
    + unfold encode, emax, prec.
      destruct (Z.eqb_spec (rne_div (Zpos p) D) 0); [lia|].
      destruct (rne_div (Zpos p) D =? 2 ^ 53).
      * destruct (Z.leb_spec (d - 53 + 1) (1024 - 53)); [lia|reflexivity].
      * destruct (Z.leb_spec (d - 53) (1024 - 53)); [lia|reflexivity].
    + assert (Ed : d = 1024) by lia. unfold D in *. rewrite Ed in *.
      change (1024 - 53) with 971 in *. clear D. set (D := 2 ^ 971) in *.
      assert (H24 : 2 ^ 1024 = 2 ^ 53 * D)
        by (unfold D; rewrite <- Z.pow_add_r by lia; reflexivity).
      assert (H70 : D = 2 * 2 ^ 970)
        by (unfold D; change 971 with (1 + 970);
            rewrite Z.pow_add_r by lia; reflexivity).
      pose proof (Z.div_mod (Zpos p) D ltac:(lia)) as DM.
      pose proof (Z.mod_pos_bound (Zpos p) D HD) as MB.
      assert (Hq : Zpos p / D <= 2 ^ 53 - 1).
      { assert (Zpos p / D < 2 ^ 53); [|lia].
        apply Z.div_lt_upper_bound; [exact HD|]. lia. }
      assert (Eq : Zpos p / D = 2 ^ 53 - 1) by nia.
      assert (Hr : D <= 2 * (Zpos p mod D)) by nia.
      assert (HM : rne_div (Zpos p) D = 2 ^ 53).
      { unfold rne_div. rewrite Eq.
        destruct (2 * (Zpos p mod D) ?= D) eqn:C.
        - reflexivity.
        - change (2 * (Zpos p mod D) < D) in C. clearbody D. lia.
        - lia. }
      rewrite HM. reflexivity.
Qed.

Lemma float_of_int_range (z : Z) :
  (Z.abs z < 2 ^ 1024 - 2 ^ 970 -> float_of_int z = Ok (Z2SF z))
  /\ (2 ^ 1024 - 2 ^ 970 <= Z.abs z -> float_of_int z = Raise OverflowError).
Proof.
  assert (P : 0 < 2 ^ 1024 - 2 ^ 970).
  { change 1024 with (54 + 970). rewrite Z.pow_add_r by lia.
    assert (0 < 2 ^ 970) by (apply Z.pow_pos_nonneg; lia).
    assert (2 <= 2 ^ 54) by (change 2 with (2 ^ 1) at 1;
                             apply Z.pow_le_mono_r; lia).
    nia. }
  unfold float_of_int. destruct z as [|p|p].
  - split; [reflexivity|]. cbn [Z.abs]. lia.
  - change (Z2SF (Zpos p)) with (binary_round prec emax false p 0).
    cbn [Z.abs]. destruct (round_int_range false p) as [A B]. split.
    + intros H. specialize (A H).
      destruct (binary_round prec emax false p 0); try reflexivity.
      exfalso. apply (A s). reflexivity.
    + intros H. rewrite (B H). reflexivity.
  - change (Z2SF (Zneg p)) with (binary_round prec emax true p 0).
    cbn [Z.abs]. destruct (round_int_range true p) as [A B]. split.
    + intros H. specialize (A H).
      destruct (binary_round prec emax true p 0); try reflexivity.
      exfalso. apply (A s). reflexivity.
    + intros H. rewrite (B H). reflexivity.
Qed.

(** ** The power [2 ** e] *)

Lemma py_pow2_value (e : Z) (pw : num) :
  py_pow2 e = Ok pw -> pw = pow2_num e.
Proof.
  unfold py_pow2, pow2_num. destruct (0 <=? e).
  - intros H. injection H as <-. reflexivity.
  - destruct (float_of_int e); [|discriminate].
    cbn [bind]. intros H. injection H as <-. reflexivity.
Qed.

Lemma py_pow2_total (e : Z) :
  - (2 ^ 1024 - 2 ^ 970) < e -> py_pow2 e = Ok (pow2_num e).
Proof.
  intros H. unfold py_pow2, pow2_num.
  destruct (Z.leb_spec 0 e); [reflexivity|].
  rewrite (proj1 (float_of_int_range e)) by lia. reflexivity.
Qed.

Lemma py_pow2_overflow (e : Z) :
  e <= - (2 ^ 1024 - 2 ^ 970) -> py_pow2 e = Raise OverflowError.
Proof.
  intros H.
  assert (P : 0 < 2 ^ 1024 - 2 ^ 970).
  { change 1024 with (54 + 970). rewrite Z.pow_add_r by lia.
    assert (0 < 2 ^ 970) by (apply Z.pow_pos_nonneg; lia).
    assert (2 <= 2 ^ 54) by (change 2 with (2 ^ 1) at 1;
                             apply Z.pow_le_mono_r; lia).
    nia. }
  unfold py_pow2. destruct (Z.leb_spec 0 e); [lia|].
  rewrite (proj2 (float_of_int_range e)) by lia. reflexivity.
Qed.

(** Within the binary64 exponents [2 ** e] is always computed. *)
Lemma py_pow2_ok (e : Z) : - 2 ^ 1023 < e -> py_pow2 e = Ok (pow2_num e).
Proof.
  intros H. apply py_pow2_total.
  assert (2 ^ 1023 <= 2 ^ 1024 - 2 ^ 970); [|lia].
  change 1024 with (1 + 1023). rewrite Z.pow_add_r by lia.
  assert (2 ^ 970 <= 2 ^ 1023) by (apply Z.pow_le_mono_r; lia).
  change (2 ^ 1) with 2. lia.
Qed.

(** ** The loop *)

Lemma foldM_app {A S : Type} (f : S -> A -> res S) (l1 l2 : list A) (s : S) :
  foldM f (l1 ++ l2) s = (s' <- foldM f l1 s ;; foldM f l2 s').
Proof.
  revert s. induction l1 as [|a l1 IH]; intros s; cbn [foldM app bind].
  - reflexivity.
  - destruct (f s a) as [s1|e]; cbn [bind]; [apply IH|reflexivity].
Qed.

Lemma run_snoc (p : list Z) (x n : Z) (mr : bool) (eb : Z) :
  run (p ++ [x]) n mr eb = (st <- run p n mr eb ;; body n mr eb st x).
Proof.
  unfold run. destruct (init n) as [st0|e]; cbn [bind]; [|reflexivity].
  rewrite foldM_app.
  destruct (foldM (body n mr eb) p st0) as [st|e]; cbn [bind foldM];
    [|reflexivity].
  destruct (body n mr eb st x); reflexivity.
Qed.

Lemma init_ok (n : Z) :
  0 <= n ->
  init n = Ok (mkState (repeat (Float fzero) (Z.to_nat n)) (Int 0) []).
Proof.
  intros H. unfold init, np_zeros, np_full.
  destruct (Z.ltb_spec n 0); [lia|reflexivity].
Qed.

Lemma deque_pop_snoc {A : Type} (d : list A) (x : A) :
  deque_pop (d ++ [x]) = Ok (x, d).
Proof.
  unfold deque_pop. rewrite rev_app_distr. cbn [rev app].
  rewrite rev_involutive. reflexivity.
Qed.

Lemma deque_pop_length {A : Type} (d r : list A) (x : A) :
  deque_pop d = Ok (x, r) -> length d = S (length r).
Proof.
  unfold deque_pop. intros H.
  destruct (rev d) as [|y t] eqn:E; [discriminate|].
  injection H as -> <-.
  rewrite <- (rev_involutive d), E. cbn [rev].
  rewrite length_app, !length_rev. cbn [length]. lia.
Qed.

(** Popping one cell and pushing one keeps the register length. *)
Lemma update_length (st st1 : state) (s : Z) :
  update st s = Ok st1 -> length (sreg st1) = length (sreg st).
Proof.
  unfold update. intros H.
  destruct (deque_pop (sreg st)) as [[old rest]|e] eqn:P; [|discriminate].
  cbn [bind] in H.
  destruct (py_sub (Int s) old) as [d|e]; [|discriminate]. cbn [bind] in H.
  destruct (py_add (acc st) d) as [a|e]; [|discriminate]. cbn [bind] in H.
  injection H as <-. cbn [sreg deque_appendleft length].
  symmetry. apply (deque_pop_length _ _ _ P).
Qed.

Lemma body_length (n : Z) (mr : bool) (eb : Z) (st st' : state) (s : Z) :
  body n mr eb st s = Ok st' -> length (sreg st') = length (sreg st).
Proof.
  unfold body. intros H.
  destruct (update st s) as [st1|e] eqn:U; [|discriminate]. cbn [bind] in H.
  destruct (value_of mr (acc st1) n eb) as [v|e]; [|discriminate].
  cbn [bind] in H. injection H as <-. cbn [sreg].
  apply (update_length _ _ _ U).
Qed.

Lemma foldM_body_length (n : Z) (mr : bool) (eb : Z) (l : list Z) :
  forall st st', foldM (body n mr eb) l st = Ok st' ->
                 length (sreg st') = length (sreg st).
Proof.
  induction l as [|a l IH]; intros st st' H; cbn [foldM] in H.
  - injection H as <-. reflexivity.
  - destruct (body n mr eb st a) as [s1|e] eqn:B; [|discriminate].
    cbn [bind] in H. rewrite (IH _ _ H). apply (body_length _ _ _ _ _ _ B).
Qed.

Theorem run_length (p : list Z) (n : Z) (mr : bool) (eb : Z) (st : state) :
  run p n mr eb = Ok st -> length (sreg st) = Z.to_nat n.
Proof.
  unfold run, init, np_zeros, np_full. intros H.
  destruct (Z.ltb_spec n 0); [discriminate|]. cbn [bind] in H.
  rewrite (foldM_body_length _ _ _ _ _ _ H). cbn [sreg].
  apply repeat_length.
Qed.

(** ** [moving_integrator]: results and errors *)

Section ReferenceFacts.

Variable T : Type.
Variable tzero : T.
Variable tadd tmul : T -> T -> T.
Variable recip : Z -> T.

Lemma np_convolve_length (a v : list T) :
  a <> [] -> v <> [] ->
  exists out, np_convolve T tzero tadd tmul a v = Ok out
              /\ length out = (length a + length v - 1)%nat.
Proof.
  intros Ha Hv. unfold np_convolve.
  destruct (length a <? length v)%nat.
  - destruct v as [|y v']; [contradiction|].
    destruct a as [|x a']; [contradiction|].
    eexists; split; [reflexivity|].
    rewrite length_map, length_seq. lia.
  - destruct a as [|x a']; [contradiction|].
    destruct v as [|y v']; [contradiction|].
    eexists; split; [reflexivity|].
    rewrite length_map, length_seq. reflexivity.
Qed.

Lemma np_convolve_empty_l (v : list T) :
  np_convolve T tzero tadd tmul [] v = Raise ValueError.
Proof. unfold np_convolve. destruct v as [|y v']; reflexivity. Qed.

Lemma np_convolve_empty_r (a : list T) :
  np_convolve T tzero tadd tmul a [] = Raise ValueError.
Proof. unfold np_convolve. destruct a as [|x a']; reflexivity. Qed.

End ReferenceFacts.

(** ** The samples of the reference as binary64 numbers *)

(** Every int of at most 53 bits is within the range. *)
Lemma Z2SF_range (x : Z) :
  (Z.abs x < 2 ^ 53 -> Z.abs x < 2 ^ 1024 - 2 ^ 970)
  /\ 0 < 2 ^ 1024 - 2 ^ 970.
Proof.
  assert (2 ^ 53 <= 2 ^ 1024 - 2 ^ 970); [|split; lia].
  change 1024 with (54 + 970). rewrite Z.pow_add_r by lia.
  assert (2 ^ 53 <= 2 ^ 970) by (apply Z.pow_le_mono_r; lia).
  assert (2 <= 2 ^ 54) by (change 2 with (2 ^ 1) at 1;
                           apply Z.pow_le_mono_r; lia).
  nia.
Qed.

Lemma mapM_float_ok (samples : list Z) :
  Forall (fun x => Z.abs x < 2 ^ 1024 - 2 ^ 970) samples ->
  mapM float_of_int samples = Ok (map Z2SF samples).
Proof.
  induction 1 as [|x l Hx _ IH]; cbn [mapM map]; [reflexivity|].
  rewrite (proj1 (float_of_int_range x) Hx), IH. reflexivity.
Qed.

Lemma mapM_float_overflow (samples : list Z) :
  Exists (fun x => 2 ^ 1024 - 2 ^ 970 <= Z.abs x) samples ->
  mapM float_of_int samples = Raise OverflowError.
Proof.
  induction 1 as [x l Hx|x l _ IH]; cbn [mapM].
  - rewrite (proj2 (float_of_int_range x) Hx). reflexivity.
  - unfold float_of_int at 1.
    destruct (Z2SF x); cbn [bind]; try reflexivity; rewrite IH; reflexivity.
Qed.

(** On samples within the binary64 range the reference is the generic
    one on their conversions. *)
Lemma moving_integrator64_floats (samples : list Z) (n : Z) (trim : bool) :
  Forall (fun x => Z.abs x < 2 ^ 1024 - 2 ^ 970) samples ->
  moving_integrator64 samples n trim
  = moving_integrator float fzero fadd fmul
      (fun n => fdiv (Z2SF 1) (Z2SF n)) (map Z2SF samples) n trim.
Proof.
  intros H. unfold moving_integrator64, moving_integrator.
  destruct (np_full (fdiv (Z2SF 1) (Z2SF n)) n) as [ones|]; [|reflexivity].
  cbn [bind]. destruct samples as [|x l].
  - cbn [map]. rewrite np_convolve_empty_l. reflexivity.
  - destruct ones as [|o ones].
    + rewrite np_convolve_empty_r. reflexivity.
    + rewrite (mapM_float_ok (x :: l) H). cbn [bind].
      rewrite length_map. reflexivity.
Qed.

(** With a sample beyond the binary64 range, a non-empty kernel meets it
    and the conversion raises. *)
Lemma moving_integrator64_overflow (samples : list Z) (n : Z) (trim : bool) :
  1 <= n ->
  Exists (fun x => 2 ^ 1024 - 2 ^ 970 <= Z.abs x) samples ->
  moving_integrator64 samples n trim = Raise OverflowError.
Proof.
  intros Hn H. unfold moving_integrator64, np_full.
  destruct (Z.ltb_spec n 0); [lia|]. cbn [bind].
  destruct samples as [|x l]; [inversion H|].
  destruct (Z.to_nat n) as [|k] eqn:E; [lia|]. cbn [repeat].
  rewrite (mapM_float_overflow (x :: l) H). reflexivity.
Qed.

(** ** The accumulator on bounded samples *)

Lemma firstn_S_nth {A : Type} (d : A) (k : nat) :
  forall l : list A, (k < length l)%nat ->
    firstn (S k) l = firstn k l ++ [nth k l d].
Proof.
  induction k as [|k IH]; intros [|x l] H; cbn [length] in H; try lia.
  - reflexivity.
  - cbn [firstn nth app]. f_equal. apply IH. lia.
Qed.

Lemma sum_firstn_bound (B : Z) (l : list Z) (k : nat) :
  0 <= B -> bounded_by B l ->
  Z.abs (fold_right Z.add 0 (firstn k l)) <= Z.of_nat k * B.
Proof.
  intros HB H. revert k. induction H as [|x l Hx Hl IH]; intros [|k];
    cbn [firstn fold_right]; try nia.
  specialize (IH k). nia.
Qed.

Lemma bounded_by_rev (B : Z) (l : list Z) :
  bounded_by B l -> bounded_by B (rev l).
Proof. unfold bounded_by. rewrite !Forall_forall. intros H x Hx.
  apply H. apply in_rev. exact Hx. Qed.

Lemma bounded_by_app (B : Z) (l1 l2 : list Z) :
  bounded_by B (l1 ++ l2) -> bounded_by B l1 /\ bounded_by B l2.
Proof. unfold bounded_by. apply Forall_app. Qed.

Lemma bounded_by_nth (B : Z) (l : list Z) (k : nat) :
  0 <= B -> bounded_by B l -> Z.abs (nth k l 0) <= B.
Proof.
  intros HB H. destruct (Nat.lt_ge_cases k (length l)) as [L|G].
  - unfold bounded_by in H. rewrite Forall_forall in H.
    apply H. apply nth_In. exact L.
  - rewrite nth_overflow by exact G. cbn. lia.
Qed.

Lemma wsum_bound (B n : Z) (p : list Z) :
  0 <= B -> 0 <= n -> bounded_by B p -> Z.abs (wsum n p) <= n * B.
Proof.
  intros HB Hn H. unfold wsum, window.
  pose proof (sum_firstn_bound B (rev p) (Z.to_nat n) HB
                (bounded_by_rev B p H)) as S.
  rewrite Z2Nat.id in S by assumption. exact S.
Qed.

Lemma window_snoc (n : Z) (p : list Z) (s : Z) :
  1 <= n ->
  window n (p ++ [s]) = s :: firstn (Z.to_nat n - 1) (rev p).
Proof.
  intros Hn. unfold window. rewrite rev_app_distr. cbn [rev app].
  destruct (Z.to_nat n) as [|k] eqn:E; [lia|].
  cbn [firstn]. replace (S k - 1)%nat with k by lia. reflexivity.
Qed.

Section Update.

Variables (n B : Z).
Hypothesis Hn : 1 <= n.
Hypothesis HB : Z.max n 2 * B < 2 ^ 53.

Lemma sample_small (s : Z) : Z.abs s <= B -> Z.abs s < 2 ^ 53.
Proof. intros H. nia. Qed.

Lemma wsum_small (p : list Z) : bounded_by B p -> Z.abs (wsum n p) < 2 ^ 53.
Proof.
  intros H. destruct (Z_lt_le_dec B 0) as [Neg|Pos].
  - destruct p as [|x p].
    + unfold wsum, window. cbn [rev]. rewrite firstn_nil. reflexivity.
    + inversion H; subst. lia.
  - pose proof (wsum_bound B n p Pos ltac:(lia) H). nia.
Qed.

Theorem update_exact (p : list Z) (s : Z) (st : state) :
  bounded_by B (p ++ [s]) -> state_after n p st ->
  exists st1, update st s = Ok st1 /\ state_after n (p ++ [s]) st1
              /\ result st1 = result st.
Proof.
  intros Hb (Hreg & Hacc).
  apply bounded_by_app in Hb. destruct Hb as [Hp Hs].
  inversion Hs as [|? ? Hs1 _]; subst.
  assert (HB0 : 0 <= B) by lia.
  pose proof (sample_small s Hs1) as Ss.
  pose proof (wsum_small p Hp) as Sp.
  assert (Hsn : bounded_by B (p ++ [s]))
    by (apply Forall_app; split; assumption).
  pose proof (wsum_small (p ++ [s]) Hsn) as Sps.
  unfold update. rewrite Hreg.
  destruct (Nat.lt_ge_cases (length p) (Z.to_nat n)) as [Lt|Ge].
  - (* a zero leaves the register *)
    assert (Hw : window n p = rev p).
    { unfold window. apply firstn_all2. rewrite length_rev. lia. }
    assert (Hz : repeat (Float fzero) (Z.to_nat n - length p)
                 = repeat (Float fzero) (Z.to_nat n - length p - 1)
                   ++ [Float fzero]).
    { replace (Z.to_nat n - length p)%nat
        with (S (Z.to_nat n - length p - 1)) at 1 by lia.
      apply repeat_cons. }
    rewrite Hz, app_assoc, deque_pop_snoc. cbn [bind].
    cbn [py_sub to_float]. rewrite (Z2SF_finite s Ss). cbn [bind].
    rewrite fsub_zero.
    assert (Hw' : window n (p ++ [s]) = s :: rev p).
    { rewrite window_snoc by assumption. f_equal.
      apply firstn_all2. rewrite length_rev. lia. }
    assert (Hsum : wsum n (p ++ [s]) = s + wsum n p).
    { unfold wsum. rewrite Hw', Hw. reflexivity. }
    assert (Hadd : py_add (acc st) (Float (Z2SF s))
                   = Ok (Float (Z2SF (wsum n (p ++ [s]))))).
    { rewrite Hacc, Hsum. destruct p as [|x p'].
      - cbn [py_add to_float]. change (float_of_int 0) with (Ok fzero).
        cbn [bind]. change fzero with (Z2SF 0).
        rewrite fadd_Z2SF by (assumption || reflexivity).
        assert (W0 : wsum n [] = 0)
          by (unfold wsum, window; cbn [rev]; rewrite firstn_nil;
              reflexivity).
        rewrite W0. do 3 f_equal. lia.
      - cbn [py_add to_float bind].
        rewrite fadd_Z2SF by assumption. do 3 f_equal. lia. }
    rewrite Hadd. cbn [bind]. eexists. split; [reflexivity|].
    split; [|reflexivity]. split; cbn [sreg acc]; unfold deque_appendleft.
    + rewrite Hw', Hw, length_app. cbn [length map app].
      do 3 f_equal. lia.
    + destruct p; reflexivity.
  - (* the oldest sample leaves the register *)
    replace (Z.to_nat n - length p)%nat with 0%nat by lia.
    cbn [repeat]. rewrite app_nil_r.
    assert (Hk : (Z.to_nat n - 1 < length (rev p))%nat)
      by (rewrite length_rev; lia).
    assert (Hw : window n p
                 = firstn (Z.to_nat n - 1) (rev p)
                   ++ [nth (Z.to_nat n - 1) (rev p) 0]).
    { unfold window.
      replace (Z.to_nat n) with (S (Z.to_nat n - 1)) at 1 by lia.
      apply firstn_S_nth. exact Hk. }
    set (old := nth (Z.to_nat n - 1) (rev p) 0) in *.
    rewrite Hw, map_app. cbn [map]. rewrite deque_pop_snoc. cbn [bind].
    cbn [py_sub bind].
    assert (Hold : Z.abs old <= B)
      by (apply bounded_by_nth; [lia|apply bounded_by_rev; assumption]).
    assert (Hd : Z.abs (s - old) < 2 ^ 53) by nia.
    assert (Hsum : wsum n (p ++ [s]) = wsum n p + (s - old)).
    { unfold wsum. rewrite window_snoc, Hw by assumption.
      cbn [fold_right]. rewrite fold_right_app. cbn [fold_right].
      generalize (firstn (Z.to_nat n - 1) (rev p)).
      intros l. induction l as [|y l IH]; cbn [fold_right]; lia. }
    assert (Hp0 : p <> []) by (intros ->; cbn in Ge; lia).
    assert (Hacc' : acc st = Float (Z2SF (wsum n p)))
      by (rewrite Hacc; destruct p; [contradiction|reflexivity]).
    rewrite Hacc'. cbn [py_add to_float bind].
    rewrite (Z2SF_finite _ Hd). cbn [bind].
    rewrite fadd_Z2SF by assumption. rewrite <- Hsum.
    eexists. split; [reflexivity|]. split; [|reflexivity].
    split; cbn [sreg acc]; unfold deque_appendleft.
    + rewrite window_snoc by assumption. rewrite length_app.
      cbn [length map].
      replace (Z.to_nat n - (length p + 1))%nat with 0%nat by lia.
      cbn [repeat]. rewrite app_nil_r. reflexivity.
    + destruct p; [contradiction|reflexivity].
Qed.

End Update.

Lemma state_after_init (n : Z) :
  0 <= n ->
  state_after n [] (mkState (repeat (Float fzero) (Z.to_nat n)) (Int 0) []).
Proof.
  intros H. split; cbn [sreg acc].
  - unfold window. cbn [rev length]. rewrite firstn_nil. cbn [map app].
    f_equal. lia.
  - reflexivity.
Qed.

(** ** Reachable states under a bound on the samples *)

Lemma body_update (n : Z) (mr : bool) (eb : Z) (st st' : state) (s : Z) :
  body n mr eb st s = Ok st' ->
  exists st1 v,
    update st s = Ok st1
    /\ value_of mr (acc st1) n eb = Ok v
    /\ st' = mkState (sreg st1) (acc st1) (result st1 ++ [v]).
Proof.
  unfold body. intros H.
  destruct (update st s) as [st1|e]; [|discriminate]. cbn [bind] in H.
  destruct (value_of mr (acc st1) n eb) as [v|e] eqn:V; [|discriminate].
  cbn [bind] in H. injection H as <-.
  exists st1, v. split; [reflexivity|]. split; [exact V|reflexivity].
Qed.

Lemma run_nil (n : Z) (mr : bool) (eb : Z) : run [] n mr eb = init n.
Proof.
  unfold run. destruct (init n); reflexivity.
Qed.

Theorem run_state_after (n B : Z) (mr : bool) (eb : Z) :
  1 <= n -> Z.max n 2 * B < 2 ^ 53 ->
  forall (p : list Z) (st : state),
    bounded_by B p -> run p n mr eb = Ok st -> state_after n p st.
Proof.
  intros Hn HB p. induction p as [|s p IH] using rev_ind; intros st Hb Hr.
  - rewrite run_nil, init_ok in Hr by lia. injection Hr as <-.
    apply state_after_init. lia.
  - rewrite run_snoc in Hr.
    destruct (run p n mr eb) as [st0|e] eqn:R0; [|discriminate].
    cbn [bind] in Hr.
    destruct (body_update _ _ _ _ _ _ Hr) as (st1 & v & Hu & _ & ->).
    destruct (bounded_by_app _ _ _ Hb) as [Hp _].
    destruct (update_exact n B Hn HB p s st0 Hb (IH st0 Hp eq_refl))
      as (st1' & Hu' & Hs & _).
    rewrite Hu in Hu'. injection Hu' as <-.
    destruct Hs as [Hs1 Hs2]. split; assumption.
Qed.

Lemma window_sum_app (a b : list num) :
  (window_sum (a ++ b) == window_sum a + window_sum b)%Q.
Proof.
  unfold window_sum. induction a as [|x a IH]; cbn [app map fold_right].
  - ring.
  - rewrite IH. ring.
Qed.

Lemma window_sum_zeros (k : nat) :
  (window_sum (repeat (Float fzero) k) == 0)%Q.
Proof.
  unfold window_sum. induction k as [|k IH]; cbn [repeat map fold_right].
  - reflexivity.
  - rewrite IH. reflexivity.
Qed.

Lemma window_sum_ints (l : list Z) :
  (window_sum (map Int l) == inject_Z (fold_right Z.add 0%Z l))%Q.
Proof.
  unfold window_sum. induction l as [|x l IH]; cbn [map fold_right].
  - reflexivity.
  - rewrite IH, inject_Z_plus. reflexivity.
Qed.

Theorem state_after_sum (n B : Z) (p : list Z) (st : state) :
  1 <= n -> Z.max n 2 * B < 2 ^ 53 -> bounded_by B p ->
  state_after n p st ->
  (num_value (acc st) == window_sum (sreg st))%Q
  /\ (num_value (acc st) == inject_Z (wsum n p))%Q.
Proof.
  intros Hn HB Hb [Hs Ha].
  assert (Hv : (num_value (acc st) == inject_Z (wsum n p))%Q).
  { rewrite Ha. destruct p as [|x p'].
    - unfold wsum, window. cbn [rev]. rewrite firstn_nil. reflexivity.
    - cbn [num_value]. apply Z2SF_value.
      apply (wsum_small n B Hn HB). exact Hb. }
  split; [|exact Hv].
  rewrite Hv, Hs, window_sum_app, window_sum_zeros, window_sum_ints.
  unfold wsum. ring.
Qed.

(** ** The shape of converted integers and of powers of two *)

Lemma encode_nz_shape (s : bool) (M E : Z) :
  M <> 0 ->
  (exists m e, encode s M E = S754_finite s m e)
  \/ encode s M E = S754_infinity s.
Proof.
  intros H. unfold encode.
  destruct (Z.eqb_spec M 0); [contradiction|].
  destruct (M =? 2 ^ prec);
    [destruct (E + 1 <=? emax - prec)|destruct (E <=? emax - prec)];
    try (right; reflexivity); left; eexists; eexists; reflexivity.
Qed.

Lemma Z2SF_pos_shape (n : Z) :
  0 < n ->
  (exists m e, Z2SF n = S754_finite false m e)
  \/ Z2SF n = S754_infinity false.
Proof.
  intros H. destruct n as [|p|p]; try lia.
  change (Z2SF (Zpos p)) with (binary_round prec emax false p 0).
  destruct (binary_round_rounded false p 0) as (M & E & -> & _ & HM).
  apply encode_nz_shape. intros ->. specialize (HM eq_refl).
  unfold emin in HM. lia.
Qed.

Lemma float_of_int_pos (n : Z) (y : float) :
  0 < n -> float_of_int n = Ok y -> exists m e, y = S754_finite false m e.
Proof.
  intros H. unfold float_of_int.
  destruct (Z2SF_pos_shape n H) as [(m & e & ->)| ->]; [|discriminate].
  intros E. injection E as <-. exists m, e. reflexivity.
Qed.

Lemma fpow2_shape (eb : Z) :
  fpow2 eb = S754_zero false
  \/ (exists m e, fpow2 eb = S754_finite false m e)
  \/ fpow2 eb = S754_infinity false.
Proof.
  unfold fpow2.
  destruct (binary_round_rounded false 1 eb) as (M & E & -> & _).
  apply encode_shape.
Qed.

Lemma to_float_pow2_shape (eb : Z) (p : float) :
  to_float (pow2_num eb) = Ok p ->
  p = S754_zero false
  \/ (exists m e, p = S754_finite false m e)
  \/ p = S754_infinity false.
Proof.
  unfold pow2_num. destruct (Z.leb_spec 0 eb); cbn [to_float]; intros E.
  - right. left. apply (float_of_int_pos (2 ^ eb)); [|exact E].
    apply Z.pow_pos_nonneg; lia.
  - injection E as <-. apply fpow2_shape.
Qed.

Lemma fpow2_underflow (eb : Z) : eb < emin -> fpow2 eb = fzero.
Proof.
  intros H. unfold fpow2. rewrite binary_round_spec.
  change (Zpos (digits2_pos 1)) with 1. rewrite fexp_eq.
  unfold emin in *.
  replace (Z.max (1 + eb - 53) (-1074)) with (-1074) by lia.
  replace (Z.max (eb - -1074) 0) with 0 by lia.
  replace (Z.max (-1074 - eb) 0) with (-1074 - eb) by lia.
  set (k := -1074 - eb). assert (Hk : 1 <= k) by lia.
  assert (HD : 2 <= 2 ^ k).
  { change 2 with (2 ^ 1) at 1. apply Z.pow_le_mono_r; lia. }
  assert (HM : rne_div (1 * 2 ^ 0) (2 ^ k) = 0).
  { change (1 * 2 ^ 0) with 1. unfold rne_div.
    rewrite Z.div_small, Z.mod_small by lia.
    destruct (2 * 1 ?= 2 ^ k) eqn:C; try reflexivity.
    apply Z.compare_gt_iff in C. lia. }
  rewrite HM. reflexivity.
Qed.

Lemma to_float_pow2_overflow (eb : Z) :
  1024 <= eb -> to_float (pow2_num eb) = Raise OverflowError.
Proof.
  intros H. unfold pow2_num.
  destruct (Z.leb_spec 0 eb); [|lia]. cbn [to_float].
  unfold float_of_int. rewrite Z2SF_pow2 by assumption.
  change (dyadic 1 eb) with (binary_round prec emax false 1 eb).
  rewrite binary_round_spec.
  change (Zpos (digits2_pos 1)) with 1. rewrite fexp_eq. unfold emin.
  replace (Z.max (1 + eb - 53) (-1074)) with (eb - 52) by lia.
  replace (Z.max (eb - (eb - 52)) 0) with 52 by lia.
  replace (Z.max (eb - 52 - eb) 0) with 0 by lia.
  change (2 ^ 0) with 1. rewrite Z.mul_1_l.
  replace (2 ^ 52) with (2 ^ 52 * 1) by lia.
  rewrite rne_div_exact by lia.
  unfold encode. change (2 ^ 52 =? 0) with false.
  change (2 ^ 52 =? 2 ^ prec) with false. cbv iota.
  destruct (Z.leb_spec (eb - 52) (emax - prec)) as [L|L];
    [unfold emax, prec in L; lia|reflexivity].
Qed.

(** ** A register and an accumulator that hold only zeros *)

Lemma update_zero (st st1 : state) :
  Forall zero_num (sreg st) -> zero_num (acc st) ->
  update st 0 = Ok st1 ->
  Forall zero_num (sreg st1) /\ zero_num (acc st1)
  /\ result st1 = result st.
Proof.
  intros Hs Ha. unfold update, deque_pop.
  assert (Hr : Forall zero_num (rev (sreg st)))
    by (apply Forall_rev; exact Hs).
  destruct (rev (sreg st)) as [|x r]; [discriminate|].
  cbn [bind]. inversion Hr as [|? ? Hx Hr']; subst.
  assert (Hrest : Forall zero_num (rev r)) by (apply Forall_rev; exact Hr').
  destruct Hx as [-> | ->], Ha as [-> | ->]; cbn; intros E;
    injection E as <-; cbn [sreg acc result]; unfold deque_appendleft;
    (split; [constructor; [left; reflexivity|exact Hrest]|]);
    (split; [|reflexivity]); (left; reflexivity) || (right; reflexivity).
Qed.

Lemma update_zero_ok (st : state) :
  Forall zero_num (sreg st) -> zero_num (acc st) -> sreg st <> [] ->
  exists st1, update st 0 = Ok st1.
Proof.
  intros Hs Ha Hne. unfold update, deque_pop.
  assert (Hr : Forall zero_num (rev (sreg st)))
    by (apply Forall_rev; exact Hs).
  destruct (rev (sreg st)) as [|x r] eqn:R.
  - exfalso. apply Hne. rewrite <- (rev_involutive (sreg st)), R.
    reflexivity.
  - cbn [bind]. inversion Hr as [|? ? Hx Hr']; subst.
    destruct Hx as [-> | ->], Ha as [-> | ->]; cbn; eexists; reflexivity.
Qed.

Lemma fdiv_zero_pos (m : positive) (e : Z) :
  fdiv fzero (S754_finite false m e) = fzero.
Proof. reflexivity. Qed.

Lemma mean_zero (a : num) (n : Z) :
  zero_num a -> 1 <= n ->
  (forall q, mean a n = Ok q -> q = fzero)
  /\ (n < 2 ^ 53 -> mean a n = Ok fzero).
Proof.
  intros [-> | ->] Hn; cbn [mean].
  - assert (E : int_truediv 0 n = Ok fzero) by (apply int_truediv_0; lia).
    rewrite E. split; [intros q Hq; injection Hq as <-|]; reflexivity.
  - unfold np_truediv. cbn [to_float]. split.
    + intros q. destruct (float_of_int n) as [y|] eqn:Y; [|discriminate].
      cbn [bind]. destruct (float_of_int_pos n y) as (m & e & ->);
        [lia|exact Y|].
      intros E. injection E as <-. reflexivity.
    + intros Hb. assert (Y : float_of_int n = Ok (Z2SF n))
        by (apply Z2SF_finite; lia).
      rewrite Y. cbn [bind].
      destruct (float_of_int_pos n _ ltac:(lia) Y) as (m & e & ->).
      reflexivity.
Qed.

Lemma final_zero (eb : Z) :
  (forall v, py_truediv (Int 0) (pow2_num eb) = Ok v -> v = fzero)
  /\ (emin <= eb -> py_truediv (Int 0) (pow2_num eb) = Ok fzero).
Proof.
  unfold pow2_num. destruct (Z.leb_spec 0 eb) as [L|L]; cbn [py_truediv].
  - assert (E : int_truediv 0 (2 ^ eb) = Ok fzero).
    { apply int_truediv_0. apply Z.pow_pos_nonneg; lia. }
    rewrite E. split; [intros v Hv; injection Hv as <-|]; reflexivity.
  - cbn [to_float]. change (float_of_int 0) with (Ok fzero). cbn [bind].
    split.
    + intros v.
      destruct (fpow2_shape eb) as [-> |[(m & e & ->)| ->]];
        [discriminate| |]; intros E; injection E as <-; reflexivity.
    + intros Hb. rewrite fpow2_dyadic.
      rewrite (dyadic_repr 1 eb) by (apply repr_pow2; lia).
      reflexivity.
Qed.

Theorem value_zero (mr : bool) (a : num) (n eb : Z) :
  zero_num a -> 1 <= n ->
  (forall v, value_of mr a n eb = Ok v -> v = fzero)
  /\ (n < 2 ^ 53 -> emin <= eb <= 1023 -> value_of mr a n eb = Ok fzero).
Proof.
  intros Ha Hn. destruct (mean_zero a n Ha Hn) as [Mp Mt].
  destruct (final_zero eb) as [Fp Ft].
  unfold value_of, scaled. split.
  - intros v. destruct (mean a n) as [q|] eqn:Q; [|discriminate].
    rewrite (Mp q eq_refl). cbn [bind].
    destruct (py_pow2 eb) as [pw|] eqn:W; [|discriminate].
    apply py_pow2_value in W. subst pw. cbn [bind].
    destruct (to_float (pow2_num eb)) as [p|] eqn:P; [|discriminate].
    cbn [bind].
    destruct (to_float_pow2_shape eb p P) as [-> |[(m & e & ->)| ->]].
    + change (fmul fzero (S754_zero false)) with fzero.
      rewrite (quantize_zero mr false : quantize mr fzero = Ok 0).
      cbn [bind]. apply Fp.
    + change (fmul fzero (S754_finite false m e)) with fzero.
      rewrite (quantize_zero mr false : quantize mr fzero = Ok 0).
      cbn [bind]. apply Fp.
    + destruct mr; discriminate.
  - intros Hb He. rewrite (Mt Hb). cbn [bind].
    rewrite (py_pow2_ok eb) by (unfold emin in He; lia). cbn [bind].
    rewrite (to_float_pow2 eb He). cbn [bind].
    rewrite (dyadic_repr 1 eb) by (apply repr_pow2; exact He).
    match goal with
    | |- context [fmul fzero (S754_finite ?s ?m ?e)] =>
        change (fmul fzero (S754_finite s m e)) with fzero
    end.
    rewrite (quantize_zero mr false : quantize mr fzero = Ok 0).
    cbn [bind]. apply Ft. lia.
Qed.

(** The loop on an all-zero input. *)
Lemma zeros_loop (n : Z) (mr : bool) (eb : Z) (len : nat) :
  1 <= n ->
  forall (st : state) (k : nat),
    Forall zero_num (sreg st) -> zero_num (acc st) ->
    result st = repeat fzero k ->
    (forall st', foldM (body n mr eb) (repeat 0 len) st = Ok st' ->
                 result st' = repeat fzero (k + len))
    /\ (n < 2 ^ 53 -> emin <= eb <= 1023 -> sreg st <> [] ->
        exists st', foldM (body n mr eb) (repeat 0 len) st = Ok st'
                    /\ result st' = repeat fzero (k + len)).
Proof.
  intros Hn. induction len as [|len IH]; intros st k Hs Ha Hr.
  - cbn [repeat foldM]. rewrite Nat.add_0_r. split.
    + intros st' E. injection E as <-. exact Hr.
    + intros _ _ _. exists st. split; [reflexivity|exact Hr].
  - cbn [repeat foldM]. unfold body at 1 3.
    assert (Hk : forall st1 : state,
               result st1 = result st ->
               result st1 ++ [fzero] = repeat fzero (S k)).
    { intros st1 ->. rewrite Hr. rewrite <- repeat_cons. reflexivity. }
    split.
    + intros st'. destruct (update st 0) as [st1|] eqn:U; [|discriminate].
      cbn [bind].
      destruct (update_zero st st1 Hs Ha U) as (Hs1 & Ha1 & Hr1).
      destruct (value_of mr (acc st1) n eb) as [v|] eqn:V; [|discriminate].
      cbn [bind].
      rewrite (proj1 (value_zero mr _ n eb Ha1 Hn) v V).
      intros F.
      replace (k + S len)%nat with (S k + len)%nat by lia.
      refine (proj1 (IH _ (S k) _ _ _) st' F); cbn [sreg acc result];
        [exact Hs1|exact Ha1|apply Hk; exact Hr1].
    + intros Hb He Hne.
      destruct (update_zero_ok st Hs Ha Hne) as (st1 & U).
      rewrite U. cbn [bind].
      destruct (update_zero st st1 Hs Ha U) as (Hs1 & Ha1 & Hr1).
      rewrite (proj2 (value_zero mr _ n eb Ha1 Hn) Hb He). cbn [bind].
      replace (k + S len)%nat with (S k + len)%nat by lia.
      refine (proj2 (IH _ (S k) _ _ _) Hb He _); cbn [sreg acc result];
        [exact Hs1|exact Ha1|apply Hk; exact Hr1|].
      intros E. apply (f_equal (@length num)) in E.
      rewrite (update_length _ _ _ U) in E.
      destruct (sreg st); [contradiction|discriminate].
Qed.

Theorem zeros_output (n : Z) (mr : bool) (eb : Z) (len : nat) :
  1 <= n ->
  (forall out, fpga_moving_integrator (repeat 0 len) n mr eb = Ok out ->
               out = repeat fzero len)
  /\ (n < 2 ^ 53 -> emin <= eb <= 1023 ->
      fpga_moving_integrator (repeat 0 len) n mr eb
      = Ok (repeat fzero len)).
Proof.
  intros Hn. unfold fpga_moving_integrator, run.
  rewrite init_ok by lia. cbn [bind].
  set (st0 := mkState (repeat (Float fzero) (Z.to_nat n)) (Int 0) []).
  assert (Hs : Forall zero_num (sreg st0)).
  { cbn [sreg st0]. apply Forall_forall. intros x Hx.
    apply repeat_spec in Hx. right. exact Hx. }
  assert (Ha : zero_num (acc st0)) by (left; reflexivity).
  destruct (zeros_loop n mr eb len Hn st0 0%nat Hs Ha eq_refl) as [P T].
  split.
  - intros out.
    destruct (foldM (body n mr eb) (repeat 0 len) st0) as [st'|] eqn:F;
      [|discriminate].
    cbn [bind]. intros E. injection E as <-. exact (P st' eq_refl).
  - intros Hb He.
    destruct (T Hb He) as (st' & F & R).
    + cbn [sreg st0]. destruct (Z.to_nat n) eqn:N; [lia|discriminate].
    + rewrite F. cbn [bind]. rewrite R. reflexivity.
Qed.

(** ** From rational to integer inequalities *)

Lemma pow2_neg_inv (E : Z) :
  E <= 0 -> (pow2 E * inject_Z (2 ^ (- E)) == 1)%Q.
Proof.
  intros H. rewrite <- pow2_Z by lia. rewrite <- pow2_add.
  replace (E + - E) with 0 by lia. reflexivity.
Qed.

Lemma pow2_le (a b : Z) : a <= b -> (pow2 a <= pow2 b)%Q.
Proof.
  intros H. replace b with (a + (b - a)) by lia.
  rewrite pow2_add, (pow2_Z (b - a)) by lia.
  rewrite <- (Qmult_1_r (pow2 a)) at 1.
  apply Qmult_le_l; [apply pow2_pos|].
  change 1%Q with (inject_Z 1). rewrite <- Zle_Qle.
  assert (0 < 2 ^ (b - a)) by (apply Z.pow_pos_nonneg; lia). lia.
Qed.

Lemma repr_abs (z e : Z) : repr z e -> repr (Z.abs z) e.
Proof.
  intros (Hz & Hd & He & Hm). unfold repr. rewrite Zdigits2_abs.
  repeat split; try assumption. lia.
Qed.

(** The magnitude of a representable number, from its mantissa. *)
Lemma repr_abs_value (z e : Z) :
  repr z e ->
  let E0 := fexp prec emax (Zdigits2 z + e) in
  let M0 := Z.to_pos (Z.abs z * 2 ^ (e - E0)) in
  (inject_Z (Zpos M0) * pow2 E0 == inject_Z (Z.abs z) * pow2 e)%Q.
Proof.
  intros R E0 M0.
  pose proof (repr_value (Z.abs z) e (repr_abs z e R)) as V.
  rewrite Zdigits2_abs, Z.abs_idemp in V.
  assert (S : sign_of (Z.abs z) = false).
  { unfold sign_of. apply Z.ltb_ge. lia. }
  rewrite S in V. exact V.
Qed.

Section Scaling.

Variables (t : Q) (g : Z).
Hypothesis Hg0 : 0 < g.
Hypothesis Hg : (t * inject_Z g == 1)%Q.

Lemma scale_upper (m n A : Z) :
  (inject_Z (2 * m) * (t * inject_Z n)
   <= inject_Z 2 * inject_Z A + t * inject_Z n)%Q ->
  2 * (m * n) <= 2 * (A * g) + n.
Proof.
  intros H.
  apply (Qmult_le_compat_r _ _ (inject_Z g)) in H;
    [|change 0%Q with (inject_Z 0); rewrite <- Zle_Qle; lia].
  assert (L : (inject_Z (2 * m) * (t * inject_Z n) * inject_Z g
               == inject_Z (2 * (m * n)))%Q).
  { rewrite !inject_Z_mult.
    transitivity (inject_Z 2 * inject_Z m * inject_Z n
                  * (t * inject_Z g))%Q; [ring|rewrite Hg; ring]. }
  assert (R : ((inject_Z 2 * inject_Z A + t * inject_Z n) * inject_Z g
               == inject_Z (2 * (A * g) + n))%Q).
  { rewrite inject_Z_plus, !inject_Z_mult.
    transitivity (inject_Z 2 * inject_Z A * inject_Z g
                  + inject_Z n * (t * inject_Z g))%Q;
      [ring|rewrite Hg; ring]. }
  rewrite L, R in H. rewrite <- Zle_Qle in H. exact H.
Qed.

Lemma scale_lower (m n A : Z) :
  (inject_Z 2 * inject_Z A - t * inject_Z n
   <= inject_Z (2 * m) * (t * inject_Z n))%Q ->
  2 * (A * g) - n <= 2 * (m * n).
Proof.
  intros H.
  apply (Qmult_le_compat_r _ _ (inject_Z g)) in H;
    [|change 0%Q with (inject_Z 0); rewrite <- Zle_Qle; lia].
  assert (R : (inject_Z (2 * m) * (t * inject_Z n) * inject_Z g
               == inject_Z (2 * (m * n)))%Q).
  { rewrite !inject_Z_mult.
    transitivity (inject_Z 2 * inject_Z m * inject_Z n
                  * (t * inject_Z g))%Q; [ring|rewrite Hg; ring]. }
  assert (L : ((inject_Z 2 * inject_Z A - t * inject_Z n) * inject_Z g
               == inject_Z (2 * (A * g) + - n))%Q).
  { rewrite inject_Z_plus, inject_Z_opp, !inject_Z_mult.
    transitivity (inject_Z 2 * inject_Z A * inject_Z g
                  - inject_Z n * (t * inject_Z g))%Q;
      [ring|rewrite Hg; ring]. }
  rewrite L, R in H. rewrite <- Zle_Qle in H. lia.
Qed.

Lemma scale_normal (c n A : Z) :
  (inject_Z c * (t * inject_Z n) <= inject_Z A)%Q ->
  c * n <= A * g.
Proof.
  intros H.
  apply (Qmult_le_compat_r _ _ (inject_Z g)) in H;
    [|change 0%Q with (inject_Z 0); rewrite <- Zle_Qle; lia].
  assert (L : (inject_Z c * (t * inject_Z n) * inject_Z g
               == inject_Z (c * n))%Q).
  { rewrite !inject_Z_mult.
    transitivity (inject_Z c * inject_Z n * (t * inject_Z g))%Q;
      [ring|rewrite Hg; ring]. }
  rewrite L, <- inject_Z_mult in H. rewrite <- Zle_Qle in H. exact H.
Qed.

End Scaling.

(** ** The quotient of two integers below [2^53] *)

Section IntQuotient.

Variables a n : Z.
Hypothesis Ha : a <> 0.
Hypothesis Hb : Z.abs a < 2 ^ 53.
Hypothesis Hn : 1 <= n < 2 ^ 53.

(** The correctly rounded quotient [a / n] has a full mantissa [M] at
    an exponent [E0] between -106 and 0, and [M * 2^E0] is within half
    a unit in the last place of [|a| / n]. *)
Theorem fdiv_int_shape :
  exists M E0,
    fdiv (Z2SF a) (Z2SF n) = encode (sign_of a) M E0
    /\ -106 <= E0 <= 0 /\ 2 ^ 52 <= M <= 2 ^ 53
    /\ Z.abs (2 * (M * n) - 2 * (Z.abs a * 2 ^ (- E0))) <= n
    /\ 2 ^ 52 * n <= Z.abs a * 2 ^ (- E0).
Proof.
  assert (Ra : repr a 0) by (apply repr_int; assumption).
  assert (Rn : repr n 0) by (apply repr_int; lia).
  rewrite !Z2SF_dyadic, (dyadic_repr a 0 Ra), (dyadic_repr n 0 Rn).
  pose proof (repr_abs_value a 0 Ra) as Xa.
  pose proof (repr_abs_value n 0 Rn) as Xn.
  cbv zeta in Xa, Xn.
  assert (Sn : sign_of n = false) by (apply Z.ltb_ge; lia).
  rewrite Sn.
  set (Ea := fexp prec emax (Zdigits2 a + 0)) in *.
  set (Ma := Z.to_pos (Z.abs a * 2 ^ (0 - Ea))) in *.
  set (En := fexp prec emax (Zdigits2 n + 0)) in *.
  set (Mn := Z.to_pos (Z.abs n * 2 ^ (0 - En))) in *.
  destruct (fdiv_nearest (sign_of a) false Ma Mn Ea En)
    as (M & E0 & Hf & Hr & H1 & H2 & H3).
  rewrite xorb_false_r in Hf.
  change (pow2 0) with 1%Q in Xa, Xn. rewrite Qmult_1_r in Xa, Xn.
  replace (Z.abs n) with n in Xn by lia.
  rewrite Xa, Xn in H1, H2.
  assert (H3' : E0 = emin
                \/ (inject_Z (2 ^ 52) * (pow2 E0 * inject_Z n)
                    <= inject_Z (Z.abs a))%Q).
  { destruct H3 as [H3|H3]; [left; exact H3|right].
    rewrite Xa, Xn in H3. exact H3. }
  clear H3. destruct Hr as (HM & HE & HN).
  set (A := Z.abs a) in *.
  assert (HA : 1 <= A) by (unfold A; lia).
  (* the exponent is not positive *)
  assert (Le : E0 <= 0).
  { destruct (Z_le_gt_dec E0 0) as [L|G]; [exact L|exfalso].
    destruct H3' as [H3|H3]; [unfold emin in H3; lia|].
    rewrite (pow2_Z E0) in H3 by lia.
    rewrite <- !inject_Z_mult, <- Zle_Qle in H3.
    assert (2 ^ 1 <= 2 ^ E0) by (apply Z.pow_le_mono_r; lia).
    nia. }
  set (g := 2 ^ (- E0)).
  assert (Hg0 : 0 < g) by (apply Z.pow_pos_nonneg; lia).
  pose proof (pow2_neg_inv E0 Le) as Hg. fold g in Hg.
  pose proof (scale_upper _ _ Hg0 Hg _ _ _ H1) as U.
  pose proof (scale_lower _ _ Hg0 Hg _ _ _ H2) as L.
  (* nor is it very negative *)
  assert (Lo : -106 <= E0).
  { destruct (Z_le_gt_dec (-106) E0) as [L0|G]; [exact L0|exfalso].
    assert (2 ^ 107 <= g) by (apply Z.pow_le_mono_r; lia).
    nia. }
  assert (Ne : E0 <> emin) by (unfold emin; lia).
  exists M, E0. split; [exact Hf|]. split; [lia|].
  split; [destruct HN; [contradiction|lia]|].
  split; [lia|].
  destruct H3' as [H3|H3]; [contradiction|].
  exact (scale_normal _ _ Hg0 Hg _ _ _ H3).
Qed.

End IntQuotient.

(** A rounded result with a full mantissa, as a representable number. *)
Lemma encode_normal (s : bool) (M E : Z) :
  2 ^ 52 <= M <= 2 ^ 53 -> emin <= E <= 970 ->
  exists z e,
    encode s M E = dyadic z e /\ repr z e /\ E <= e <= E + 1
    /\ cond_Zopp s M = z * 2 ^ (e - E) /\ sign_of z = s.
Proof.
  intros HM HE.
  assert (V : valid (encode s M E)).
  { apply encode_valid. unfold rounded. repeat split; try lia. }
  unfold valid, encode in *.
  change (emax - prec) with 971 in *. change (2 ^ prec) with (2 ^ 53) in *.
  change (2 ^ (prec - 1)) with (2 ^ 52) in *.
  destruct (Z.eqb_spec M 0); [lia|].
  destruct (Z.eqb_spec M (2 ^ 53)) as [->|N53].
  - destruct (Z.leb_spec (E + 1) 971); [|lia].
    cbn [valid_binary] in V.
    destruct (finite_dyadic s _ _ V) as [F R].
    exists (smant s (Z.to_pos (2 ^ 52))), (E + 1).
    split; [exact F|]. split; [exact R|]. split; [lia|].
    split; [|apply sign_of_smant].
    replace (E + 1 - E) with 1 by lia. destruct s; reflexivity.
  - destruct (Z.leb_spec E 971); [|lia].
    cbn [valid_binary] in V.
    destruct (finite_dyadic s _ _ V) as [F R].
    exists (smant s (Z.to_pos M)), E.
    split; [exact F|]. split; [exact R|]. split; [lia|].
    split; [|apply sign_of_smant].
    replace (E - E) with 0 by lia. unfold smant.
    rewrite Z2Pos.id by lia. lia.
Qed.

(** ** The last division *)

(** [k / 2 ** extra_bits] is exact when the quotient is representable. *)
Theorem final_exact (K eb z e : Z) :
  K <> 0 -> repr z e -> emin <= eb <= 1023 ->
  (inject_Z K == inject_Z z * pow2 e * pow2 eb)%Q ->
  (eb < 0 -> Z.abs K < 2 ^ 53) ->
  py_truediv (Int K) (pow2_num eb) = Ok (dyadic z e).
Proof.
  intros HK R He HQ Hs. unfold pow2_num.
  destruct (Z.leb_spec 0 eb) as [L|L]; cbn [py_truediv].
  - apply int_truediv_exact; [exact HK| |exact R|].
    + apply Z.pow_pos_nonneg; lia.
    + rewrite <- pow2_Z by lia. exact HQ.
  - cbn [to_float]. rewrite (Z2SF_finite K (Hs L)). cbn [bind].
    rewrite fpow2_dyadic.
    assert (R1 : repr 1 eb) by (apply repr_pow2; lia).
    assert (F : fdiv (Z2SF K) (dyadic 1 eb) = dyadic z e).
    { rewrite Z2SF_dyadic. apply fdiv_dyadic;
        [apply repr_int; [exact HK|exact (Hs L)]|exact R1|exact R|].
      change (pow2 0) with 1%Q. rewrite HQ. ring. }
    rewrite <- F. rewrite (dyadic_repr 1 eb R1). reflexivity.
Qed.

Lemma quant_exact (mr : bool) (z e : Z) :
  0 <= e -> quant mr z e = z * 2 ^ e.
Proof.
  intros H. unfold quant, rne_dy, floor_dy.
  destruct (Z.leb_spec 0 e); [|lia]. destruct mr; reflexivity.
Qed.

Lemma quant_small (mr : bool) (z e : Z) :
  e < 0 -> Z.abs (quant mr z e) <= Z.abs z.
Proof.
  intros H. unfold quant, rne_dy, floor_dy.
  destruct (Z.leb_spec 0 e); [lia|].
  set (D := 2 ^ (- e)).
  assert (HD : 2 <= D).
  { change 2 with (2 ^ 1). apply Z.pow_le_mono_r; lia. }
  destruct mr.
  - pose proof (rne_div_bounds (Z.abs z) D ltac:(lia)) as B.
    pose proof (rne_div_nonneg (Z.abs z) D ltac:(lia) ltac:(lia)) as P.
    assert (Z.abs z / D + 1 <= Z.abs z \/ Z.abs z = 0) as [Q|Q].
    { destruct (Z.eq_dec (Z.abs z) 0); [right; assumption|left].
      assert (Z.abs z / D * D <= Z.abs z)
        by (rewrite Z.mul_comm; apply Z.mul_div_le; lia).
      pose proof (Z.div_pos (Z.abs z) D ltac:(lia) ltac:(lia)). nia. }
    + destruct (sign_of z); cbn [cond_Zopp]; lia.
    + rewrite Q in *. rewrite Z.div_0_l in B by lia.
      assert (E0 : rne_div 0 D = 0).
      { unfold rne_div. rewrite Z.div_0_l, Z.mod_0_l by lia.
        destruct (2 * 0 ?= D) eqn:C; try reflexivity.
        apply Z.compare_gt_iff in C. lia. }
      rewrite E0. destruct (sign_of z); cbn [cond_Zopp]; lia.
  - pose proof (Z.mul_div_le z D ltac:(lia)).
    pose proof (Z.mul_succ_div_gt z D ltac:(lia)). nia.
Qed.

Lemma quant_scale (mr : bool) (z e k : Z) :
  0 <= k -> quant mr (z * 2 ^ k) (e - k) = quant mr z e.
Proof.
  intros H. unfold quant. destruct mr;
    [apply rne_dy_scale|apply floor_dy_scale]; exact H.
Qed.

(** ** One emitted value, from a representable mean *)

Theorem emit_exact (mr : bool) (a : num) (n z e eb : Z) :
  mean a n = Ok (dyadic z e) -> repr z e ->
  -106 <= e <= 1 -> -968 <= eb <= 970 ->
  value_of mr a n eb = Ok (dyadic (quant mr z (e + eb)) (- eb)).
Proof.
  intros Hm R He Hb. unfold value_of, scaled. rewrite Hm. cbn [bind].
  rewrite (py_pow2_ok eb) by lia. cbn [bind].
  rewrite (to_float_pow2 eb) by (unfold emin; lia). cbn [bind].
  destruct R as (Rz & Rd & Re & Rm).
  assert (R : repr z e) by (repeat split; assumption).
  assert (R2 : repr z (e + eb))
    by (unfold repr, emin in *; repeat split; lia).
  assert (Hz : Z.abs z < 2 ^ 53) by (apply Zdigits2_le_pow2; assumption).
  rewrite (fmul_dyadic z e 1 eb z (e + eb) R
             (repr_pow2 eb ltac:(unfold emin; lia)) R2)
    by (rewrite pow2_add; ring).
  rewrite (quantize_dyadic mr z (e + eb) R2).
  change (if mr then rne_dy z (e + eb) else floor_dy z (e + eb))
    with (quant mr z (e + eb)).
  cbn [bind]. set (K := quant mr z (e + eb)).
  destruct (Z.eq_dec K 0) as [K0|K0].
  - rewrite K0, dyadic_0.
    apply (proj2 (final_zero eb)). unfold emin. lia.
  - destruct (Z_le_gt_dec 0 (e + eb)) as [L|G].
    + assert (HK : K = z * 2 ^ (e + eb)) by (apply quant_exact; exact L).
      assert (HQ : (inject_Z K == inject_Z z * pow2 e * pow2 eb)%Q).
      { rewrite HK, inject_Z_mult, <- pow2_Z by lia.
        rewrite pow2_add. ring. }
      rewrite (final_exact K eb z e K0 R ltac:(unfold emin; lia) HQ).
      * f_equal. apply dyadic_eq. rewrite HQ.
        rewrite <- Qmult_assoc, <- pow2_add.
        replace (eb + - eb) with 0 by lia.
        change (pow2 0) with 1%Q. ring.
      * intros Hneg. replace (e + eb) with 0 in HK by lia.
        rewrite HK. change (2 ^ 0) with 1. rewrite Z.mul_1_r. exact Hz.
    + pose proof (quant_small mr z (e + eb) ltac:(lia)) as Hs. fold K in Hs.
      assert (HK : Z.abs K < 2 ^ 53) by lia.
      assert (RK : repr K (- eb)).
      { pose proof (Zdigits2_lt_pow2 K 53 ltac:(lia) HK).
        unfold repr, emin in *. repeat split; lia. }
      apply final_exact; [exact K0|exact RK|unfold emin; lia| |intros _; exact HK].
      rewrite <- Qmult_assoc, <- pow2_add.
      replace (- eb + eb) with 0 by lia.
      change (pow2 0) with 1%Q. ring.
Qed.

Lemma mean_float (a n : Z) :
  1 <= n < 2 ^ 53 ->
  mean (Float (Z2SF a)) n = Ok (fdiv (Z2SF a) (Z2SF n)).
Proof.
  intros H. cbn [mean]. unfold np_truediv. cbn [to_float].
  rewrite Z2SF_finite by lia. reflexivity.
Qed.

(** The emitted value when the accumulator holds the integer [a]: the
    quantised value of the rounded quotient [M * 2^E0], over
    [2 ** extra_bits]. *)
Theorem value_of_int (mr : bool) (a n eb : Z) :
  a <> 0 -> Z.abs a < 2 ^ 53 -> 1 <= n < 2 ^ 53 -> -968 <= eb <= 970 ->
  exists M E0,
    -106 <= E0 <= 0 /\ 2 ^ 52 <= M <= 2 ^ 53
    /\ Z.abs (2 * (M * n) - 2 * (Z.abs a * 2 ^ (- E0))) <= n
    /\ 2 ^ 52 * n <= Z.abs a * 2 ^ (- E0)
    /\ value_of mr (Float (Z2SF a)) n eb
       = Ok (dyadic (quant mr (cond_Zopp (sign_of a) M) (E0 + eb)) (- eb)).
Proof.
  intros Ha Hb Hn He.
  destruct (fdiv_int_shape a n Ha Hb Hn) as (M & E0 & Hf & HE & HM & H1 & H2).
  exists M, E0. repeat (split; [assumption|]).
  destruct (encode_normal (sign_of a) M E0 HM ltac:(unfold emin; lia))
    as (z & e & Hz & R & Hze & Hc & _).
  rewrite Hc.
  replace (E0 + eb) with (e + eb - (e - E0)) by lia.
  rewrite quant_scale by lia.
  apply emit_exact; [|exact R|lia|exact He].
  rewrite mean_float by exact Hn. rewrite Hf, Hz. reflexivity.
Qed.

Theorem value_of_total (mr : bool) (a n eb : Z) :
  Z.abs a < 2 ^ 53 -> 1 <= n < 2 ^ 53 -> -968 <= eb <= 970 ->
  exists v, value_of mr (Float (Z2SF a)) n eb = Ok v.
Proof.
  intros Hb Hn He. destruct (Z.eq_dec a 0) as [->|Ha].
  - exists fzero. rewrite Z2SF_0.
    apply (proj2 (value_zero mr (Float fzero) n eb
                    (or_intror eq_refl) ltac:(lia)));
      unfold emin; lia.
  - destruct (value_of_int mr a n eb Ha Hb Hn He)
      as (M & E0 & _ & _ & _ & _ & V).
    eexists. exact V.
Qed.

(** ** The loop never raises on bounded samples *)

Lemma state_after_acc (n : Z) (p : list Z) (s : Z) (st : state) :
  state_after n (p ++ [s]) st -> acc st = Float (Z2SF (wsum n (p ++ [s]))).
Proof.
  intros [_ H]. rewrite H. destruct p; reflexivity.
Qed.

Section Bounded.

Variables (n B : Z) (mr : bool) (eb : Z).
Hypothesis Hn : 1 <= n < 2 ^ 53.
Hypothesis HB : Z.max n 2 * B < 2 ^ 53.
Hypothesis He : -968 <= eb <= 970.

Theorem body_total (p : list Z) (s : Z) (st : state) :
  bounded_by B (p ++ [s]) -> state_after n p st ->
  exists st1 v,
    update st s = Ok st1
    /\ state_after n (p ++ [s]) st1
    /\ value_of mr (Float (Z2SF (wsum n (p ++ [s])))) n eb = Ok v
    /\ body n mr eb st s
       = Ok (mkState (sreg st1) (acc st1) (result st ++ [v])).
Proof.
  intros Hb Hs.
  destruct (update_exact n B ltac:(lia) HB p s st Hb Hs)
    as (st1 & Hu & Hs1 & Hr).
  pose proof (wsum_small n B ltac:(lia) HB _ Hb) as Hw.
  destruct (value_of_total mr _ n eb Hw Hn He) as (v & Hv).
  exists st1, v. split; [exact Hu|]. split; [exact Hs1|].
  split; [exact Hv|].
  unfold body. rewrite Hu. cbn [bind].
  rewrite (state_after_acc _ _ _ _ Hs1), Hv. cbn [bind].
  rewrite Hr. reflexivity.
Qed.

Theorem run_total (p : list Z) :
  bounded_by B p ->
  exists st, run p n mr eb = Ok st /\ state_after n p st.
Proof.
  induction p as [|s p IH] using rev_ind; intros Hb.
  - rewrite run_nil, init_ok by lia. eexists. split; [reflexivity|].
    apply state_after_init. lia.
  - destruct (bounded_by_app _ _ _ Hb) as [Hp _].
    destruct (IH Hp) as (st & Hr & Hs).
    destruct (body_total p s st Hb Hs) as (st1 & v & _ & Hs1 & _ & Hbody).
    rewrite run_snoc, Hr. cbn [bind]. rewrite Hbody.
    eexists. split; [reflexivity|].
    destruct Hs1 as [A1 A2]. split; assumption.
Qed.

End Bounded.

(** ** A constant input *)

Lemma firstn_repeat {A : Type} (a : A) (k m : nat) :
  firstn k (repeat a m) = repeat a (Nat.min k m).
Proof.
  revert m. induction k as [|k IH]; intros [|m]; cbn; try reflexivity.
  f_equal. apply IH.
Qed.

Lemma sum_repeat (v : Z) (m : nat) :
  fold_right Z.add 0 (repeat v m) = v * Z.of_nat m.
Proof.
  induction m as [|m IH]; [cbn; lia|].
  cbn [repeat fold_right]. rewrite IH. lia.
Qed.

Lemma wsum_repeat (n v : Z) (k : nat) :
  0 <= n -> wsum n (repeat v k) = v * Z.min n (Z.of_nat k).
Proof.
  intros H. unfold wsum, window.
  rewrite rev_repeat, firstn_repeat, sum_repeat. f_equal. lia.
Qed.

Lemma bounded_by_repeat (v : Z) (k : nat) :
  bounded_by (Z.abs v) (repeat v k).
Proof.
  apply Forall_forall. intros x Hx. apply repeat_spec in Hx. subst. lia.
Qed.

Section Constant.

Variables (v n : Z) (mr : bool) (eb : Z).
Hypothesis Hn : 1 <= n < 2 ^ 53.
Hypothesis Hv : Z.max n 2 * Z.abs v < 2 ^ 53.
Hypothesis He : -968 <= eb <= 970.
Hypothesis Hd : eb < 0 -> (2 ^ (- eb) | v).

Lemma quant_const :
  (inject_Z (quant mr v eb) * pow2 (- eb) == inject_Z v)%Q.
Proof.
  destruct (Z_le_gt_dec 0 eb) as [L|G].
  - rewrite quant_exact by exact L.
    rewrite inject_Z_mult, <- pow2_Z by exact L.
    rewrite <- Qmult_assoc, <- pow2_add.
    replace (eb + - eb) with 0 by lia. change (pow2 0) with 1%Q. ring.
  - destruct (Hd ltac:(lia)) as (c & Hc).
    replace eb with (0 - - eb) at 1 by lia.
    rewrite Hc, quant_scale by lia.
    rewrite quant_exact by lia. change (2 ^ 0) with 1.
    rewrite Z.mul_1_r, inject_Z_mult, <- pow2_Z by lia. reflexivity.
Qed.

(** Once the window is full of [v] the emitted value is [v]. *)
Theorem value_const :
  value_of mr (Float (Z2SF (v * n))) n eb = Ok (Z2SF v).
Proof.
  destruct (Z.eq_dec v 0) as [->|V0].
  - rewrite Z.mul_0_l, Z2SF_0.
    apply (proj2 (value_zero mr (Float fzero) n eb
                    (or_intror eq_refl) ltac:(lia)));
      unfold emin; lia.
  - assert (Hv1 : Z.abs v < 2 ^ 53) by nia.
    assert (Hvn : Z.abs (v * n) < 2 ^ 53) by (rewrite Z.abs_mul; nia).
    assert (Rv : repr v 0) by (apply repr_int; assumption).
    assert (Hm : mean (Float (Z2SF (v * n))) n = Ok (dyadic v 0)).
    { rewrite mean_float by exact Hn. f_equal.
      rewrite !Z2SF_dyadic. apply fdiv_dyadic;
        [apply repr_int; [nia|exact Hvn]|apply repr_int; lia|exact Rv|].
      change (pow2 0) with 1%Q. rewrite inject_Z_mult. ring. }
    rewrite (emit_exact mr _ n v 0 eb Hm Rv ltac:(lia) He).
    f_equal. rewrite Z2SF_dyadic. apply dyadic_eq.
    change (0 + eb) with eb. rewrite quant_const.
    change (pow2 0) with 1%Q. ring.
Qed.

(** The run on [k] copies of [v]: it returns, the accumulator holds the
    sum of the window, and every output from index [n - 1] on is [v]. *)
Theorem run_const (k : nat) :
  exists st,
    run (repeat v k) n mr eb = Ok st
    /\ state_after n (repeat v k) st
    /\ length (result st) = k
    /\ (forall i, n - 1 <= Z.of_nat i -> (i < k)%nat ->
                  nth_error (result st) i = Some (Z2SF v)).
Proof.
  induction k as [|k IH].
  - cbn [repeat]. rewrite run_nil, init_ok by lia.
    eexists. split; [reflexivity|]. split; [apply state_after_init; lia|].
    split; [reflexivity|]. intros i _ Hi. lia.
  - destruct IH as (st & Hr & Hs & Hl & Ho).
    assert (Hb : bounded_by (Z.abs v) (repeat v k ++ [v])).
    { rewrite <- repeat_cons. apply (bounded_by_repeat v (S k)). }
    destruct (body_total n (Z.abs v) mr eb Hn Hv He _ v st Hb Hs)
      as (st1 & w & _ & Hs1 & Hw & Hbody).
    cbn [repeat]. rewrite repeat_cons, run_snoc, Hr. cbn [bind].
    rewrite Hbody. eexists. split; [reflexivity|].
    split; [destruct Hs1; split; assumption|].
    cbn [result]. split; [rewrite length_app, Hl; cbn; lia|].
    intros i Hi Hik.
    destruct (Nat.eq_dec i k) as [->|Ne].
    + rewrite nth_error_app2 by lia. rewrite Hl, Nat.sub_diag.
      cbn [nth_error]. f_equal.
      rewrite <- repeat_cons in Hw.
      change (v :: repeat v k) with (repeat v (S k)) in Hw.
      rewrite wsum_repeat in Hw by lia.
      replace (Z.min n (Z.of_nat (S k))) with n in Hw by lia.
      rewrite value_const in Hw. injection Hw as <-. reflexivity.
    + rewrite nth_error_app1 by lia. apply Ho; lia.
Qed.

End Constant.

(** ** [round] gives the nearest integer, ties to even *)

Lemma rne_div_half (m D : Z) :
  0 < D ->
  2 * (rne_div m D * D) = 2 * m + D \/ 2 * (rne_div m D * D) = 2 * m - D ->
  2 * (m mod D) = D.
Proof.
  intros HD H. unfold rne_div in H.
  pose proof (Z.div_mod m D ltac:(lia)) as E.
  pose proof (Z.mod_pos_bound m D HD) as B.
  destruct (2 * (m mod D) ?= D) eqn:C.
  - apply Z.compare_eq_iff in C. exact C.
  - apply Z.compare_lt_iff in C. nia.
  - apply Z.compare_gt_iff in C. nia.
Qed.

Section Nearest.

Variables (m D : Z) (t : Q).
Hypothesis HD : 0 < D.
Hypothesis Ht : (t * inject_Z D == 1)%Q.

Let r := rne_div m D.
Let x : Q := (inject_Z m * t)%Q.

Lemma scale_pos : (0 < t)%Q.
Proof.
  assert (P : (0 < inject_Z D)%Q)
    by (change 0%Q with (inject_Z 0); rewrite <- Zlt_Qlt; exact HD).
  destruct (Qlt_le_dec 0 t) as [L|G]; [exact L|exfalso].
  assert (C : (t * inject_Z D <= 0 * inject_Z D)%Q)
    by (apply Qmult_le_compat_r; [exact G|apply Qlt_le_weak; exact P]).
  rewrite Ht in C. revert C. unfold Qle. cbn. lia.
Qed.

Lemma scale_Z (u v : Z) :
  u * D <= v -> (inject_Z u <= inject_Z v * t)%Q.
Proof.
  intros H. rewrite Zle_Qle, inject_Z_mult in H.
  apply (Qmult_le_compat_r _ _ t) in H;
    [|apply Qlt_le_weak; exact scale_pos].
  rewrite <- Qmult_assoc in H.
  setoid_replace (inject_Z D * t)%Q with 1%Q in H
    by (rewrite Qmult_comm; exact Ht).
  rewrite Qmult_1_r in H. exact H.
Qed.

Lemma scale_Z_inv (u v : Z) :
  (inject_Z u == inject_Z v * t)%Q -> u * D = v.
Proof.
  intros H. apply (proj1 (inject_Z_injective _ _)).
  rewrite inject_Z_mult, H, <- Qmult_assoc.
  setoid_replace (t * inject_Z D)%Q with 1%Q by exact Ht.
  ring.
Qed.

(** [r] is within one half of [m / D] ... *)
Lemma rne_Q_near : (x - (1 # 2) <= inject_Z r <= x + (1 # 2))%Q.
Proof.
  pose proof (rne_div_nearest m D HD) as N. fold r in N.
  assert (U : (inject_Z (2 * r) <= inject_Z (2 * m + D) * t)%Q)
    by (apply scale_Z; lia).
  assert (L : (inject_Z (2 * (- r)) <= inject_Z (- (2 * m - D)) * t)%Q)
    by (apply scale_Z; lia).
  rewrite inject_Z_mult, inject_Z_plus, inject_Z_mult in U.
  rewrite inject_Z_mult, !inject_Z_opp in L.
  unfold Z.sub in L. rewrite inject_Z_plus, inject_Z_opp, inject_Z_mult in L.
  unfold x. set (y := (inject_Z m * t)%Q).
  assert (E1 : ((inject_Z 2 * inject_Z m + inject_Z D) * t
                == 2 * y + 1)%Q).
  { unfold y. rewrite <- Ht. change (inject_Z 2) with 2%Q. ring. }
  assert (E2 : (- (inject_Z 2 * inject_Z m + - inject_Z D) * t
                == - (2 * y) + 1)%Q).
  { unfold y. rewrite <- Ht. change (inject_Z 2) with 2%Q. ring. }
  rewrite E1 in U. rewrite E2 in L.
  change (inject_Z 2) with 2%Q in *. split; lra.
Qed.

(** ... and is even when it is exactly one half away. *)
Lemma rne_Q_tie :
  (inject_Z r == x + (1 # 2))%Q \/ (inject_Z r == x - (1 # 2))%Q ->
  Z.even r = true.
Proof.
  intros H. apply rne_div_tie; [exact HD|].
  apply rne_div_half; [exact HD|]. fold r.
  destruct H as [H|H]; [left|right].
  - replace (2 * (r * D)) with (2 * r * D) by ring.
    apply scale_Z_inv.
    rewrite inject_Z_mult, inject_Z_plus, inject_Z_mult, H.
    change (inject_Z 2) with 2%Q.
    setoid_replace ((2 * inject_Z m + inject_Z D) * t)%Q
      with (2 * x + t * inject_Z D)%Q by (unfold x; ring).
    rewrite Ht. ring.
  - replace (2 * (r * D)) with (2 * r * D) by ring.
    apply scale_Z_inv. unfold Z.sub.
    rewrite inject_Z_mult, inject_Z_plus, inject_Z_opp, inject_Z_mult, H.
    change (inject_Z 2) with 2%Q.
    setoid_replace ((2 * inject_Z m + - inject_Z D) * t)%Q
      with (2 * x - t * inject_Z D)%Q by (unfold x; ring).
    rewrite Ht. ring.
Qed.

End Nearest.

Theorem py_round_nearest (y : float) (k : Z) :
  py_round y = Ok k ->
  (SF2Q y - (1 # 2) <= inject_Z k <= SF2Q y + (1 # 2))%Q
  /\ ((inject_Z k == SF2Q y + (1 # 2))%Q
      \/ (inject_Z k == SF2Q y - (1 # 2))%Q -> Z.even k = true).
Proof.
  destruct y as [s|s| |s m e]; cbn [py_round]; try discriminate;
    intros H; injection H as <-.
  - cbn [SF2Q]. change (inject_Z 0) with 0%Q.
    split; [split; lra|]. intros [H|H]; lra.
  - cbn [SF2Q]. destruct (Z.leb_spec 0 e) as [L|L].
    + rewrite inject_Z_mult, <- pow2_Z by exact L.
      set (v := (inject_Z (smant s m) * pow2 e)%Q).
      split; [split; lra|]. intros [H|H]; lra.
    + assert (HD : 0 < 2 ^ (- e)) by (apply Z.pow_pos_nonneg; lia).
      pose proof (pow2_neg_inv e ltac:(lia)) as Ht.
      pose proof (rne_Q_near (Zpos m) _ _ HD Ht) as N.
      pose proof (rne_Q_tie (Zpos m) _ _ HD Ht) as T.
      cbv zeta in N, T.
      set (r := rne_div (Zpos m) (2 ^ (- e))) in *.
      set (x := (inject_Z (Zpos m) * pow2 e)%Q) in *.
      destruct s; cbn [cond_Zopp smant].
      * change (inject_Z (- Zpos m)) with (- inject_Z (Zpos m))%Q.
        setoid_replace (- inject_Z (Zpos m) * pow2 e)%Q with (- x)%Q
          by (unfold x; ring).
        rewrite inject_Z_opp, Z.even_opp.
        split; [split; lra|]. intros [H|H]; apply T; [right|left]; lra.
      * fold x. split; [exact N|exact T].
Qed.

Lemma py_round_total (y : float) :
  is_finite y = true -> exists k, py_round y = Ok k.
Proof.
  destruct y; cbn; try discriminate; intros _; eexists; reflexivity.
Qed.

(** ** A quotient beyond the binary64 range *)

Section DivisionOverflow.

Variables (sx sy : bool) (mx my : positive) (ex ey : Z).

Let X : Q := (inject_Z (Zpos mx) * pow2 ex)%Q.
Let Y : Q := (inject_Z (Zpos my) * pow2 ey)%Q.

Hypothesis Big : (inject_Z (2 ^ 1024) * Y <= X)%Q.

Lemma divisor_pos : (0 < Y)%Q.
Proof.
  unfold Y. apply Qmult_lt_0_compat; [|apply pow2_pos].
  change 0%Q with (inject_Z 0). rewrite <- Zlt_Qlt. lia.
Qed.

Theorem fdiv_overflow :
  fdiv (S754_finite sx mx ex) (S754_finite sy my ey)
  = S754_infinity (xorb sx sy).
Proof.
  destruct (fdiv_nearest sx sy mx my ex ey)
    as (M & E0 & -> & ((M0 & M1) & HE & HN) & _ & H2 & _).
  fold X Y in H2. pose proof divisor_pos as PY.
  assert (Key : forall e1, 0 <= e1 -> E0 <= e1 ->
                  2 ^ 1025 <= (2 * M + 1) * 2 ^ e1).
  { intros e1 P1 L1.
    pose proof (pow2_le E0 e1 L1) as Lt.
    rewrite (pow2_Z e1 P1) in Lt.
    assert (U : (pow2 E0 * Y <= inject_Z (2 ^ e1) * Y)%Q)
      by (apply Qmult_le_compat_r; [exact Lt|apply Qlt_le_weak; exact PY]).
    assert (W : (inject_Z (2 * M + 1) * (pow2 E0 * Y)
                 <= inject_Z (2 * M + 1) * (inject_Z (2 ^ e1) * Y))%Q).
    { apply Qmult_le_l; [|exact U].
      change 0%Q with (inject_Z 0). rewrite <- Zlt_Qlt. lia. }
    assert (V : (inject_Z (2 ^ 1025) * Y
                 <= inject_Z ((2 * M + 1) * 2 ^ e1) * Y)%Q).
    { rewrite (inject_Z_mult (2 * M + 1)), <- Qmult_assoc.
      apply Qle_trans with (2 := W).
      rewrite inject_Z_plus. change (inject_Z 1) with 1%Q.
      change (2 ^ 1025) with (2 * 2 ^ 1024).
      rewrite (inject_Z_mult 2 (2 ^ 1024)).
      set (u := (pow2 E0 * Y)%Q) in *.
      set (c := inject_Z (2 ^ 1024)) in *.
      set (m2 := inject_Z (2 * M)) in *.
      change (inject_Z 2) with 2%Q in *.
      assert (c * Y <= X)%Q by exact Big.
      setoid_replace (2 * c * Y)%Q with (2 * (c * Y))%Q by ring.
      setoid_replace ((m2 + 1) * u)%Q with (m2 * u + u)%Q by ring.
      lra. }
    apply Qmult_le_r in V; [|exact PY].
    rewrite <- Zle_Qle in V. exact V. }
  assert (G : 971 <= E0).
  { destruct (Z_le_gt_dec 971 E0) as [G|L]; [exact G|exfalso].
    pose proof (Key 970 ltac:(lia) ltac:(lia)) as K.
    change (2 ^ 1025) with (2 ^ 55 * 2 ^ 970) in K.
    assert (0 < 2 ^ 970) by (apply Z.pow_pos_nonneg; lia). nia. }
  assert (T : E0 = 971 -> M = 2 ^ 53).
  { intros ->. pose proof (Key 971 ltac:(lia) ltac:(lia)) as K.
    change (2 ^ 1025) with (2 ^ 54 * 2 ^ 971) in K.
    assert (0 < 2 ^ 971) by (apply Z.pow_pos_nonneg; lia). nia. }
  assert (Nz : M <> 0).
  { destruct HN as [HN|HN]; [unfold emin in HN; lia|lia]. }
  unfold encode. change (emax - prec) with 971.
  change (2 ^ prec) with (2 ^ 53).
  destruct (Z.eqb_spec M 0); [contradiction|].
  destruct (Z.eqb_spec M (2 ^ 53)).
  - destruct (Z.leb_spec (E0 + 1) 971); [lia|reflexivity].
  - destruct (Z.leb_spec E0 971); [|reflexivity].
    exfalso. apply n0. apply T. lia.
Qed.

End DivisionOverflow.

(** ** The last division on a small integer *)

Theorem final_small (K eb : Z) :
  Z.abs K < 2 ^ 53 -> emin <= eb <= 1023 ->
  py_truediv (Int K) (pow2_num eb) = Ok (final_value K eb).
Proof.
  intros HK He. unfold final_value.
  destruct (Z.eqb_spec K 0) as [->|K0].
  - apply (proj2 (final_zero eb)). lia.
  - pose proof (Zdigits2_lt_pow2 K 53 ltac:(lia) HK) as Hd.
    destruct (Z.leb_spec (Zdigits2 K - eb) 1024) as [L|G].
    + assert (R : repr K (- eb))
        by (unfold repr, emin in *; repeat split; lia).
      apply final_exact; [exact K0|exact R|exact He| |intros _; exact HK].
      rewrite <- Qmult_assoc, <- pow2_add.
      replace (- eb + eb) with 0 by lia. change (pow2 0) with 1%Q. ring.
    + assert (Hneg : eb < 0) by lia.
      unfold pow2_num. destruct (Z.leb_spec 0 eb); [lia|].
      cbn [py_truediv to_float]. rewrite (Z2SF_finite K HK). cbn [bind].
      assert (R1 : repr 1 eb) by (apply repr_pow2; lia).
      assert (RK : repr K 0) by (apply repr_int; assumption).
      rewrite fpow2_dyadic, (dyadic_repr 1 eb R1).
      rewrite Z2SF_dyadic, (dyadic_repr K 0 RK). f_equal.
      change (sign_of 1) with false.
      rewrite <- (xorb_false_r (sign_of K)) at 2.
      apply fdiv_overflow.
      pose proof (repr_abs_value 1 eb R1) as V1.
      pose proof (repr_abs_value K 0 RK) as VK.
      cbv zeta in V1, VK. rewrite V1, VK.
      change (inject_Z (Z.abs 1)) with 1%Q. change (pow2 0) with 1%Q.
      rewrite Qmult_1_l, Qmult_1_r.
      rewrite <- (pow2_Z 1024) by lia. rewrite <- pow2_add.
      pose proof (Zdigits2_bounds (Z.abs K) ltac:(lia)) as [B _].
      pose proof (Zdigits2_pos (Z.abs K) ltac:(lia)) as Dp.
      rewrite Zdigits2_abs in B, Dp.
      apply Qle_trans with (pow2 (Zdigits2 K - 1)).
      * apply pow2_le. lia.
      * rewrite (pow2_Z (Zdigits2 K - 1)) by lia.
        rewrite <- Zle_Qle. exact B.
Qed.

Lemma final_value_cases (K eb : Z) :
  Z.abs K < 2 ^ 53 -> emin <= eb <= 1023 ->
  (is_finite (final_value K eb) = true
   /\ (SF2Q (final_value K eb) == inject_Z K * pow2 (- eb))%Q
   /\ (K = 0 \/ Zdigits2 K - eb <= 1024))
  \/ (final_value K eb = S754_infinity (sign_of K)
      /\ K <> 0 /\ 1024 < Zdigits2 K - eb).
Proof.
  intros HK He. unfold final_value.
  destruct (Z.eqb_spec K 0) as [->|K0].
  - left. split; [reflexivity|]. split; [|left; reflexivity].
    cbn [SF2Q fzero]. change (inject_Z 0) with 0%Q. ring.
  - pose proof (Zdigits2_lt_pow2 K 53 ltac:(lia) HK) as Hd.
    destruct (Z.leb_spec (Zdigits2 K - eb) 1024) as [L|G].
    + left. assert (R : repr K (- eb))
        by (unfold repr, emin in *; repeat split; lia).
      split; [rewrite (dyadic_repr K (- eb) R); reflexivity|].
      split; [apply dyadic_value; exact R|right; exact L].
    + right. repeat split; [exact K0|lia].
Qed.

Lemma final_value_valid (K eb : Z) : valid (final_value K eb).
Proof.
  unfold final_value. destruct (K =? 0); [reflexivity|].
  destruct (Zdigits2 K - eb <=? 1024); [apply valid_dyadic|reflexivity].
Qed.

Lemma fle_pinf (x : float) :
  x <> S754_nan -> fle x (S754_infinity false) = true.
Proof. destruct x as [[]|[]| |[]]; intros H; try reflexivity; contradiction. Qed.

Lemma fle_ninf (x : float) :
  x <> S754_nan -> fle (S754_infinity true) x = true.
Proof. destruct x as [[]|[]| |[]]; intros H; try reflexivity; contradiction. Qed.

Lemma finite_not_nan (x : float) : is_finite x = true -> x <> S754_nan.
Proof. intros H ->. discriminate. Qed.

Lemma sign_of_pos (K : Z) : 0 < K -> sign_of K = false.
Proof. intros H. apply Z.ltb_ge. lia. Qed.

Lemma sign_of_neg (K : Z) : K < 0 -> sign_of K = true.
Proof. intros H. apply Z.ltb_lt. exact H. Qed.

Lemma Zdigits2_abs_le (a b : Z) :
  Z.abs a <= Z.abs b -> Zdigits2 a <= Zdigits2 b.
Proof.
  intros H. rewrite <- (Zdigits2_abs a), <- (Zdigits2_abs b).
  apply Zdigits2_le. lia.
Qed.

(** The last division is monotone. *)
Theorem final_value_le (K1 K2 eb : Z) :
  K1 <= K2 -> Z.abs K1 < 2 ^ 53 -> Z.abs K2 < 2 ^ 53 ->
  emin <= eb <= 1023 ->
  fle (final_value K1 eb) (final_value K2 eb) = true.
Proof.
  intros HK H1 H2 He.
  destruct (final_value_cases K1 eb H1 He) as [(F1 & V1 & C1)|(I1 & N1 & O1)];
    destruct (final_value_cases K2 eb H2 He)
      as [(F2 & V2 & C2)|(I2 & N2 & O2)].
  - apply fle_Q; try assumption; try apply final_value_valid.
    rewrite V1, V2. apply Qmult_le_compat_r;
      [rewrite <- Zle_Qle; exact HK|apply Qlt_le_weak, pow2_pos].
  - rewrite I2. destruct (Z_lt_le_dec 0 K2) as [P|P].
    + rewrite (sign_of_pos K2 P). apply fle_pinf, finite_not_nan, F1.
    + exfalso. pose proof (Zdigits2_abs_le K2 K1 ltac:(lia)).
      destruct C1 as [C1|C1]; lia.
  - rewrite I1. destruct (Z_lt_le_dec K1 0) as [P|P].
    + rewrite (sign_of_neg K1 P). apply fle_ninf, finite_not_nan, F2.
    + exfalso. pose proof (Zdigits2_abs_le K1 K2 ltac:(lia)).
      destruct C2 as [C2|C2]; lia.
  - rewrite I1, I2. destruct (Z_lt_le_dec K1 0) as [P|P].
    + rewrite (sign_of_neg K1 P). apply fle_ninf. discriminate.
    + rewrite (sign_of_pos K2 ltac:(lia)). apply fle_pinf. discriminate.
Qed.

(** ** Truncation never exceeds rounding *)

Lemma floor_le_rne (z e : Z) : floor_dy z e <= rne_dy z e.
Proof.
  unfold floor_dy, rne_dy. destruct (Z.leb_spec 0 e) as [L|L]; [lia|].
  set (D := 2 ^ (- e)).
  assert (HD : 0 < D) by (apply Z.pow_pos_nonneg; lia).
  pose proof (rne_div_bounds (Z.abs z) D HD) as B.
  pose proof (Z.div_mod (Z.abs z) D ltac:(lia)) as Em.
  pose proof (Z.mod_pos_bound (Z.abs z) D HD) as Bm.
  pose proof (Z.mul_div_le z D HD) as Fl.
  pose proof (Z.mul_succ_div_gt z D HD) as Fu.
  destruct (Z_lt_le_dec z 0) as [N|P].
  - rewrite (sign_of_neg z N). cbn [cond_Zopp].
    set (r := rne_div (Z.abs z) D) in *.
    assert (Hr : r * D < Z.abs z + D).
    { destruct (Z.eq_dec (Z.abs z mod D) 0) as [Z0|NZ].
      - assert (Ex : r = Z.abs z / D).
        { unfold r. rewrite Em at 1. rewrite Z0, Z.add_0_r, Z.mul_comm.
          apply rne_div_exact. exact HD. }
        nia.
      - nia. }
    nia.
  - assert (S : sign_of z = false) by (apply Z.ltb_ge; lia).
    rewrite S. cbn [cond_Zopp].
    assert (Ez : Z.abs z = z) by lia. rewrite Ez in *. lia.
Qed.

Lemma mean_valid (a : num) (n : Z) (q : float) :
  mean a n = Ok q -> valid q.
Proof.
  destruct a as [z|f]; cbn [mean].
  - unfold int_truediv. destruct (n =? 0); [discriminate|].
    pose proof (valid_fdiv (Z2raw z) (Z2raw n)) as V.
    destruct (fdiv (Z2raw z) (Z2raw n)); try discriminate;
      intros E; injection E as <-; exact V.
  - unfold np_truediv. destruct (to_float (Int n)) as [y|]; [|discriminate].
    cbn [bind]. intros E. injection E as <-. apply valid_fdiv.
Qed.

Lemma pow_valid (eb : Z) (p : float) :
  to_float (pow2_num eb) = Ok p -> valid p /\ eb <= 1023.
Proof.
  intros H. split.
  - apply (valid_to_float (pow2_num eb)); [|exact H].
    intros g Hg. unfold pow2_num in Hg.
    destruct (0 <=? eb); [discriminate|].
    injection Hg as <-. rewrite fpow2_dyadic. apply valid_dyadic.
  - destruct (Z_le_gt_dec eb 1023) as [L|G]; [exact L|].
    rewrite to_float_pow2_overflow in H by lia. discriminate.
Qed.

Lemma scaled_valid (a : num) (n eb : Z) (y : float) :
  scaled a n eb = Ok y -> valid y /\ eb <= 1023.
Proof.
  unfold scaled. destruct (mean a n) as [q|] eqn:Q; [|discriminate].
  cbn [bind].
  destruct (py_pow2 eb) as [pw|] eqn:W; [|discriminate].
  apply py_pow2_value in W. subst pw. cbn [bind].
  destruct (to_float (pow2_num eb)) as [p|] eqn:P; [|discriminate].
  cbn [bind]. intros E. injection E as <-.
  destruct (pow_valid eb p P) as [Vp Le].
  split; [|exact Le].
  apply valid_fmul; [exact (mean_valid a n q Q)|exact Vp].
Qed.

(** When the scaled value is returned, the power has been computed. *)
Lemma scaled_pow (a : num) (n eb : Z) (y : float) :
  scaled a n eb = Ok y -> py_pow2 eb = Ok (pow2_num eb).
Proof.
  unfold scaled. destruct (mean a n) as [q|]; [|discriminate].
  cbn [bind].
  destruct (py_pow2 eb) as [pw|] eqn:W; [|discriminate].
  intros _. f_equal. apply py_pow2_value. exact W.
Qed.

Lemma Z2raw_finite (K : Z) : is_finite (Z2raw K) = true.
Proof. destruct K; reflexivity. Qed.

Lemma Z2SF_not_nan (K : Z) : Z2SF K <> S754_nan.
Proof.
  unfold Z2SF. destruct K as [|p|p]; [discriminate| |];
    cbn [binary_normalize];
    [destruct (binary_round_rounded false p 0) as (M & E & -> & _)
    |destruct (binary_round_rounded true p 0) as (M & E & -> & _)];
    apply encode_not_nan.
Qed.

(** The emitted value is never a NaN. *)
Lemma final_not_nan (K eb : Z) (v : float) :
  py_truediv (Int K) (pow2_num eb) = Ok v -> v <> S754_nan.
Proof.
  unfold pow2_num. destruct (Z.leb_spec 0 eb) as [L|L]; cbn [py_truediv].
  - unfold int_truediv. destruct (2 ^ eb =? 0); [discriminate|].
    assert (P : 0 < 2 ^ eb) by (apply Z.pow_pos_nonneg; lia).
    destruct (2 ^ eb) as [|p|p] eqn:E; try lia. cbn [Z2raw].
    pose proof (fdiv_finite_not_nan (Z2raw K) false p 0 (Z2raw_finite K))
      as N.
    destruct (fdiv (Z2raw K) (S754_finite false p 0)); try discriminate;
      intros H; injection H as <-; exact N.
  - cbn [to_float]. unfold float_of_int.
    pose proof (Z2SF_not_nan K) as NK.
    assert (F : forall x, is_finite x = true ->
              (y <- Ok (fpow2 eb) ;;
               match y with
               | S754_zero _ => Raise ZeroDivisionError
               | _ => Ok (fdiv x y)
               end) = Ok v -> v <> S754_nan).
    { intros x Fx. cbn [bind].
      destruct (fpow2_shape eb) as [E|[(m' & e' & E)|E]]; rewrite E.
      - discriminate.
      - intros H. injection H as <-. apply fdiv_finite_not_nan. exact Fx.
      - intros H. injection H as <-.
        destruct x as [sx|sx| |sx mx ex]; try discriminate Fx; discriminate. }
    destruct (Z2SF K) as [s|s| |s m e] eqn:EK; cbn [bind].
    + apply F. reflexivity.
    + discriminate.
    + contradiction.
    + apply F. reflexivity.
Qed.

Lemma final_refl (K eb : Z) :
  res_agree (fun u v => fle u v = true)
    (py_truediv (Int K) (pow2_num eb)) (py_truediv (Int K) (pow2_num eb)).
Proof.
  destruct (py_truediv (Int K) (pow2_num eb)) as [v|] eqn:E; cbn.
  - apply fle_refl. exact (final_not_nan K eb v E).
  - reflexivity.
Qed.

Lemma final_le (K1 K2 eb : Z) :
  K1 <= K2 -> Z.abs K1 < 2 ^ 53 -> Z.abs K2 < 2 ^ 53 -> eb <= 1023 ->
  res_agree (fun u v => fle u v = true)
    (py_truediv (Int K1) (pow2_num eb)) (py_truediv (Int K2) (pow2_num eb)).
Proof.
  intros HK H1 H2 He. destruct (Z_le_gt_dec emin eb) as [L|G].
  - rewrite !final_small by (assumption || lia). cbn.
    apply final_value_le; (assumption || lia).
  - unfold pow2_num. destruct (Z.leb_spec 0 eb); [unfold emin in G; lia|].
    cbn [py_truediv to_float].
    rewrite !Z2SF_finite by assumption. cbn [bind].
    rewrite fpow2_underflow by lia. reflexivity.
Qed.

(** For one accumulator value, the two modes raise alike or emit ordered
    values. *)
Theorem value_of_le (a : num) (n eb : Z) :
  res_agree (fun u v => fle u v = true)
    (value_of false a n eb) (value_of true a n eb).
Proof.
  unfold value_of.
  destruct (scaled a n eb) as [y|] eqn:Y; [|reflexivity]. cbn [bind].
  rewrite (scaled_pow a n eb y Y).
  destruct (scaled_valid a n eb y Y) as [V Le].
  destruct y as [s|s| |s m e]; try reflexivity.
  - rewrite !quantize_zero. cbn [bind]. apply final_refl.
  - unfold valid in V. cbn [valid_binary] in V.
    rewrite (quantize_floor s m e V), quantize_round. cbn [bind].
    destruct (Z.leb_spec 0 e) as [P|N].
    + replace (rne_dy (smant s m) e) with (floor_dy (smant s m) e).
      * apply final_refl.
      * unfold rne_dy, floor_dy. destruct (Z.leb_spec 0 e); [reflexivity|lia].
    + destruct (bounded_inv m e V) as (_ & _ & Hm & _).
      pose proof (quant_small false (smant s m) e N) as S1.
      pose proof (quant_small true (smant s m) e N) as S2.
      cbn [quant] in S1, S2. rewrite abs_smant in S1, S2.
      apply final_le; [apply floor_le_rne|lia|lia|exact Le].
Qed.

(** ** The two modes, sample by sample *)

Lemma update_same (R : float -> float -> Prop) (s1 s2 : state) (x : Z) :
  same_window R s1 s2 ->
  res_agree (same_window R) (update s1 x) (update s2 x).
Proof.
  destruct s1 as [r1 a1 o1], s2 as [r2 a2 o2].
  intros (Hr & Ha & Ho). cbn [sreg acc result] in *. subst r2 a2.
  unfold update. cbn [sreg acc result].
  destruct (deque_pop r1) as [[old rest]|]; [|reflexivity]. cbn [bind].
  destruct (py_sub (Int x) old) as [d|]; [|reflexivity]. cbn [bind].
  destruct (py_add a1 d) as [a'|]; [|reflexivity]. cbn [bind res_agree].
  repeat split. exact Ho.
Qed.

Lemma body_le (n eb : Z) (s1 s2 : state) (x : Z) :
  same_window (fun u v => fle u v = true) s1 s2 ->
  res_agree (same_window (fun u v => fle u v = true))
    (body n false eb s1 x) (body n true eb s2 x).
Proof.
  intros H. unfold body. pose proof (update_same _ s1 s2 x H) as U.
  destruct (update s1 x) as [u1|e1], (update s2 x) as [u2|e2];
    cbn [res_agree] in U; try contradiction; [|exact U].
  cbn [bind]. destruct U as (Hr & Ha & Ho). rewrite Ha.
  pose proof (value_of_le (acc u2) n eb) as V.
  destruct (value_of false (acc u2) n eb) as [v1|],
           (value_of true (acc u2) n eb) as [v2|];
    cbn [res_agree] in V; try contradiction; [|exact V].
  cbn [bind res_agree]. unfold same_window. cbn [sreg acc result].
  split; [exact Hr|]. split; [reflexivity|].
  apply Forall2_app; [exact Ho|]. constructor; [exact V|constructor].
Qed.

Lemma loop_le (n eb : Z) (l : list Z) :
  forall s1 s2,
    same_window (fun u v => fle u v = true) s1 s2 ->
    res_agree (same_window (fun u v => fle u v = true))
      (foldM (body n false eb) l s1) (foldM (body n true eb) l s2).
Proof.
  induction l as [|x l IH]; intros s1 s2 H; cbn [foldM].
  - exact H.
  - pose proof (body_le n eb s1 s2 x H) as B.
    destruct (body n false eb s1 x) as [t1|], (body n true eb s2 x) as [t2|];
      cbn [res_agree] in B; try contradiction; [|exact B].
    cbn [bind]. apply IH. exact B.
Qed.

Theorem truncate_le_round (samples : list Z) (n eb : Z) :
  res_rel (fun u v => fle u v = true)
    (fpga_moving_integrator samples n false eb)
    (fpga_moving_integrator samples n true eb).
Proof.
  unfold res_rel, fpga_moving_integrator, run, init.
  destruct (np_zeros n) as [z|]; [|reflexivity]. cbn [bind].
  set (st := mkState z (Int 0) []).
  assert (H : same_window (fun u v => fle u v = true) st st).
  { split; [reflexivity|]. split; [reflexivity|]. constructor. }
  pose proof (loop_le n eb samples st st H) as L.
  destruct (foldM (body n false eb) samples st) as [t1|],
           (foldM (body n true eb) samples st) as [t2|];
    cbn [res_agree] in L; try contradiction; [|exact L].
  cbn [bind res_agree]. exact (proj2 (proj2 L)).
Qed.

(** ** The floor of the rounded quotient *)

(** Two fractions within half a unit of the finer denominator have the
    same floor. *)
Lemma div_coincide (u G P n : Z) :
  0 < n -> n < 2 * G ->
  Z.abs (2 * (u * n) - 2 * (P * G)) <= n ->
  u / G = P / n.
Proof.
  intros Hn HG H. assert (G0 : 0 < G) by lia.
  apply Z.le_antisymm.
  - apply Z.div_le_lower_bound; [exact Hn|].
    pose proof (Z.mul_div_le u G G0) as F. set (W := u / G) in *.
    destruct (Z_le_gt_dec (n * W) P) as [L|C]; [exact L|exfalso].
    assert (2 * G * (n * W - P) <= n) by nia.
    assert (2 * G * 1 <= 2 * G * (n * W - P))
      by (apply Z.mul_le_mono_nonneg_l; lia).
    lia.
  - apply Z.div_le_lower_bound; [exact G0|].
    pose proof (Z.mul_div_le P n Hn) as F. set (W := P / n) in *.
    destruct (Z_le_gt_dec (G * W) u) as [L|C]; [exact L|exfalso].
    assert (2 * n * (G * W - u) <= n) by nia.
    assert (2 * n * 1 <= 2 * n * (G * W - u))
      by (apply Z.mul_le_mono_nonneg_l; lia).
    lia.
Qed.

Lemma floor_dy_nonpos (z e : Z) : e <= 0 -> floor_dy z e = z / 2 ^ (- e).
Proof.
  intros H. unfold floor_dy. destruct (Z.leb_spec 0 e); [|reflexivity].
  replace e with 0 by lia. cbn. rewrite Z.div_1_r. lia.
Qed.

Lemma cond_Zopp_sign (a : Z) : cond_Zopp (sign_of a) (Z.abs a) = a.
Proof.
  unfold sign_of. destruct (Z.ltb_spec a 0); cbn [cond_Zopp]; lia.
Qed.

Lemma cond_Zopp_mul (s : bool) (x y : Z) :
  cond_Zopp s x * y = cond_Zopp s (x * y).
Proof. destruct s; cbn [cond_Zopp]; lia. Qed.

Lemma cond_Zopp_abs (s : bool) (x : Z) : Z.abs (cond_Zopp s x) = Z.abs x.
Proof. destruct s; cbn [cond_Zopp]; lia. Qed.

Section Coincide.

Variables (a n eb M E0 : Z).
Hypothesis Ha : a <> 0.
Hypothesis Hn : 1 <= n.
Hypothesis Hs : Z.abs a * 2 ^ Z.max eb 0 < 2 ^ 53.
Hypothesis HE : E0 <= 0.
Hypothesis Near : Z.abs (2 * (M * n) - 2 * (Z.abs a * 2 ^ (- E0))) <= n.
Hypothesis Norm : 2 ^ 52 * n <= Z.abs a * 2 ^ (- E0).

Let A := Z.abs a.
Let g := 2 ^ (- E0).
Let pp := 2 ^ Z.max eb 0.
Let pm := 2 ^ Z.max (- eb) 0.

Lemma coincide_exp : E0 + eb <= 0.
Proof.
  destruct (Z_le_gt_dec (E0 + eb) 0) as [L|G]; [exact L|exfalso].
  assert (P : 0 <= eb) by lia.
  replace (Z.max eb 0) with eb in Hs by lia.
  assert (2 ^ (- E0 + 1) <= 2 ^ eb) by (apply Z.pow_le_mono_r; lia).
  rewrite Z.pow_add_r in H by lia. change (2 ^ 1) with 2 in H.
  assert (0 < 2 ^ (- E0)) by (apply Z.pow_pos_nonneg; lia).
  nia.
Qed.

Lemma coincide_scale : g * pm = 2 ^ (- (E0 + eb)) * pp.
Proof.
  pose proof coincide_exp as L. unfold g, pm, pp.
  rewrite <- !Z.pow_add_r by lia. f_equal. lia.
Qed.

(** The floor of the rounded quotient, scaled by [2^eb], is the floor
    of the exact scaled quotient. *)
Theorem floor_coincide :
  floor_dy (cond_Zopp (sign_of a) M) (E0 + eb) = (a * pp) / (n * pm).
Proof.
  pose proof coincide_exp as L. pose proof coincide_scale as Sc.
  rewrite floor_dy_nonpos by exact L.
  set (G := 2 ^ (- (E0 + eb))) in *.
  assert (G0 : 0 < G) by (apply Z.pow_pos_nonneg; lia).
  assert (Pp : 0 < pp) by (apply Z.pow_pos_nonneg; lia).
  assert (Pm : 0 < pm) by (apply Z.pow_pos_nonneg; lia).
  assert (Pg : 0 < g) by (apply Z.pow_pos_nonneg; lia).
  fold A g in Near, Norm. fold A pp in Hs.
  apply div_coincide.
  - nia.
  - (* n * pm < 2 * G *)
    assert (2 ^ 52 * (n * pm) * pp <= (A * pp) * (G * pp)).
    { replace ((A * pp) * (G * pp)) with (A * (G * pp) * pp) by ring.
      rewrite <- Sc. nia. }
    assert ((A * pp) * (G * pp) < 2 ^ 53 * (G * pp)) by nia.
    nia.
  - rewrite <- (cond_Zopp_sign a) at 2. fold A.
    rewrite !cond_Zopp_mul, <- (Z.mul_assoc A pp G), (Z.mul_comm pp G).
    rewrite <- Sc.
    replace (A * (g * pm)) with (A * g * pm) by ring.
    replace (M * (n * pm)) with (M * n * pm) by ring.
    assert (Z.abs (2 * (M * n * pm) - 2 * (A * g * pm)) <= n * pm).
    { replace (2 * (M * n * pm) - 2 * (A * g * pm))
        with ((2 * (M * n) - 2 * (A * g)) * pm) by ring.
      rewrite Z.abs_mul, (Z.abs_eq pm) by lia. nia. }
    destruct (sign_of a); cbn [cond_Zopp]; lia.
Qed.

End Coincide.

(** ** The specification's formula *)

Lemma spec_truncate_comp (a b : Q) (n eb : Z) :
  (a == b)%Q -> (spec_truncate a n eb == spec_truncate b n eb)%Q.
Proof.
  intros H. unfold spec_truncate.
  assert (E : Qfloor (a / inject_Z n * pow2 eb)
              = Qfloor (b / inject_Z n * pow2 eb))
    by (apply Qfloor_comp; rewrite H; reflexivity).
  rewrite E. reflexivity.
Qed.

Lemma pow2_ratio (eb : Z) :
  (pow2 eb == inject_Z (2 ^ Z.max eb 0) / inject_Z (2 ^ Z.max (- eb) 0))%Q.
Proof.
  destruct (Z_le_gt_dec 0 eb) as [L|G].
  - replace (Z.max eb 0) with eb by lia.
    replace (Z.max (- eb) 0) with 0 by lia.
    rewrite pow2_Z by exact L. change (inject_Z (2 ^ 0)) with 1%Q.
    field.
  - replace (Z.max eb 0) with 0 by lia.
    replace (Z.max (- eb) 0) with (- eb) by lia.
    rewrite <- (pow2_Z (- eb)) by lia.
    change (inject_Z (2 ^ 0)) with 1%Q.
    rewrite <- (Z.opp_involutive eb) at 1. rewrite pow2_opp.
    field. apply pow2_nz.
Qed.

Lemma spec_truncate_Z (a n eb : Z) :
  1 <= n ->
  (spec_truncate (inject_Z a) n eb
   == inject_Z ((a * 2 ^ Z.max eb 0) / (n * 2 ^ Z.max (- eb) 0))
      * pow2 (- eb))%Q.
Proof.
  intros Hn. unfold spec_truncate.
  set (pp := 2 ^ Z.max eb 0). set (pm := 2 ^ Z.max (- eb) 0).
  assert (Pm : 0 < pm) by (apply Z.pow_pos_nonneg; lia).
  assert (Nn : ~ (inject_Z n == 0)%Q).
  { change 0%Q with (inject_Z 0). rewrite inject_Z_injective. lia. }
  assert (Nm : ~ (inject_Z pm == 0)%Q).
  { change 0%Q with (inject_Z 0). rewrite inject_Z_injective. lia. }
  assert (E : Qfloor (inject_Z a / inject_Z n * pow2 eb)
              = (a * pp) / (n * pm)).
  { rewrite Zdiv_Qdiv. apply Qfloor_comp.
    rewrite (pow2_ratio eb). fold pp pm. rewrite !inject_Z_mult.
    field. split; assumption. }
  rewrite E, pow2_opp. reflexivity.
Qed.

Lemma div_abs_le (x d : Z) : 1 <= d -> Z.abs (x / d) <= Z.abs x.
Proof.
  intros H. pose proof (Z.mul_div_le x d ltac:(lia)).
  pose proof (Z.mul_succ_div_gt x d ltac:(lia)). nia.
Qed.

(** In Truncate mode, an accumulator that holds the integer [a] yields
    the specification's value when [|a| * 2^max(eb, 0) < 2^53]. *)
Theorem truncate_exact (a n eb : Z) :
  Z.abs a * 2 ^ Z.max eb 0 < 2 ^ 53 -> 1 <= n < 2 ^ 53 ->
  -968 <= eb <= 970 ->
  exists v,
    value_of false (Float (Z2SF a)) n eb = Ok v
    /\ (SF2Q v == spec_truncate (inject_Z a) n eb)%Q.
Proof.
  intros Hs Hn He.
  assert (Pp : 1 <= 2 ^ Z.max eb 0).
  { assert (0 < 2 ^ Z.max eb 0) by (apply Z.pow_pos_nonneg; lia). lia. }
  assert (Pm : 1 <= 2 ^ Z.max (- eb) 0).
  { assert (0 < 2 ^ Z.max (- eb) 0) by (apply Z.pow_pos_nonneg; lia). lia. }
  destruct (Z.eq_dec a 0) as [->|Ha].
  - exists fzero. split.
    + rewrite Z2SF_0.
      apply (proj2 (value_zero false (Float fzero) n eb
                      (or_intror eq_refl) ltac:(lia)));
        unfold emin; lia.
    + rewrite spec_truncate_Z by lia.
      rewrite Z.mul_0_l, Z.div_0_l by nia. cbn [SF2Q fzero].
      change (inject_Z 0) with 0%Q. ring.
  - assert (Hb : Z.abs a < 2 ^ 53) by nia.
    destruct (value_of_int false a n eb Ha Hb Hn He)
      as (M & E0 & HE & HM & Near & Norm & V).
    eexists. split; [exact V|].
    cbn [quant].
    rewrite (floor_coincide a n eb M E0 Ha ltac:(lia) Hs ltac:(lia)
               Near Norm).
    rewrite spec_truncate_Z by lia.
    set (T := a * 2 ^ Z.max eb 0 / (n * 2 ^ Z.max (- eb) 0)).
    destruct (Z.eq_dec T 0) as [->|T0].
    + rewrite dyadic_0. cbn [SF2Q fzero].
      change (inject_Z 0) with 0%Q. ring.
    + apply dyadic_value.
      assert (HT : Z.abs T < 2 ^ 53).
      { pose proof (div_abs_le (a * 2 ^ Z.max eb 0)
                      (n * 2 ^ Z.max (- eb) 0) ltac:(nia)) as D.
        fold T in D. rewrite Z.abs_mul in D.
        rewrite (Z.abs_eq (2 ^ Z.max eb 0)) in D by lia. lia. }
      pose proof (Zdigits2_lt_pow2 T 53 ltac:(lia) HT).
      unfold repr, emin. repeat split; lia.
Qed.

(** ** The published example *)

(** C2, as stated, fails: on [1..8] with a window of 4, truncation and no
    extra bits, the third output is not 0. *)
Lemma C2_counterexample :
  exists out,
    fpga_moving_integrator [1; 2; 3; 4; 5; 6; 7; 8] 4 false 0 = Ok out
    /\ ~ Forall2 (fun f z => (SF2Q f == inject_Z z)%Q) out
           [0; 0; 0; 2; 3; 4; 5; 6].
Proof.
  eexists. split; [vm_compute; reflexivity|].
  intros H.
  inversion H as [|? ? ? ? _ H1]; subst. clear H.
  inversion H1 as [|? ? ? ? _ H2]; subst. clear H1.
  inversion H2 as [|? ? ? ? H3 _]; subst. clear H2.
  vm_compute in H3. discriminate H3.
Qed.

(** C2, amended: on samples [1..8] with [integration = 4], truncation and
    [extra_bits = 0] the model returns [0, 0, 1, 2, 3, 4, 5, 6] (the third
    accumulator is 6 and [floor(6 / 4) = 1]). *)
Theorem C2_example_output :
  fpga_moving_integrator [1; 2; 3; 4; 5; 6; 7; 8] 4 false 0
  = Ok (map Z2SF [0; 0; 1; 2; 3; 4; 5; 6])
  /\ Forall2 (fun f z => (SF2Q f == inject_Z z)%Q)
       (map Z2SF [0; 0; 1; 2; 3; 4; 5; 6]) [0; 0; 1; 2; 3; 4; 5; 6].
Proof.
  split; [vm_compute; reflexivity|].
  repeat constructor.
Qed.

(** ** A window of length zero *)

(** C4, as stated, fails: with [integration = 0] and no samples the
    streaming model returns the empty list and raises nothing. *)
Lemma C4_counterexample :
  fpga_moving_integrator [] 0 false 0 = Ok [].
Proof. reflexivity. Qed.

(** C4, amended: with [integration = 0], [moving_integrator] always raises
    [ValueError] (the empty kernel is refused by [np.convolve]);
    [fpga_moving_integrator] raises [IndexError] at its first sample (the
    pop from the empty register) and returns the empty list when there is
    no sample. *)
Theorem C4_zero_integration
    (T : Type) (tzero : T) (tadd tmul : T -> T -> T) (recip : Z -> T)
    (xs : list T) (trim : bool)
    (s : Z) (samples : list Z) (math_round : bool) (extra_bits : Z) :
  moving_integrator T tzero tadd tmul recip xs 0 trim = Raise ValueError
  /\ fpga_moving_integrator (s :: samples) 0 math_round extra_bits
     = Raise IndexError
  /\ fpga_moving_integrator [] 0 math_round extra_bits = Ok [].
Proof.
  split; [|split].
  - unfold moving_integrator, np_full. cbn [Z.ltb Z.compare bind].
    change (repeat (recip 0) (Z.to_nat 0)) with (@nil T).
    rewrite np_convolve_empty_r. reflexivity.
  - reflexivity.
  - reflexivity.
Qed.

(** ** The length of the reference output *)

(** C8, as stated, fails: on the samples [2^1024, 1] with a window of 2
    the reference raises [OverflowError] when it converts the first
    sample to a float, with and without trimming. *)
Lemma C8_counterexample :
  [2 ^ 1024; 1] <> [] /\ 1 <= 2
  /\ moving_integrator64 [2 ^ 1024; 1] 2 false = Raise OverflowError
  /\ moving_integrator64 [2 ^ 1024; 1] 2 true = Raise OverflowError.
Proof.
  split; [discriminate|]. split; [lia|].
  split; vm_compute; reflexivity.
Qed.

(** C8, amended: for a non-empty list of samples and
    [1 <= integration < 2^53], when every sample has a magnitude below
    [2^1024 - 2^970] (it converts to a binary64 number) the untrimmed
    reference returns [len(samples) + integration - 1] elements and the
    trimmed one [len(samples)]; when some sample has a magnitude of at
    least [2^1024 - 2^970] both raise [OverflowError]. *)
Theorem C8_reference_length (samples : list Z) (integration : Z) :
  samples <> [] -> 1 <= integration < 2 ^ 53 ->
  (Forall (fun x => Z.abs x < 2 ^ 1024 - 2 ^ 970) samples ->
   (exists out,
       moving_integrator64 samples integration false = Ok out
       /\ Z.of_nat (length out)
          = Z.of_nat (length samples) + integration - 1)
   /\ (exists out,
          moving_integrator64 samples integration true = Ok out
          /\ length out = length samples))
  /\ (Exists (fun x => 2 ^ 1024 - 2 ^ 970 <= Z.abs x) samples ->
      forall trim,
        moving_integrator64 samples integration trim
        = Raise OverflowError).
Proof.
  intros Hs Hn. split.
  - intros Hb. rewrite !moving_integrator64_floats by exact Hb.
    unfold moving_integrator, np_full.
    destruct (Z.ltb_spec integration 0); [lia|]. cbn [bind].
    set (recip := fdiv (Z2SF 1) (Z2SF integration)).
    assert (Hx : map Z2SF samples <> []).
    { destruct samples; [contradiction|discriminate]. }
    assert (Hones : repeat recip (Z.to_nat integration) <> []).
    { destruct (Z.to_nat integration) eqn:E; [lia|]. discriminate. }
    destruct (np_convolve_length float fzero fadd fmul _ _ Hx Hones)
      as (out & Ho & Hl).
    rewrite repeat_length, length_map in Hl.
    rewrite Ho. cbn [bind]. split.
    + exists out. split; [reflexivity|].
      destruct samples; [contradiction|]. cbn [length] in *. lia.
    + eexists. split; [reflexivity|].
      rewrite length_firstn, length_map. lia.
  - intros Hb trim. apply moving_integrator64_overflow; [lia|exact Hb].
Qed.

Lemma C8_reference_length_witness :
  (exists out, moving_integrator64 [1; -2; 3] 2 false = Ok out
               /\ Z.of_nat (length out) = Z.of_nat (length [1; -2; 3]) + 2 - 1)
  /\ (exists out, moving_integrator64 [1; -2; 3] 2 true = Ok out
                  /\ length out = length [1; -2; 3]).
Proof.
  apply (proj1 (C8_reference_length [1; -2; 3] 2
                  ltac:(discriminate) ltac:(lia))).
  repeat (constructor; [vm_compute; reflexivity|]). constructor.
Defined.

(** ** An empty sample array *)

(** C9, as stated, fails: on an empty sample array the reference raises
    instead of returning an empty array. *)
Lemma C9_counterexample :
  moving_integrator64 [] 4 true = Raise ValueError
  /\ moving_integrator64 [] 4 true <> Ok [].
Proof. split; [reflexivity|discriminate]. Qed.

(** C9, amended: for every [integration], [moving_integrator] on an empty
    sample array raises [ValueError] ([np.convolve] refuses an empty
    operand). *)
Theorem C9_empty_samples
    (T : Type) (tzero : T) (tadd tmul : T -> T -> T) (recip : Z -> T)
    (integration : Z) (trim : bool) :
  moving_integrator T tzero tadd tmul recip [] integration trim
  = Raise ValueError.
Proof.
  unfold moving_integrator, np_full.
  destruct (integration <? 0); [reflexivity|]. cbn [bind].
  rewrite np_convolve_empty_l. reflexivity.
Qed.

(** ** The accumulator and the window *)

(** C3, as stated, fails: the accumulator is a binary64 number from the
    first sample on, so on the samples [2^53, 1, 1] with a window of 3 it
    stays at [2^53] while the window holds [2^53 + 2]. *)
Lemma C3_counterexample :
  exists st,
    run [2 ^ 53; 1; 1] 3 false 0 = Ok st
    /\ ~ (num_value (acc st) == window_sum (sreg st))%Q.
Proof.
  eexists. split; [vm_compute; reflexivity|].
  vm_compute. discriminate.
Qed.

(** C3, amended: in every state the loop reaches, for [integration >= 1],
    the register has [integration] cells after the update; and when every
    sample so far has magnitude at most [B] with
    [max(integration, 2) * B < 2^53], the update succeeds and leaves the
    accumulator equal to the sum of the register. *)
Theorem C3_window_invariant
    (p : list Z) (s n : Z) (mr : bool) (eb : Z) (st : state) :
  1 <= n -> run p n mr eb = Ok st ->
  (forall st1, update st s = Ok st1 -> length (sreg st1) = Z.to_nat n)
  /\ (forall B, Z.max n 2 * B < 2 ^ 53 -> bounded_by B (p ++ [s]) ->
        exists st1, update st s = Ok st1
                    /\ (num_value (acc st1) == window_sum (sreg st1))%Q).
Proof.
  intros Hn Hr. split.
  - intros st1 Hu. rewrite (update_length _ _ _ Hu).
    exact (run_length _ _ _ _ _ Hr).
  - intros B HB Hb.
    destruct (bounded_by_app _ _ _ Hb) as [Hp _].
    pose proof (run_state_after n B mr eb Hn HB p st Hp Hr) as Hs.
    destruct (update_exact n B Hn HB p s st Hb Hs) as (st1 & Hu & Hs1 & _).
    exists st1. split; [exact Hu|].
    exact (proj1 (state_after_sum n B _ _ Hn HB Hb Hs1)).
Qed.

Lemma C3_window_invariant_witness :
  exists st,
    run [1; 2] 2 false 0 = Ok st
    /\ (forall st1, update st 3 = Ok st1 -> length (sreg st1) = 2%nat)
    /\ (forall B, Z.max 2 2 * B < 2 ^ 53 -> bounded_by B ([1; 2] ++ [3]) ->
          exists st1, update st 3 = Ok st1
                      /\ (num_value (acc st1) == window_sum (sreg st1))%Q).
Proof.
  eexists. split; [vm_compute; reflexivity|].
  apply (C3_window_invariant [1; 2] 3 2 false 0);
    [lia|vm_compute; reflexivity].
Defined.

(** ** A constant input *)

(** C5, as stated, fails: with the constant [2^53 + 1] and a window of 3
    the full accumulator is [3 * 2^53], not [3 * (2^53 + 1)], and the
    output is [2^53]. *)
Lemma C5_counterexample :
  exists st out,
    run (repeat (2 ^ 53 + 1) 3) 3 false 0 = Ok st
    /\ nth_error (result st) 2 = Some out
    /\ ~ (num_value (acc st) == inject_Z ((2 ^ 53 + 1) * 3))%Q
    /\ ~ (SF2Q out == inject_Z (2 ^ 53 + 1))%Q.
Proof.
  eexists. eexists. split; [vm_compute; reflexivity|].
  split; [reflexivity|]. split; vm_compute; discriminate.
Qed.

(** C5, amended: for a constant input [v] with
    [max(integration, 2) * |v| < 2^53], [1 <= integration < 2^53],
    [-968 <= extra_bits <= 970] and [v * 2^extra_bits] an integer, the
    model returns; once [integration] samples have been read the
    accumulator is [v * integration], and every output from index
    [integration - 1] on is the float [v]. *)
Theorem C5_constant_input (v n : Z) (mr : bool) (eb : Z) (len : nat) :
  1 <= n < 2 ^ 53 -> Z.max n 2 * Z.abs v < 2 ^ 53 ->
  -968 <= eb <= 970 -> (eb < 0 -> (2 ^ (- eb) | v)) ->
  exists st,
    run (repeat v len) n mr eb = Ok st
    /\ (n <= Z.of_nat len -> (num_value (acc st) == inject_Z (v * n))%Q)
    /\ (forall i, n - 1 <= Z.of_nat i -> (i < len)%nat ->
          nth_error (result st) i = Some (Z2SF v))
    /\ (SF2Q (Z2SF v) == inject_Z v)%Q.
Proof.
  intros Hn Hv He Hd.
  destruct (run_const v n mr eb Hn Hv He Hd len) as (st & Hr & Hs & _ & Ho).
  exists st. split; [exact Hr|]. split; [|split; [exact Ho|]].
  - intros Hl.
    destruct (state_after_sum n (Z.abs v) _ st ltac:(lia) Hv
                (bounded_by_repeat v len) Hs) as [_ Hq].
    rewrite Hq, wsum_repeat by lia.
    replace (Z.min n (Z.of_nat len)) with n by lia. reflexivity.
  - apply Z2SF_value. nia.
Qed.

Lemma C5_constant_input_witness :
  exists st,
    run (repeat 3 6) 4 true 8 = Ok st
    /\ (4 <= Z.of_nat 6 -> (num_value (acc st) == inject_Z (3 * 4))%Q)
    /\ (forall i, 4 - 1 <= Z.of_nat i -> (i < 6)%nat ->
          nth_error (result st) i = Some (Z2SF 3))
    /\ (SF2Q (Z2SF 3) == inject_Z 3)%Q.
Proof.
  apply (C5_constant_input 3 4 true 8 6); lia.
Defined.

(** ** An all-zero input *)

(** C6: for [integration >= 1], in both modes and for every
    [extra_bits], every output on an all-zero input is the float zero;
    and the model does return (it raises nothing) when
    [integration < 2^53] and [-1074 <= extra_bits <= 1023]. *)
Theorem C6_zero_input (n : Z) (mr : bool) (eb : Z) (len : nat) :
  1 <= n ->
  (forall out, fpga_moving_integrator (repeat 0 len) n mr eb = Ok out ->
               out = repeat fzero len)
  /\ (n < 2 ^ 53 -> emin <= eb <= 1023 ->
      fpga_moving_integrator (repeat 0 len) n mr eb
      = Ok (repeat fzero len)).
Proof. intros Hn. apply zeros_output. exact Hn. Qed.

Lemma C6_zero_input_witness :
  (forall out, fpga_moving_integrator (repeat 0 3) 4 true 8 = Ok out ->
               out = repeat fzero 3)
  /\ (4 < 2 ^ 53 -> emin <= 8 <= 1023 ->
      fpga_moving_integrator (repeat 0 3) 4 true 8 = Ok (repeat fzero 3)).
Proof. apply (C6_zero_input 4 true 8 3). lia. Defined.

(** ** Truncate mode *)

(** C1, as stated, fails: the quotient [acc / integration] is rounded to
    binary64 before it is scaled.  On the single sample 5 with
    [integration = 3] and [extra_bits = 52] the quotient is rounded up,
    and the output is one unit of [2^-52] above
    [floor(5 / 3 * 2^52) / 2^52]. *)
Lemma C1_counterexample :
  exists st v,
    run [5] 3 false 52 = Ok st
    /\ result st = [v]
    /\ (num_value (acc st) == inject_Z 5)%Q
    /\ ~ (SF2Q v == spec_truncate (num_value (acc st)) 3 52)%Q.
Proof.
  eexists. eexists. split; [vm_compute; reflexivity|].
  split; [reflexivity|]. split; [vm_compute; reflexivity|].
  vm_compute. discriminate.
Qed.

(** C1, amended: when every sample has magnitude at most [B] with
    [max(integration, 2) * B * 2^max(extra_bits, 0) < 2^53],
    [1 <= integration < 2^53] and [-968 <= extra_bits <= 970], the model
    in Truncate mode returns, the accumulator is the exact sum of the
    window, and the value emitted for each sample is exactly
    [floor(acc / integration * 2^extra_bits) / 2^extra_bits], with the
    floor toward minus infinity taken on the exact scaled value. *)
Theorem C1_truncate_exact (p : list Z) (s n eb B : Z) :
  1 <= n < 2 ^ 53 -> -968 <= eb <= 970 ->
  Z.max n 2 * B * 2 ^ Z.max eb 0 < 2 ^ 53 ->
  bounded_by B (p ++ [s]) ->
  exists st st' v,
    run p n false eb = Ok st
    /\ run (p ++ [s]) n false eb = Ok st'
    /\ result st' = result st ++ [v]
    /\ (num_value (acc st') == inject_Z (wsum n (p ++ [s])))%Q
    /\ (SF2Q v == spec_truncate (num_value (acc st')) n eb)%Q.
Proof.
  intros Hn He Hs Hb.
  destruct (bounded_by_app _ _ _ Hb) as [Hp Hl].
  assert (B0 : 0 <= B) by (inversion Hl; subst; lia).
  assert (Pp : 1 <= 2 ^ Z.max eb 0).
  { assert (0 < 2 ^ Z.max eb 0) by (apply Z.pow_pos_nonneg; lia). lia. }
  assert (HB : Z.max n 2 * B < 2 ^ 53) by nia.
  destruct (run_total n B false eb Hn HB He p Hp) as (st & Hr & Hst).
  destruct (body_total n B false eb Hn HB He p s st Hb Hst)
    as (st1 & v & _ & Hs1 & Hv & Hbody).
  set (w := wsum n (p ++ [s])) in *.
  assert (Hw : Z.abs w <= n * B) by (apply wsum_bound; (assumption || lia)).
  assert (Hw53 : Z.abs w < 2 ^ 53) by nia.
  destruct (truncate_exact w n eb ltac:(nia) Hn He) as (v' & Hv' & Sp).
  rewrite Hv in Hv'. injection Hv' as <-.
  exists st, (mkState (sreg st1) (acc st1) (result st ++ [v])), v.
  split; [exact Hr|].
  split; [rewrite run_snoc, Hr; exact Hbody|].
  split; [reflexivity|]. cbn [acc].
  assert (Ha : (num_value (acc st1) == inject_Z w)%Q).
  { rewrite (state_after_acc _ _ _ _ Hs1). cbn [num_value].
    apply Z2SF_value. exact Hw53. }
  split; [exact Ha|].
  rewrite Sp. apply spec_truncate_comp. symmetry. exact Ha.
Qed.

Lemma C1_truncate_exact_witness :
  exists st st' v,
    run [1; 2; 3] 4 false 8 = Ok st
    /\ run ([1; 2; 3] ++ [4]) 4 false 8 = Ok st'
    /\ result st' = result st ++ [v]
    /\ (num_value (acc st') == inject_Z 10)%Q
    /\ (SF2Q v == spec_truncate (num_value (acc st')) 4 8)%Q.
Proof.
  apply (C1_truncate_exact [1; 2; 3] 4 4 8 4); try lia.
  - vm_compute. reflexivity.
  - unfold bounded_by. repeat (constructor; [lia|]). constructor.
Defined.

(** ** Truncate against Round *)

(** C7: for every input, window length and [extra_bits], the two modes
    either raise the same exception or both return, and then every
    Truncate output is less than or equal to the Round output at the same
    index.  Both do return when the samples have magnitude at most [B]
    with [max(integration, 2) * B < 2^53], [1 <= integration < 2^53] and
    [-968 <= extra_bits <= 970]. *)
Theorem C7_truncate_le_round (samples : list Z) (n eb : Z) :
  res_rel (fun u v => fle u v = true)
    (fpga_moving_integrator samples n false eb)
    (fpga_moving_integrator samples n true eb)
  /\ (forall B,
         1 <= n < 2 ^ 53 -> Z.max n 2 * B < 2 ^ 53 ->
         -968 <= eb <= 970 -> bounded_by B samples ->
         exists lo hi,
           fpga_moving_integrator samples n false eb = Ok lo
           /\ fpga_moving_integrator samples n true eb = Ok hi
           /\ Forall2 (fun u v => fle u v = true) lo hi).
Proof.
  pose proof (truncate_le_round samples n eb) as R.
  split; [exact R|].
  intros B Hn HB He Hb.
  destruct (run_total n B false eb Hn HB He samples Hb) as (s1 & R1 & _).
  destruct (run_total n B true eb Hn HB He samples Hb) as (s2 & R2 & _).
  unfold fpga_moving_integrator in *. rewrite R1, R2 in *.
  cbn [bind] in *. exists (result s1), (result s2).
  split; [reflexivity|]. split; [reflexivity|]. exact R.
Qed.

Lemma C7_truncate_le_round_witness :
  exists lo hi,
    fpga_moving_integrator [1; 2; -3; 4] 2 false 1 = Ok lo
    /\ fpga_moving_integrator [1; 2; -3; 4] 2 true 1 = Ok hi
    /\ Forall2 (fun u v => fle u v = true) lo hi.
Proof.
  apply (proj2 (C7_truncate_le_round [1; 2; -3; 4] 2 1) 4); try lia.
  unfold bounded_by. repeat (constructor; [lia|]). constructor.
Defined.

(** ** One output per sample *)

Lemma update_result (st st1 : state) (s : Z) :
  update st s = Ok st1 ->
  exists old rest,
    deque_pop (sreg st) = Ok (old, rest)
    /\ sreg st1 = Int s :: rest /\ result st1 = result st.
Proof.
  unfold update. intros H.
  destruct (deque_pop (sreg st)) as [[old rest]|]; [|discriminate].
  cbn [bind] in H.
  destruct (py_sub (Int s) old) as [d|]; [|discriminate]. cbn [bind] in H.
  destruct (py_add (acc st) d) as [a|]; [|discriminate]. cbn [bind] in H.
  injection H as <-. exists old, rest. repeat split.
Qed.

Lemma body_result (n : Z) (mr : bool) (eb : Z) (st st' : state) (s : Z) :
  body n mr eb st s = Ok st' -> exists v, result st' = result st ++ [v].
Proof.
  intros H. destruct (body_update _ _ _ _ _ _ H) as (st1 & v & Hu & _ & ->).
  destruct (update_result _ _ _ Hu) as (_ & _ & _ & _ & Hr).
  exists v. cbn [result]. rewrite Hr. reflexivity.
Qed.

Lemma foldM_body_result (n : Z) (mr : bool) (eb : Z) (l : list Z) :
  forall st st',
    foldM (body n mr eb) l st = Ok st' ->
    exists more, result st' = result st ++ more /\ length more = length l.
Proof.
  induction l as [|s l IH]; intros st st' H; cbn [foldM] in H.
  - injection H as <-. exists []. rewrite app_nil_r. split; reflexivity.
  - destruct (body n mr eb st s) as [st1|] eqn:B; [|discriminate].
    cbn [bind] in H. destruct (body_result _ _ _ _ _ _ B) as (v & Hv).
    destruct (IH _ _ H) as (more & Hm & Hl).
    exists (v :: more). rewrite Hm, Hv, <- app_assoc. cbn [app length].
    split; [reflexivity|lia].
Qed.

Lemma run_result_length (p : list Z) (n : Z) (mr : bool) (eb : Z)
    (st : state) :
  run p n mr eb = Ok st -> length (result st) = length p.
Proof.
  unfold run, init. destruct (np_zeros n) as [z|]; [|discriminate].
  cbn [bind]. intros H.
  destruct (foldM_body_result _ _ _ _ _ _ H) as (more & Hm & Hl).
  rewrite Hm. cbn [result app]. exact Hl.
Qed.

(** Whenever [fpga_moving_integrator] returns, it returns exactly one
    value per sample. *)
Theorem fpga_output_length (samples : list Z) (n : Z) (mr : bool) (eb : Z)
    (out : list float) :
  fpga_moving_integrator samples n mr eb = Ok out ->
  length out = length samples.
Proof.
  unfold fpga_moving_integrator.
  destruct (run samples n mr eb) as [st|] eqn:R; [|discriminate].
  cbn [bind]. intros H. injection H as <-.
  exact (run_result_length _ _ _ _ _ R).
Qed.

Lemma fpga_output_length_witness :
  exists out,
    fpga_moving_integrator [3; 1; 4; 1; 5] 2 true 3 = Ok out
    /\ length out = 5%nat.
Proof.
  eexists. split; [vm_compute; reflexivity|].
  apply (fpga_output_length [3; 1; 4; 1; 5] 2 true 3).
  vm_compute. reflexivity.
Defined.

(** ** A negative window length *)

(** With a negative [integration] both functions raise [ValueError],
    whatever the samples: [np.zeros] and [np.ones] refuse a negative
    length before anything else is done. *)
Theorem negative_integration
    (T : Type) (tzero : T) (tadd tmul : T -> T -> T) (recip : Z -> T)
    (xs : list T) (trim : bool)
    (samples : list Z) (n : Z) (mr : bool) (eb : Z) :
  n < 0 ->
  fpga_moving_integrator samples n mr eb = Raise ValueError
  /\ moving_integrator T tzero tadd tmul recip xs n trim = Raise ValueError.
Proof.
  intros H.
  unfold fpga_moving_integrator, run, init, np_zeros, moving_integrator,
    np_full.
  destruct (Z.ltb_spec n 0); [|lia]. split; reflexivity.
Qed.

Lemma negative_integration_witness :
  fpga_moving_integrator [] (-1) false 0 = Raise ValueError
  /\ moving_integrator64 [1; 2] (-1) true = Raise ValueError.
Proof.
  exact (negative_integration float fzero fadd fmul
           (fun n => fdiv (Z2SF 1) (Z2SF n)) (map Z2SF [1; 2]) true
           [] (-1) false 0 ltac:(lia)).
Defined.

(** ** The model is causal, and a failure is final *)

(** The outputs for a prefix of the samples do not depend on what
    follows: if the model returns on [p ++ q], it returns on [p] the first
    [len(p)] of those outputs.  And an exception raised on [p] is raised
    on every extension of [p]: no partial result is ever returned. *)
Theorem fpga_prefix (p q : list Z) (n : Z) (mr : bool) (eb : Z) :
  (forall out,
      fpga_moving_integrator (p ++ q) n mr eb = Ok out ->
      fpga_moving_integrator p n mr eb = Ok (firstn (length p) out))
  /\ (forall e,
         fpga_moving_integrator p n mr eb = Raise e ->
         fpga_moving_integrator (p ++ q) n mr eb = Raise e).
Proof.
  unfold fpga_moving_integrator.
  assert (E : run (p ++ q) n mr eb
              = (st <- run p n mr eb ;; foldM (body n mr eb) q st)).
  { unfold run. destruct (init n) as [st0|]; [|reflexivity]. cbn [bind].
    apply foldM_app. }
  rewrite E. destruct (run p n mr eb) as [st|e0] eqn:R; cbn [bind].
  - split; [|discriminate]. intros out H.
    destruct (foldM (body n mr eb) q st) as [st'|] eqn:F; [|discriminate].
    cbn [bind] in H. injection H as <-.
    destruct (foldM_body_result _ _ _ _ _ _ F) as (more & Hm & _).
    rewrite Hm. f_equal.
    rewrite <- (run_result_length _ _ _ _ _ R).
    rewrite firstn_app, Nat.sub_diag, firstn_all. cbn [firstn].
    rewrite app_nil_r. reflexivity.
  - split; [discriminate|]. intros e H. exact H.
Qed.

(** ** The contents of the shift register *)

Lemma register_step (n : Z) (p : list Z) (s : Z) :
  1 <= n ->
  exists old,
    deque_pop (map Int (window n p)
               ++ repeat (Float fzero) (Z.to_nat n - length p))
    = Ok (old,
          map Int (firstn (Z.to_nat n - 1) (rev p))
          ++ repeat (Float fzero) (Z.to_nat n - length (p ++ [s]))).
Proof.
  intros Hn. rewrite length_app. cbn [length].
  destruct (Nat.lt_ge_cases (length p) (Z.to_nat n)) as [Lt|Ge].
  - assert (Hw : window n p = rev p).
    { unfold window. apply firstn_all2. rewrite length_rev. lia. }
    assert (Hw' : firstn (Z.to_nat n - 1) (rev p) = rev p).
    { apply firstn_all2. rewrite length_rev. lia. }
    assert (Hz : repeat (Float fzero) (Z.to_nat n - length p)
                 = repeat (Float fzero) (Z.to_nat n - (length p + 1))
                   ++ [Float fzero]).
    { replace (Z.to_nat n - length p)%nat
        with (S (Z.to_nat n - (length p + 1))) at 1 by lia.
      apply repeat_cons. }
    rewrite Hz, app_assoc, deque_pop_snoc, Hw, Hw'.
    eexists. reflexivity.
  - replace (Z.to_nat n - length p)%nat with 0%nat by lia.
    replace (Z.to_nat n - (length p + 1))%nat with 0%nat by lia.
    cbn [repeat]. rewrite !app_nil_r.
    assert (Hk : (Z.to_nat n - 1 < length (rev p))%nat)
      by (rewrite length_rev; lia).
    assert (Hw : window n p
                 = firstn (Z.to_nat n - 1) (rev p)
                   ++ [nth (Z.to_nat n - 1) (rev p) 0]).
    { unfold window.
      replace (Z.to_nat n) with (S (Z.to_nat n - 1)) at 1 by lia.
      apply firstn_S_nth. exact Hk. }
    rewrite Hw, map_app. cbn [map]. rewrite deque_pop_snoc.
    eexists. reflexivity.
Qed.

(** In every state the loop reaches, for [integration >= 1] and any
    samples at all, the register holds the last [integration] samples,
    the most recent first, followed by the zeros that have not been
    shifted out yet. *)
Theorem register_contents (p : list Z) (n : Z) (mr : bool) (eb : Z)
    (st : state) :
  1 <= n -> run p n mr eb = Ok st ->
  sreg st = map Int (window n p)
            ++ repeat (Float fzero) (Z.to_nat n - length p).
Proof.
  intros Hn. revert st.
  induction p as [|s p IH] using rev_ind; intros st H.
  - rewrite run_nil, init_ok in H by lia. injection H as <-.
    exact (proj1 (state_after_init n ltac:(lia))).
  - rewrite run_snoc in H.
    destruct (run p n mr eb) as [st0|] eqn:R; [|discriminate].
    cbn [bind] in H.
    destruct (body_update _ _ _ _ _ _ H) as (st1 & v & Hu & _ & ->).
    cbn [sreg].
    destruct (update_result _ _ _ Hu) as (old & rest & Hp & Hs & _).
    rewrite (IH st0 eq_refl) in Hp.
    destruct (register_step n p s Hn) as (old' & Hp').
    rewrite Hp' in Hp. injection Hp as _ <-.
    rewrite Hs, window_snoc by exact Hn. reflexivity.
Qed.

Lemma register_contents_witness :
  exists st,
    run [5; 6; 7; 8] 3 false 0 = Ok st
    /\ sreg st = map Int (window 3 [5; 6; 7; 8])
                 ++ repeat (Float fzero) (Z.to_nat 3 - length [5; 6; 7; 8]).
Proof.
  eexists. split; [vm_compute; reflexivity|].
  apply (register_contents [5; 6; 7; 8] 3 false 0); [lia|].
  vm_compute. reflexivity.
Defined.

Lemma fpga_prefix_witness :
  fpga_moving_integrator [1; 2; 3] 2 false 1
  = Ok (firstn (length [1; 2; 3])
          [dyadic 1 (-1); dyadic 3 (-1); dyadic 5 (-1); dyadic 7 (-1);
           dyadic 9 (-1)]).
Proof.
  apply (proj1 (fpga_prefix [1; 2; 3] [4; 5] 2 false 1)).
  vm_compute. reflexivity.
Defined.

(** ** The first iteration *)

Lemma first_update (n s : Z) :
  1 <= n -> Z.abs s < 2 ^ 53 ->
  exists reg,
    update (mkState (repeat (Float fzero) (Z.to_nat n)) (Int 0) []) s
    = Ok (mkState reg (Float (Z2SF s)) []).
Proof.
  intros Hn Hs. unfold update. cbn [sreg acc result].
  destruct (register_step n [] s Hn) as (old & Hp).
  unfold window in Hp. cbn [rev length] in Hp.
  rewrite firstn_nil, Nat.sub_0_r in Hp. cbn [map app] in Hp.
  assert (Hold : old = Float fzero).
  { unfold deque_pop in Hp. rewrite rev_repeat in Hp.
    destruct (Z.to_nat n) as [|k] eqn:E; [lia|].
    cbn [repeat] in Hp. injection Hp as -> _. reflexivity. }
  subst old. rewrite Hp. cbn [bind py_sub to_float].
  rewrite (Z2SF_finite s Hs). cbn [bind]. rewrite fsub_zero.
  cbn [py_add to_float]. change (float_of_int 0) with (Ok fzero).
  cbn [bind]. change fzero with (Z2SF 0) at 2.
  rewrite fadd_Z2SF by (assumption || reflexivity).
  eexists. reflexivity.
Qed.

(** The mean of a small integer accumulator is a finite float. *)
Lemma mean_finite (a n : Z) :
  Z.abs a < 2 ^ 53 -> 1 <= n < 2 ^ 53 ->
  exists q, mean (Float (Z2SF a)) n = Ok q /\ is_finite q = true.
Proof.
  intros Ha Hn. rewrite mean_float by exact Hn. eexists.
  split; [reflexivity|].
  destruct (Z.eq_dec a 0) as [->|Nz].
  - rewrite Z2SF_0.
    destruct (float_of_int_pos n (Z2SF n) ltac:(lia)
                (Z2SF_finite n ltac:(lia))) as (m & e & ->).
    reflexivity.
  - destruct (fdiv_int_shape a n Nz Ha Hn) as (M & E0 & -> & HE & HM & _).
    destruct (encode_normal (sign_of a) M E0 HM ltac:(unfold emin; lia))
      as (z & e & -> & R & _).
    rewrite (dyadic_repr z e R). reflexivity.
Qed.

Lemma fmul_finite_zero (q : float) :
  is_finite q = true -> exists s, fmul q fzero = S754_zero s.
Proof.
  destruct q as [s|s| |s m e]; try discriminate; intros _;
    eexists; reflexivity.
Qed.

(** ** An [extra_bits] below the binary64 range *)

(** When [extra_bits < -1074] the power [2 ** extra_bits] is the float
    zero, and the model raises [ZeroDivisionError] at its first sample, in
    both modes (here for a window and a first sample below [2^53]; the
    exponent itself is assumed to convert to a float). *)
Theorem extra_bits_underflow (s : Z) (rest : list Z) (n : Z) (mr : bool)
    (eb : Z) :
  1 <= n < 2 ^ 53 -> Z.abs s < 2 ^ 53 -> - 2 ^ 1023 < eb < -1074 ->
  fpga_moving_integrator (s :: rest) n mr eb = Raise ZeroDivisionError.
Proof.
  intros Hn Hs He.
  unfold fpga_moving_integrator, run. rewrite init_ok by lia.
  cbn [bind foldM]. unfold body at 1.
  destruct (first_update n s ltac:(lia) Hs) as (reg & ->).
  cbn [bind acc]. unfold value_of, scaled.
  destruct (mean_finite s n Hs Hn) as (q & -> & Fq). cbn [bind].
  rewrite (py_pow2_ok eb) by lia. cbn [bind].
  unfold pow2_num. destruct (Z.leb_spec 0 eb); [lia|].
  cbn [to_float bind]. rewrite fpow2_underflow by (unfold emin; lia).
  destruct (fmul_finite_zero q Fq) as (sz & ->).
  rewrite quantize_zero. cbn [bind py_truediv to_float].
  reflexivity.
Qed.

Lemma extra_bits_underflow_witness :
  fpga_moving_integrator (7 :: [8; 9]) 4 true (-1075)
  = Raise ZeroDivisionError.
Proof.
  apply (extra_bits_underflow 7 [8; 9] 4 true (-1075)); lia.
Defined.

(** ** Every output, from the sums of the window *)

Lemma window_sums_snoc (n : Z) (p : list Z) (s : Z) :
  window_sums n (p ++ [s]) = window_sums n p ++ [wsum n (p ++ [s])].
Proof.
  unfold window_sums. rewrite length_app. cbn [length].
  rewrite Nat.add_1_r, seq_S, map_app. cbn [map Nat.add]. f_equal.
  - apply map_ext_in. intros k Hk. apply in_seq in Hk.
    rewrite firstn_app. replace (S k - length p)%nat with 0%nat by lia.
    cbn [firstn]. rewrite app_nil_r. reflexivity.
  - rewrite firstn_all2 by (rewrite length_app; cbn [length]; lia).
    reflexivity.
Qed.

Lemma bounded_by_firstn (B : Z) (k : nat) (p : list Z) :
  bounded_by B p -> bounded_by B (firstn k p).
Proof.
  unfold bounded_by. revert k.
  induction p as [|x p IH]; intros [|k] H; cbn [firstn];
    try constructor; inversion H; subst; [assumption|].
  apply IH. assumption.
Qed.

Lemma window_sums_bound (n B : Z) (p : list Z) :
  0 <= n -> bounded_by B p ->
  Forall (fun a => Z.abs a <= n * B) (window_sums n p).
Proof.
  intros Hn Hb. unfold window_sums. apply Forall_forall. intros a Ha.
  apply in_map_iff in Ha. destruct Ha as (k & <- & Hk).
  apply in_seq in Hk.
  assert (Hf : bounded_by B (firstn (S k) p))
    by (apply bounded_by_firstn; exact Hb).
  assert (B0 : 0 <= B).
  { destruct p as [|x p']; [cbn in Hk; lia|].
    inversion Hb; subst. lia. }
  apply wsum_bound; assumption.
Qed.

Section Outputs.

Variables (n B : Z) (mr : bool) (eb : Z).
Hypothesis Hn : 1 <= n < 2 ^ 53.
Hypothesis HB : Z.max n 2 * B < 2 ^ 53.
Hypothesis He : -968 <= eb <= 970.

(** On bounded samples the run returns, and each output is the value
    emitted for the sum of the window at that sample. *)
Theorem run_outputs (p : list Z) :
  bounded_by B p ->
  exists st,
    run p n mr eb = Ok st
    /\ Forall2 (fun v a => value_of mr (Float (Z2SF a)) n eb = Ok v)
         (result st) (window_sums n p).
Proof.
  intros Hb.
  assert (G : exists st,
             run p n mr eb = Ok st /\ state_after n p st
             /\ Forall2
                  (fun v a => value_of mr (Float (Z2SF a)) n eb = Ok v)
                  (result st) (window_sums n p)).
  { induction p as [|s p IH] using rev_ind.
    - rewrite run_nil, init_ok by lia. eexists.
      split; [reflexivity|]. split; [apply state_after_init; lia|].
      constructor.
    - destruct (bounded_by_app _ _ _ Hb) as [Hp _].
      destruct (IH Hp) as (st & Hr & Hs & Ho).
      destruct (body_total n B mr eb Hn HB He p s st Hb Hs)
        as (st1 & v & _ & Hs1 & Hv & Hbody).
      rewrite run_snoc, Hr. cbn [bind]. rewrite Hbody.
      eexists. split; [reflexivity|].
      split; [destruct Hs1; split; assumption|].
      cbn [result]. rewrite window_sums_snoc.
      apply Forall2_app; [exact Ho|].
      constructor; [exact Hv|constructor]. }
  destruct G as (st & Hr & _ & Ho). exists st. split; assumption.
Qed.

End Outputs.

Lemma Forall2_join {A C : Type} (R1 R2 : A -> C -> Prop) (P : C -> Prop)
    (R : A -> A -> Prop) :
  (forall u v c, P c -> R1 u c -> R2 v c -> R u v) ->
  forall (l1 l2 : list A) (cs : list C),
    Forall P cs -> Forall2 R1 l1 cs -> Forall2 R2 l2 cs -> Forall2 R l1 l2.
Proof.
  intros H l1 l2 cs Hp H1. revert l2.
  induction H1 as [|u c l1 cs Hu H1 IH]; intros l2 H2;
    inversion H2; subst; [constructor|].
  inversion Hp; subst. constructor; [eauto|]. apply IH; assumption.
Qed.

Lemma Forall2_forall {A C : Type} (R1 : A -> C -> Prop) (P : C -> Prop)
    (Q : A -> Prop) :
  (forall u c, P c -> R1 u c -> Q u) ->
  forall (l1 : list A) (cs : list C),
    Forall P cs -> Forall2 R1 l1 cs -> Forall Q l1.
Proof.
  intros H l1 cs Hp H1.
  induction H1 as [|u c l1 cs Hu H1 IH]; [constructor|].
  inversion Hp; subst. constructor; [eauto|]. apply IH; assumption.
Qed.

(** ** The mean and the emitted value of an integer accumulator *)

(** The mean of a nonzero integer accumulator: the rounded quotient
    [M * 2^E0] of [fdiv_int_shape], as a representable number [z * 2^e]. *)
Lemma mean_int (a n : Z) :
  a <> 0 -> Z.abs a < 2 ^ 53 -> 1 <= n < 2 ^ 53 ->
  exists M E0 z e,
    -106 <= E0 <= 0 /\ 2 ^ 52 <= M <= 2 ^ 53
    /\ Z.abs (2 * (M * n) - 2 * (Z.abs a * 2 ^ (- E0))) <= n
    /\ 2 ^ 52 * n <= Z.abs a * 2 ^ (- E0)
    /\ repr z e /\ E0 <= e <= E0 + 1
    /\ cond_Zopp (sign_of a) M = z * 2 ^ (e - E0)
    /\ mean (Float (Z2SF a)) n = Ok (dyadic z e).
Proof.
  intros Ha Hb Hn.
  destruct (fdiv_int_shape a n Ha Hb Hn) as (M & E0 & Hf & HE & HM & H1 & H2).
  destruct (encode_normal (sign_of a) M E0 HM ltac:(unfold emin; lia))
    as (z & e & Hz & R & Hze & Hc & _).
  exists M, E0, z, e. repeat (split; [assumption|]).
  rewrite mean_float by exact Hn. rewrite Hf, Hz. reflexivity.
Qed.

(** The emitted float is the quantised integer over [2^eb], exactly. *)
Lemma emit_value (mr : bool) (z e eb : Z) :
  repr z e -> -106 <= e <= 1 -> -968 <= eb <= 970 ->
  (SF2Q (dyadic (quant mr z (e + eb)) (- eb))
   == inject_Z (quant mr z (e + eb)) * pow2 (- eb))%Q.
Proof.
  intros R He Hb. set (K := quant mr z (e + eb)).
  destruct (Z.eq_dec K 0) as [K0|K0].
  - rewrite K0, dyadic_0. cbn [SF2Q fzero].
    change (inject_Z 0) with 0%Q. ring.
  - destruct (Z_le_gt_dec 0 (e + eb)) as [L|G].
    + assert (HK : K = z * 2 ^ (e + eb)) by (apply quant_exact; exact L).
      assert (HQ : (inject_Z K * pow2 (- eb) == inject_Z z * pow2 e)%Q).
      { rewrite HK, inject_Z_mult, <- pow2_Z by lia.
        rewrite <- Qmult_assoc, <- pow2_add.
        replace (e + eb + - eb) with e by lia. reflexivity. }
      rewrite (dyadic_eq K (- eb) z e HQ), HQ.
      apply dyadic_value. exact R.
    + pose proof (quant_small mr z (e + eb) ltac:(lia)) as Hs. fold K in Hs.
      destruct R as (Rz & Rd & Re & Rm).
      assert (Hz : Z.abs z < 2 ^ 53) by (apply Zdigits2_le_pow2; assumption).
      pose proof (Zdigits2_lt_pow2 K 53 ltac:(lia) ltac:(lia)).
      apply dyadic_value. unfold repr, emin in *. repeat split; lia.
Qed.

(** ** Rounding against truncation, and the range of the outputs *)

Lemma rne_le_floor_succ (z e : Z) : rne_dy z e <= floor_dy z e + 1.
Proof.
  unfold floor_dy, rne_dy. destruct (Z.leb_spec 0 e) as [L|L]; [lia|].
  set (D := 2 ^ (- e)).
  assert (HD : 0 < D) by (apply Z.pow_pos_nonneg; lia).
  pose proof (rne_div_bounds (Z.abs z) D HD) as B.
  pose proof (Z.mul_div_le (Z.abs z) D HD) as Al.
  pose proof (Z.mul_succ_div_gt (Z.abs z) D HD) as Au.
  pose proof (Z.mul_div_le z D HD) as Fl.
  pose proof (Z.mul_succ_div_gt z D HD) as Fu.
  destruct (Z_lt_le_dec z 0) as [N|P].
  - rewrite (sign_of_neg z N). cbn [cond_Zopp].
    assert (- (Z.abs z / D) <= z / D + 1) by nia. lia.
  - assert (S : sign_of z = false) by (apply Z.ltb_ge; lia).
    rewrite S. cbn [cond_Zopp].
    assert (Ez : Z.abs z = z) by lia. rewrite Ez in *. lia.
Qed.

Lemma rne_div_le (N D c : Z) :
  0 < D -> N <= c * D -> rne_div N D <= c.
Proof.
  intros HD H. pose proof (rne_div_bounds N D HD) as B.
  pose proof (Z.mul_div_le N D HD) as L.
  pose proof (Z.mul_succ_div_gt N D HD) as U.
  destruct (Z_lt_le_dec (N / D) c) as [Lt|Ge]; [lia|].
  assert (E : N / D = c) by nia.
  assert (N = c * D) by nia. subst N.
  rewrite rne_div_exact by exact HD. lia.
Qed.

(** A dyadic number of magnitude at most the integer [c] is quantised
    to an integer of magnitude at most [c], in both modes. *)
Lemma quant_bound (mr : bool) (u x c : Z) :
  (0 <= x -> Z.abs u * 2 ^ x <= c) ->
  (x < 0 -> Z.abs u <= c * 2 ^ (- x)) ->
  Z.abs (quant mr u x) <= c.
Proof.
  intros Hp Hm. destruct (Z_le_gt_dec 0 x) as [L|G].
  - rewrite quant_exact by exact L. rewrite Z.abs_mul.
    assert (0 < 2 ^ x) by (apply Z.pow_pos_nonneg; lia).
    rewrite (Z.abs_eq (2 ^ x)) by lia. apply Hp. exact L.
  - specialize (Hm ltac:(lia)). unfold quant, rne_dy, floor_dy.
    destruct (Z.leb_spec 0 x); [lia|].
    set (D := 2 ^ (- x)) in *.
    assert (HD : 0 < D) by (apply Z.pow_pos_nonneg; lia).
    destruct mr.
    + pose proof (rne_div_le (Z.abs u) D c HD Hm).
      pose proof (rne_div_nonneg (Z.abs u) D ltac:(lia) HD).
      destruct (sign_of u); cbn [cond_Zopp]; lia.
    + assert (u / D <= c) by (apply Z.div_le_upper_bound; [exact HD|nia]).
      assert (- c <= u / D) by (apply Z.div_le_lower_bound; [exact HD|nia]).
      lia.
Qed.

Section OneValue.

Variables (a n eb : Z).
Hypothesis Ha : Z.abs a < 2 ^ 53.
Hypothesis Hn : 1 <= n < 2 ^ 53.
Hypothesis He : -968 <= eb <= 970.

(** The value emitted for the accumulator [a] is [K * 2^-eb] for an
    integer [K]: the quantised value of the float quotient. *)
Lemma value_of_grid (mr : bool) (v : float) :
  value_of mr (Float (Z2SF a)) n eb = Ok v ->
  exists K, (SF2Q v == inject_Z K * pow2 (- eb))%Q.
Proof.
  intros H. destruct (Z.eq_dec a 0) as [A0|A0].
  - rewrite A0, Z2SF_0 in H.
    rewrite (proj1 (value_zero mr (Float fzero) n eb
                      (or_intror eq_refl) ltac:(lia)) v H).
    exists 0. cbn [SF2Q fzero]. change (inject_Z 0) with 0%Q. ring.
  - destruct (mean_int a n A0 Ha Hn)
      as (M & E0 & z & e & HE & HM & _ & _ & R & Hze & _ & Hm).
    rewrite (emit_exact mr _ n z e eb Hm R ltac:(lia) He) in H.
    injection H as <-. eexists.
    apply emit_value; [exact R|lia|exact He].
Qed.

Lemma value_of_step (lo hi : float) :
  value_of false (Float (Z2SF a)) n eb = Ok lo ->
  value_of true (Float (Z2SF a)) n eb = Ok hi ->
  (SF2Q lo <= SF2Q hi <= SF2Q lo + pow2 (- eb))%Q.
Proof.
  intros H1 H2. pose proof (pow2_pos (- eb)) as Pt.
  destruct (Z.eq_dec a 0) as [A0|A0].
  - rewrite A0, Z2SF_0 in H1, H2.
    rewrite (proj1 (value_zero false (Float fzero) n eb
                      (or_intror eq_refl) ltac:(lia)) lo H1).
    rewrite (proj1 (value_zero true (Float fzero) n eb
                      (or_intror eq_refl) ltac:(lia)) hi H2).
    cbn [SF2Q fzero]. split; lra.
  - destruct (mean_int a n A0 Ha Hn)
      as (M & E0 & z & e & HE & HM & _ & _ & R & Hze & _ & Hm).
    rewrite (emit_exact false _ n z e eb Hm R ltac:(lia) He) in H1.
    rewrite (emit_exact true _ n z e eb Hm R ltac:(lia) He) in H2.
    injection H1 as <-. injection H2 as <-.
    pose proof (emit_value false z e eb R ltac:(lia) He) as V1.
    pose proof (emit_value true z e eb R ltac:(lia) He) as V2.
    rewrite V1, V2. cbn [quant].
    pose proof (floor_le_rne z (e + eb)) as L.
    pose proof (rne_le_floor_succ z (e + eb)) as U.
    rewrite Zle_Qle in L, U.
    rewrite inject_Z_plus in U. change (inject_Z 1) with 1%Q in U.
    set (f := inject_Z (floor_dy z (e + eb))) in *.
    set (r := inject_Z (rne_dy z (e + eb))) in *.
    set (t := pow2 (- eb)) in *.
    assert (f * t <= r * t)%Q
      by (apply Qmult_le_compat_r; [exact L|apply Qlt_le_weak; exact Pt]).
    assert (r * t <= (f + 1) * t)%Q
      by (apply Qmult_le_compat_r; [exact U|apply Qlt_le_weak; exact Pt]).
    split; [assumption|].
    setoid_replace (f * t + t)%Q with ((f + 1) * t)%Q by ring.
    assumption.
Qed.

(** With [0 <= eb], an accumulator of magnitude at most [n * B] gives
    an output of magnitude at most [B]. *)
Lemma value_of_range (mr : bool) (B : Z) (v : float) :
  0 <= eb -> Z.abs a <= n * B ->
  value_of mr (Float (Z2SF a)) n eb = Ok v ->
  (inject_Z (- B) <= SF2Q v <= inject_Z B)%Q.
Proof.
  intros P HB H. assert (B0 : 0 <= B) by nia.
  destruct (Z.eq_dec a 0) as [A0|A0].
  - rewrite A0, Z2SF_0 in H.
    rewrite (proj1 (value_zero mr (Float fzero) n eb
                      (or_intror eq_refl) ltac:(lia)) v H).
    cbn [SF2Q fzero]. change 0%Q with (inject_Z 0).
    rewrite <- !Zle_Qle. lia.
  - destruct (mean_int a n A0 Ha Hn)
      as (M & E0 & z & e & HE & HM & Near & _ & R & Hze & Hc & Hm).
    rewrite (emit_exact mr _ n z e eb Hm R ltac:(lia) He) in H.
    injection H as <-.
    pose proof (emit_value mr z e eb R ltac:(lia) He) as V.
    rewrite V. clear V.
    set (K := quant mr z (e + eb)).
    set (g := 2 ^ (- E0)) in *.
    assert (Pg : 0 < g) by (apply Z.pow_pos_nonneg; lia).
    assert (HMg : M <= B * g) by nia.
    assert (HK : Z.abs K <= B * 2 ^ eb).
    { assert (EK : K = quant mr (cond_Zopp (sign_of a) M) (E0 + eb)).
      { unfold K. rewrite Hc.
        replace (E0 + eb) with (e + eb - (e - E0)) by lia.
        rewrite quant_scale by lia. reflexivity. }
      rewrite EK. apply quant_bound; rewrite cond_Zopp_abs;
        rewrite (Z.abs_eq M) by lia.
      - intros L.
        assert (Eg : g * 2 ^ (E0 + eb) = 2 ^ eb).
        { unfold g. rewrite <- Z.pow_add_r by lia. f_equal. lia. }
        assert (0 < 2 ^ (E0 + eb)) by (apply Z.pow_pos_nonneg; lia).
        rewrite <- Eg. nia.
      - intros L.
        assert (Eg : 2 ^ eb * 2 ^ (- (E0 + eb)) = g).
        { unfold g. rewrite <- Z.pow_add_r by lia. f_equal. lia. }
        rewrite <- Z.mul_assoc, Eg. exact HMg. }
    assert (T : (inject_Z (B * 2 ^ eb) * pow2 (- eb) == inject_Z B)%Q).
    { rewrite inject_Z_mult, <- (pow2_Z eb) by exact P.
      rewrite <- Qmult_assoc, <- pow2_add.
      replace (eb + - eb) with 0 by lia. change (pow2 0) with 1%Q. ring. }
    pose proof (pow2_pos (- eb)) as Pt.
    assert (K1 : (inject_Z K * pow2 (- eb)
                  <= inject_Z (B * 2 ^ eb) * pow2 (- eb))%Q).
    { apply Qmult_le_compat_r; [|apply Qlt_le_weak; exact Pt].
      rewrite <- Zle_Qle. lia. }
    assert (K2 : (inject_Z (- (B * 2 ^ eb)) * pow2 (- eb)
                  <= inject_Z K * pow2 (- eb))%Q).
    { apply Qmult_le_compat_r; [|apply Qlt_le_weak; exact Pt].
      rewrite <- Zle_Qle. lia. }
    rewrite inject_Z_opp in K2 |- *.
    rewrite T in K1.
    setoid_replace (- inject_Z (B * 2 ^ eb) * pow2 (- eb))%Q
      with (- (inject_Z (B * 2 ^ eb) * pow2 (- eb)))%Q in K2 by ring.
    rewrite T in K2. split; assumption.
Qed.

End OneValue.

Lemma fpga_outputs (n B : Z) (mr : bool) (eb : Z) (samples : list Z) :
  1 <= n < 2 ^ 53 -> Z.max n 2 * B < 2 ^ 53 -> -968 <= eb <= 970 ->
  bounded_by B samples ->
  exists out,
    fpga_moving_integrator samples n mr eb = Ok out
    /\ Forall2 (fun v a => value_of mr (Float (Z2SF a)) n eb = Ok v)
         out (window_sums n samples)
    /\ Forall (fun a => Z.abs a <= n * B /\ Z.abs a < 2 ^ 53)
         (window_sums n samples).
Proof.
  intros Hn HB He Hb.
  destruct (run_outputs n B mr eb Hn HB He samples Hb) as (st & Hr & Ho).
  exists (result st). unfold fpga_moving_integrator. rewrite Hr.
  split; [reflexivity|]. split; [exact Ho|].
  pose proof (window_sums_bound n B samples ltac:(lia) Hb) as Hw.
  apply (Forall_impl _ (P := fun a => Z.abs a <= n * B)); [|exact Hw].
  intros a Ha. split; [exact Ha|]. nia.
Qed.

(** On bounded samples every output, in both modes, is an integer
    multiple of [2^-extra_bits]. *)
Theorem outputs_on_grid (samples : list Z) (n B : Z) (mr : bool) (eb : Z) :
  1 <= n < 2 ^ 53 -> Z.max n 2 * B < 2 ^ 53 -> -968 <= eb <= 970 ->
  bounded_by B samples ->
  exists out,
    fpga_moving_integrator samples n mr eb = Ok out
    /\ Forall (fun v => exists K, (SF2Q v == inject_Z K * pow2 (- eb))%Q)
         out.
Proof.
  intros Hn HB He Hb.
  destruct (fpga_outputs n B mr eb samples Hn HB He Hb) as (out & Hf & Ho & Hw).
  exists out. split; [exact Hf|].
  refine (Forall2_forall _ _ _ _ out _ Hw Ho).
  intros u a [_ Ha] Hv. exact (value_of_grid a n eb Ha Hn He mr u Hv).
Qed.

Lemma outputs_on_grid_witness :
  exists out,
    fpga_moving_integrator [3; -5; 8] 3 true 4 = Ok out
    /\ Forall (fun v => exists K, (SF2Q v == inject_Z K * pow2 (- 4))%Q)
         out.
Proof.
  apply (outputs_on_grid [3; -5; 8] 3 8 true 4); try lia.
  unfold bounded_by. repeat (constructor; [lia|]). constructor.
Defined.

(** On bounded samples each Round output lies between the Truncate output
    at the same index and that output plus one unit [2^-extra_bits]. *)
Theorem round_within_one_step (samples : list Z) (n B eb : Z) :
  1 <= n < 2 ^ 53 -> Z.max n 2 * B < 2 ^ 53 -> -968 <= eb <= 970 ->
  bounded_by B samples ->
  exists lo hi,
    fpga_moving_integrator samples n false eb = Ok lo
    /\ fpga_moving_integrator samples n true eb = Ok hi
    /\ Forall2
         (fun u v => (SF2Q u <= SF2Q v <= SF2Q u + pow2 (- eb))%Q) lo hi.
Proof.
  intros Hn HB He Hb.
  destruct (fpga_outputs n B false eb samples Hn HB He Hb)
    as (lo & Hl & Ho1 & Hw).
  destruct (fpga_outputs n B true eb samples Hn HB He Hb)
    as (hi & Hh & Ho2 & _).
  exists lo, hi. split; [exact Hl|]. split; [exact Hh|].
  refine (Forall2_join _ _ _ _ _ lo hi _ Hw Ho1 Ho2).
  intros u v a [_ Ha] H1 H2. exact (value_of_step a n eb Ha Hn He u v H1 H2).
Qed.

Lemma round_within_one_step_witness :
  exists lo hi,
    fpga_moving_integrator [3; -5; 8] 3 false 1 = Ok lo
    /\ fpga_moving_integrator [3; -5; 8] 3 true 1 = Ok hi
    /\ Forall2
         (fun u v => (SF2Q u <= SF2Q v <= SF2Q u + pow2 (- 1))%Q) lo hi.
Proof.
  apply (round_within_one_step [3; -5; 8] 3 8 1); try lia.
  unfold bounded_by. repeat (constructor; [lia|]). constructor.
Defined.

(** With [extra_bits >= 0], on samples of magnitude at most [B] every
    output has magnitude at most [B], in both modes. *)
Theorem outputs_in_range (samples : list Z) (n B : Z) (mr : bool) (eb : Z) :
  1 <= n < 2 ^ 53 -> Z.max n 2 * B < 2 ^ 53 -> 0 <= eb <= 970 ->
  bounded_by B samples ->
  exists out,
    fpga_moving_integrator samples n mr eb = Ok out
    /\ Forall (fun v => (inject_Z (- B) <= SF2Q v <= inject_Z B)%Q) out.
Proof.
  intros Hn HB He Hb.
  destruct (fpga_outputs n B mr eb samples Hn HB ltac:(lia) Hb)
    as (out & Hf & Ho & Hw).
  exists out. split; [exact Hf|].
  refine (Forall2_forall _ _ _ _ out _ Hw Ho).
  intros u a [Hab Ha] Hv.
  exact (value_of_range a n eb Ha Hn ltac:(lia) mr B u ltac:(lia) Hab Hv).
Qed.

Lemma outputs_in_range_witness :
  exists out,
    fpga_moving_integrator [3; -5; 8] 3 true 4 = Ok out
    /\ Forall (fun v => (inject_Z (- 8) <= SF2Q v <= inject_Z 8)%Q) out.
Proof.
  apply (outputs_in_range [3; -5; 8] 3 8 true 4); try lia.
  unfold bounded_by. repeat (constructor; [lia|]). constructor.
Defined.

(** ** Rounding the rounded quotient *)

Lemma rne_div_unique (N D r : Z) :
  0 < D -> Z.abs (2 * (r * D) - 2 * N) < D -> rne_div N D = r.
Proof.
  intros HD H. unfold rne_div. apply Z.abs_lt in H.
  pose proof (Z.div_mod N D ltac:(lia)) as E.
  pose proof (Z.mod_pos_bound N D HD) as B.
  set (q := N / D) in *. set (m := N mod D) in *.
  assert (K : 2 * ((r - q) * D) - 2 * m < D /\ - D < 2 * ((r - q) * D) - 2 * m)
    by (split; nia).
  clear H E. clearbody q m. destruct K as [K1 K2].
  assert (P0 : r - q = 0 -> (r - q) * D = 0) by nia.
  assert (P1 : r - q = 1 -> (r - q) * D = D) by nia.
  assert (P2 : r - q <= -1 -> (r - q) * D <= - D) by nia.
  assert (P3 : 2 <= r - q -> 2 * D <= (r - q) * D) by nia.
  set (x := (r - q) * D) in *. clearbody x.
  destruct (2 * m ?= D) eqn:Cmp.
  - apply Z.compare_eq_iff in Cmp. exfalso. lia.
  - change (2 * m < D) in Cmp. lia.
  - apply Z.compare_gt_iff in Cmp. lia.
Qed.

Lemma rne_div_strict (N D : Z) :
  0 < D -> 2 * (N mod D) <> D ->
  Z.abs (2 * (rne_div N D * D) - 2 * N) < D.
Proof.
  intros HD H. pose proof (rne_div_nearest N D HD) as Nr.
  destruct (Z.eq_dec (Z.abs (2 * (rne_div N D * D) - 2 * N)) D) as [E|E];
    [|lia].
  exfalso. apply H. apply rne_div_half; [exact HD|]. lia.
Qed.

(** Two fractions within half a unit of the finer (even) denominator
    round to the same integer. *)
Lemma rne_div_coincide (u G P n : Z) :
  0 < n -> n < G -> Z.even G = true ->
  Z.abs (2 * (u * n) - 2 * (P * G)) <= n ->
  rne_div u G = rne_div P n.
Proof.
  intros Hn HG Ev H.
  destruct (Z.eq_dec (2 * (P mod n)) n) as [T|NT].
  - (* [P / n] is half-way: then so is [u / G] *)
    pose proof (Z.div_mod P n ltac:(lia)) as E.
    set (h := P / n) in *. set (m := P mod n) in *.
    apply Z.even_spec in Ev. destruct Ev as (g2 & Eg).
    assert (Hu : u = G * h + g2) by nia.
    assert (Dv : u / G = h)
      by (symmetry; apply (Z.div_unique u G h g2); [lia|exact Hu]).
    assert (Md : u mod G = g2)
      by (symmetry; apply (Z.mod_unique u G h g2); [lia|exact Hu]).
    unfold rne_div. fold h m. rewrite Dv, Md.
    replace (2 * g2 ?= G) with Eq by (symmetry; apply Z.compare_eq_iff; lia).
    replace (2 * m ?= n) with Eq by (symmetry; apply Z.compare_eq_iff; lia).
    reflexivity.
  - pose proof (rne_div_strict P n Hn NT) as S.
    apply rne_div_unique; [lia|].
    set (r := rne_div P n) in *.
    assert (Z.abs (2 * n * (r * G - u)) < G * n) by nia.
    nia.
Qed.

Lemma rne_dy_neg (z e : Z) :
  e < 0 ->
  rne_dy z e = cond_Zopp (sign_of z) (rne_div (Z.abs z) (2 ^ (- e))).
Proof.
  intros H. unfold rne_dy. destruct (Z.leb_spec 0 e); [lia|reflexivity].
Qed.

Section RoundCoincide.

Variables (a n eb M E0 : Z).
Hypothesis Ha : a <> 0.
Hypothesis Hn : 1 <= n.
Hypothesis Hs : Z.abs a * 2 ^ Z.max eb 0 < 2 ^ 52.
Hypothesis HE : E0 <= 0.
Hypothesis HM : 0 < M.
Hypothesis Near : Z.abs (2 * (M * n) - 2 * (Z.abs a * 2 ^ (- E0))) <= n.
Hypothesis Norm : 2 ^ 52 * n <= Z.abs a * 2 ^ (- E0).

Let A := Z.abs a.
Let g := 2 ^ (- E0).
Let pp := 2 ^ Z.max eb 0.
Let pm := 2 ^ Z.max (- eb) 0.

(** The nearest integer to the rounded quotient, scaled by [2^eb], is
    the nearest integer to the exact scaled quotient. *)
Theorem round_coincide :
  rne_dy (cond_Zopp (sign_of a) M) (E0 + eb)
  = cond_Zopp (sign_of a) (rne_div (A * pp) (n * pm)).
Proof.
  assert (Hs' : Z.abs a * 2 ^ Z.max eb 0 < 2 ^ 53) by lia.
  pose proof (coincide_exp a n eb M E0 Ha Hn Hs' HE Near Norm) as L.
  pose proof (coincide_scale a n eb M E0 Ha Hn Hs' HE Near Norm) as Sc.
  cbv zeta in Sc. fold g pm pp in Sc.
  set (G := 2 ^ (- (E0 + eb))) in *.
  assert (G0 : 0 < G) by (apply Z.pow_pos_nonneg; lia).
  assert (Pp : 0 < pp) by (apply Z.pow_pos_nonneg; lia).
  assert (Pm : 0 < pm) by (apply Z.pow_pos_nonneg; lia).
  assert (Pg : 0 < g) by (apply Z.pow_pos_nonneg; lia).
  fold A g in Near, Norm. fold A pp in Hs.
  assert (HG : n * pm < G).
  { assert (2 ^ 52 * (n * pm) * pp <= (A * pp) * (G * pp)).
    { replace ((A * pp) * (G * pp)) with (A * (G * pp) * pp) by ring.
      rewrite <- Sc. nia. }
    assert ((A * pp) * (G * pp) < 2 ^ 52 * (G * pp)) by nia.
    nia. }
  assert (Lt : E0 + eb < 0).
  { destruct (Z_lt_le_dec (E0 + eb) 0) as [Lt|Ge]; [exact Lt|exfalso].
    assert (G1 : G = 1)
      by (unfold G; replace (- (E0 + eb)) with 0 by lia; reflexivity).
    assert (1 <= n * pm) by nia. lia. }
  assert (Ev : Z.even G = true).
  { unfold G. replace (- (E0 + eb)) with (Z.succ (- (E0 + eb) - 1)) by lia.
    rewrite Z.pow_succ_r by lia. rewrite Z.even_mul. reflexivity. }
  rewrite rne_dy_neg by exact Lt.
  assert (Sg : sign_of (cond_Zopp (sign_of a) M) = sign_of a).
  { destruct (sign_of a); cbn [cond_Zopp]; unfold sign_of;
      [apply Z.ltb_lt|apply Z.ltb_ge]; lia. }
  rewrite Sg, cond_Zopp_abs, (Z.abs_eq M) by lia. f_equal. fold G.
  apply rne_div_coincide; [nia|exact HG|exact Ev|].
  rewrite <- (Z.mul_assoc A pp G), (Z.mul_comm pp G), <- Sc.
  replace (2 * (M * (n * pm)) - 2 * (A * (g * pm)))
    with ((2 * (M * n) - 2 * (A * g)) * pm) by ring.
  rewrite Z.abs_mul, (Z.abs_eq pm) by lia. nia.
Qed.

End RoundCoincide.

(** ** Round mode on the exact scaled mean *)

Lemma scaled_ratio (a n eb : Z) :
  1 <= n ->
  (inject_Z a / inject_Z n * pow2 eb
   == inject_Z (a * 2 ^ Z.max eb 0)
      * / inject_Z (n * 2 ^ Z.max (- eb) 0))%Q.
Proof.
  intros Hn.
  set (pp := 2 ^ Z.max eb 0). set (pm := 2 ^ Z.max (- eb) 0).
  assert (Pm : 0 < pm) by (apply Z.pow_pos_nonneg; lia).
  assert (Nn : ~ (inject_Z n == 0)%Q).
  { change 0%Q with (inject_Z 0). rewrite inject_Z_injective. lia. }
  assert (Nm : ~ (inject_Z pm == 0)%Q).
  { change 0%Q with (inject_Z 0). rewrite inject_Z_injective. lia. }
  rewrite (pow2_ratio eb). fold pp pm. rewrite !inject_Z_mult.
  field. split; assumption.
Qed.

Lemma nearest_even_comp (k : Z) (x y : Q) :
  (x == y)%Q -> nearest_even k x -> nearest_even k y.
Proof.
  intros E [N T]. split.
  - rewrite <- E. exact N.
  - intros H. apply T. rewrite E. exact H.
Qed.

Lemma nearest_even_opp (k : Z) (x : Q) :
  nearest_even k x -> nearest_even (- k) (- x).
Proof.
  intros [N T]. split.
  - rewrite inject_Z_opp. split; lra.
  - rewrite inject_Z_opp, Z.even_opp. intros [H|H]; apply T;
      [right|left]; lra.
Qed.

Lemma rne_div_nearest_even (P D : Z) :
  0 < D -> nearest_even (rne_div P D) (inject_Z P * / inject_Z D).
Proof.
  intros HD.
  assert (Nd : ~ (inject_Z D == 0)%Q).
  { change 0%Q with (inject_Z 0). rewrite inject_Z_injective. lia. }
  assert (Ht : (/ inject_Z D * inject_Z D == 1)%Q) by (field; exact Nd).
  split.
  - exact (rne_Q_near P D _ HD Ht).
  - exact (rne_Q_tie P D _ HD Ht).
Qed.

(** In Round mode, an accumulator that holds the integer [a] with
    [|a| * 2^max(eb, 0) < 2^52] yields [k / 2^eb], where [k] is the
    integer nearest to the exact [a / n * 2^eb], ties to even. *)
Theorem round_exact_value (a n eb : Z) (v : float) :
  Z.abs a * 2 ^ Z.max eb 0 < 2 ^ 52 -> 1 <= n < 2 ^ 53 ->
  -968 <= eb <= 970 ->
  value_of true (Float (Z2SF a)) n eb = Ok v ->
  exists k,
    (SF2Q v == inject_Z k * pow2 (- eb))%Q
    /\ nearest_even k (inject_Z a / inject_Z n * pow2 eb).
Proof.
  intros Hs Hn He H.
  assert (Pp : 1 <= 2 ^ Z.max eb 0).
  { assert (0 < 2 ^ Z.max eb 0) by (apply Z.pow_pos_nonneg; lia). lia. }
  assert (Pm : 0 < 2 ^ Z.max (- eb) 0) by (apply Z.pow_pos_nonneg; lia).
  destruct (Z.eq_dec a 0) as [A0|A0].
  - rewrite A0, Z2SF_0 in H.
    rewrite (proj1 (value_zero true (Float fzero) n eb
                      (or_intror eq_refl) ltac:(lia)) v H).
    exists 0. split.
    + cbn [SF2Q fzero]. change (inject_Z 0) with 0%Q. ring.
    + rewrite A0. apply (nearest_even_comp 0 0).
      * change (inject_Z 0) with 0%Q. unfold Qdiv. ring.
      * split; [change (inject_Z 0) with 0%Q; split; lra|].
        change (inject_Z 0) with 0%Q. intros [T|T]; lra.
  - assert (Ha : Z.abs a < 2 ^ 53) by nia.
    destruct (mean_int a n A0 Ha Hn)
      as (M & E0 & z & e & HE & HM & Near & Norm & R & Hze & Hc & Hm).
    rewrite (emit_exact true _ n z e eb Hm R ltac:(lia) He) in H.
    injection H as <-.
    exists (quant true z (e + eb)).
    split; [exact (emit_value true z e eb R ltac:(lia) He)|].
    assert (EK : quant true z (e + eb)
                 = cond_Zopp (sign_of a)
                     (rne_div (Z.abs a * 2 ^ Z.max eb 0)
                        (n * 2 ^ Z.max (- eb) 0))).
    { rewrite <- (round_coincide a n eb M E0 A0 ltac:(lia) Hs ltac:(lia)
                    ltac:(lia) Near Norm).
      rewrite Hc. replace (E0 + eb) with (e + eb - (e - E0)) by lia.
      symmetry. apply (quant_scale true). lia. }
    rewrite EK.
    pose proof (rne_div_nearest_even (Z.abs a * 2 ^ Z.max eb 0)
                  (n * 2 ^ Z.max (- eb) 0) ltac:(nia)) as Nr.
    unfold sign_of. destruct (Z.ltb_spec a 0) as [Neg|Pos]; cbn [cond_Zopp].
    + apply nearest_even_opp in Nr.
      refine (nearest_even_comp _ _ _ _ Nr).
      rewrite (scaled_ratio a n eb) by lia.
      replace a with (- Z.abs a) at 2 by lia.
      rewrite Z.mul_opp_l, inject_Z_opp. ring.
    + refine (nearest_even_comp _ _ _ _ Nr).
      rewrite (scaled_ratio a n eb) by lia.
      replace (Z.abs a) with a by lia. reflexivity.
Qed.

(** On samples of magnitude at most [B] with
    [max(n, 2) * B * 2^max(eb, 0) < 2^52], Round mode returns, for each
    sample, [k / 2^eb] with [k] the integer nearest to the exact scaled
    mean of the window, ties to even. *)
Theorem round_exact (samples : list Z) (n B eb : Z) :
  1 <= n < 2 ^ 53 -> -968 <= eb <= 970 ->
  Z.max n 2 * B * 2 ^ Z.max eb 0 < 2 ^ 52 ->
  bounded_by B samples ->
  exists out,
    fpga_moving_integrator samples n true eb = Ok out
    /\ Forall2
         (fun v a =>
            exists k,
              (SF2Q v == inject_Z k * pow2 (- eb))%Q
              /\ nearest_even k (inject_Z a / inject_Z n * pow2 eb))
         out (window_sums n samples).
Proof.
  intros Hn He Hs Hb.
  assert (Pp : 1 <= 2 ^ Z.max eb 0).
  { assert (0 < 2 ^ Z.max eb 0) by (apply Z.pow_pos_nonneg; lia). lia. }
  destruct samples as [|s0 rest].
  - exists []. split; [|constructor].
    unfold fpga_moving_integrator. rewrite run_nil, init_ok by lia.
    reflexivity.
  - assert (B0 : 0 <= B) by (inversion Hb; subst; lia).
    assert (HB : Z.max n 2 * B < 2 ^ 53) by nia.
    destruct (fpga_outputs n B true eb _ Hn HB He Hb) as (out & Hf & Ho & Hw).
    exists out. split; [exact Hf|].
    clear Hf. revert Hw Ho. generalize (window_sums n (s0 :: rest)).
    intros sums Hw Ho. induction Ho as [|v a out sums Hv Ho IH];
      [constructor|].
    inversion Hw as [|? ? [Hab _] Hw']; subst.
    constructor; [|apply IH; exact Hw'].
    apply round_exact_value; try assumption. nia.
Qed.

Lemma round_exact_witness :
  exists out,
    fpga_moving_integrator [1; 2; 2; 3] 2 true 0 = Ok out
    /\ Forall2
         (fun v a =>
            exists k,
              (SF2Q v == inject_Z k * pow2 (- 0))%Q
              /\ nearest_even k (inject_Z a / inject_Z 2 * pow2 0))
         out (window_sums 2 [1; 2; 2; 3]).
Proof.
  apply (round_exact [1; 2; 2; 3] 2 3 0); try lia.
  - vm_compute. reflexivity.
  - unfold bounded_by. repeat (constructor; [lia|]). constructor.
Defined.

(** ** Round mode *)

(** C10, as stated, fails: the quotient [acc / integration] is rounded to
    binary64 before it is scaled, and [round] is applied to that float.
    On the single sample 5 with [integration = 3] and [extra_bits = 51]
    the float is [3752999689475413.5], which rounds to the even
    [3752999689475414], while the exact scaled value
    [5 / 3 * 2^51 = 3752999689475413.33..] is nearest to
    [3752999689475413]. *)
Lemma C10_counterexample :
  exists st v,
    run [5] 3 true 51 = Ok st
    /\ result st = [v]
    /\ (num_value (acc st) == inject_Z 5)%Q
    /\ (SF2Q v == inject_Z 3752999689475414 / pow2 51)%Q
    /\ ~ nearest_even 3752999689475414
           (num_value (acc st) / inject_Z 3 * pow2 51)
    /\ nearest_even 3752999689475413
         (num_value (acc st) / inject_Z 3 * pow2 51).
Proof.
  eexists. eexists. split; [vm_compute; reflexivity|].
  split; [reflexivity|]. split; [vm_compute; reflexivity|].
  split; [vm_compute; reflexivity|]. split.
  - intros [[_ H] _]. vm_compute in H. apply H. reflexivity.
  - split.
    + split; vm_compute; discriminate.
    + intros [H|H]; vm_compute in H; discriminate H.
Qed.

(** C10, amended: when every sample has magnitude at most [B] with
    [max(integration, 2) * B * 2^max(extra_bits, 0) < 2^52],
    [1 <= integration < 2^53] and [-968 <= extra_bits <= 970], the model
    in Round mode returns, the accumulator is the exact sum of the
    window, and the value emitted for each sample is [k / 2^extra_bits]
    where [k] is an integer nearest to the exact scaled value
    [acc / integration * 2^extra_bits], and the even one when that value
    lies half-way between two integers; the division by [2^extra_bits]
    comes after the rounding and is exact. *)
Theorem C10_round_mode (p : list Z) (s n eb B : Z) :
  1 <= n < 2 ^ 53 -> -968 <= eb <= 970 ->
  Z.max n 2 * B * 2 ^ Z.max eb 0 < 2 ^ 52 ->
  bounded_by B (p ++ [s]) ->
  exists st st' v k,
    run p n true eb = Ok st
    /\ run (p ++ [s]) n true eb = Ok st'
    /\ result st' = result st ++ [v]
    /\ (num_value (acc st') == inject_Z (wsum n (p ++ [s])))%Q
    /\ nearest_even k (num_value (acc st') / inject_Z n * pow2 eb)
    /\ (SF2Q v == inject_Z k / pow2 eb)%Q.
Proof.
  intros Hn He Hs Hb.
  destruct (bounded_by_app _ _ _ Hb) as [Hp Hl].
  assert (B0 : 0 <= B) by (inversion Hl; subst; lia).
  assert (Pp : 1 <= 2 ^ Z.max eb 0).
  { assert (0 < 2 ^ Z.max eb 0) by (apply Z.pow_pos_nonneg; lia). lia. }
  assert (HB : Z.max n 2 * B < 2 ^ 53) by nia.
  destruct (run_total n B true eb Hn HB He p Hp) as (st & Hr & Hst).
  destruct (body_total n B true eb Hn HB He p s st Hb Hst)
    as (st1 & v & _ & Hs1 & Hv & Hbody).
  set (w := wsum n (p ++ [s])) in *.
  assert (Hw : Z.abs w <= n * B) by (apply wsum_bound; (assumption || lia)).
  assert (Hw53 : Z.abs w < 2 ^ 53) by nia.
  destruct (round_exact_value w n eb v ltac:(nia) Hn He Hv) as (k & Hk & Nk).
  exists st, (mkState (sreg st1) (acc st1) (result st ++ [v])), v, k.
  split; [exact Hr|].
  split; [rewrite run_snoc, Hr; exact Hbody|].
  split; [reflexivity|]. cbn [acc].
  assert (Ha : (num_value (acc st1) == inject_Z w)%Q).
  { rewrite (state_after_acc _ _ _ _ Hs1). cbn [num_value].
    apply Z2SF_value. exact Hw53. }
  split; [exact Ha|]. split.
  - refine (nearest_even_comp _ _ _ _ Nk). rewrite Ha. reflexivity.
  - rewrite Hk, pow2_opp. reflexivity.
Qed.

Lemma C10_round_mode_witness :
  exists st st' v k,
    run [1; -2] 2 true 1 = Ok st
    /\ run ([1; -2] ++ [4]) 2 true 1 = Ok st'
    /\ result st' = result st ++ [v]
    /\ (num_value (acc st') == inject_Z 2)%Q
    /\ nearest_even k (num_value (acc st') / inject_Z 2 * pow2 1)
    /\ (SF2Q v == inject_Z k / pow2 1)%Q.
Proof.
  apply (C10_round_mode [1; -2] 4 2 1 4); try lia.
  - vm_compute. reflexivity.
  - unfold bounded_by. repeat (constructor; [lia|]). constructor.
Defined.

(** ** The earlier model on bounded samples *)

Lemma legacy_run_snoc (p : list Z) (x n : Z) :
  Legacy.run (p ++ [x]) n
  = (st <- Legacy.run p n ;; Legacy.body n st x).
Proof.
  unfold Legacy.run. destruct (init n) as [st0|]; [|reflexivity].
  cbn [bind]. rewrite foldM_app.
  destruct (foldM (Legacy.body n) p st0) as [st|]; [|reflexivity].
  cbn [bind foldM]. destruct (Legacy.body n st x); reflexivity.
Qed.

Section LegacyOutputs.

Variables (n B : Z).
Hypothesis Hn : 1 <= n < 2 ^ 53.
Hypothesis HB : Z.max n 2 * B < 2 ^ 53.

Lemma legacy_run_outputs (p : list Z) :
  bounded_by B p ->
  exists st,
    Legacy.run p n = Ok st /\ state_after n p st
    /\ Forall2 (fun w a => mean (Float (Z2SF a)) n = Ok w)
         (result st) (window_sums n p).
Proof.
  induction p as [|s p IH] using rev_ind; intros Hb.
  - unfold Legacy.run. rewrite init_ok by lia. cbn [bind foldM].
    eexists. split; [reflexivity|].
    split; [apply state_after_init; lia|]. constructor.
  - destruct (bounded_by_app _ _ _ Hb) as [Hp _].
    destruct (IH Hp) as (st & Hr & Hs & Ho).
    destruct (update_exact n B ltac:(lia) HB p s st Hb Hs)
      as (st1 & Hu & Hs1 & Hres).
    rewrite legacy_run_snoc, Hr. cbn [bind]. unfold Legacy.body.
    rewrite Hu. cbn [bind]. rewrite (state_after_acc _ _ _ _ Hs1).
    rewrite mean_float by exact Hn. cbn [bind].
    eexists. split; [reflexivity|].
    split.
    + destruct Hs1 as [A1 A2]. split; cbn [sreg acc]; [exact A1|].
      destruct p; reflexivity.
    + cbn [result]. rewrite Hres, window_sums_snoc.
      apply Forall2_app; [exact Ho|].
      constructor; [|constructor]. apply mean_float. exact Hn.
Qed.

Lemma legacy_outputs (samples : list Z) :
  bounded_by B samples ->
  exists out,
    Legacy.fpga_moving_integrator samples n = Ok out
    /\ Forall2 (fun w a => mean (Float (Z2SF a)) n = Ok w)
         out (window_sums n samples)
    /\ Forall (fun a => Z.abs a <= n * B /\ Z.abs a < 2 ^ 53)
         (window_sums n samples).
Proof.
  intros Hb. destruct (legacy_run_outputs samples Hb) as (st & Hr & _ & Ho).
  exists (result st). unfold Legacy.fpga_moving_integrator. rewrite Hr.
  split; [reflexivity|]. split; [exact Ho|].
  pose proof (window_sums_bound n B samples ltac:(lia) Hb) as Hw.
  apply (Forall_impl _ (P := fun a => Z.abs a <= n * B)); [|exact Hw].
  intros a Ha. split; [exact Ha|]. nia.
Qed.

End LegacyOutputs.

(** ** The accuracy of the plain quotient *)

Lemma dyadic_mantissa_value (s : bool) (M E0 z e : Z) :
  E0 <= e -> cond_Zopp s M = z * 2 ^ (e - E0) ->
  (inject_Z z * pow2 e == inject_Z (cond_Zopp s M) * pow2 E0)%Q.
Proof.
  intros He Hc. rewrite Hc, inject_Z_mult, <- (pow2_Z (e - E0)) by lia.
  rewrite <- Qmult_assoc, <- pow2_add.
  replace (e - E0 + E0) with e by lia. reflexivity.
Qed.

Lemma mean_accuracy (a n : Z) (w : float) :
  Z.abs a < 2 ^ 53 -> 1 <= n < 2 ^ 53 ->
  mean (Float (Z2SF a)) n = Ok w ->
  (- inject_Z (Z.abs a)
   <= inject_Z (2 ^ 53) * (SF2Q w * inject_Z n - inject_Z a)
   <= inject_Z (Z.abs a))%Q.
Proof.
  intros Ha Hn H. destruct (Z.eq_dec a 0) as [A0|A0].
  - rewrite A0, Z2SF_0 in H.
    rewrite (proj1 (mean_zero (Float fzero) n (or_intror eq_refl)
                      ltac:(lia)) w H).
    rewrite A0. cbn [SF2Q fzero Z.abs]. change (inject_Z 0) with 0%Q.
    split; lra.
  - destruct (mean_int a n A0 Ha Hn)
      as (M & E0 & z & e & HE & HM & Near & Norm & R & Hze & Hc & Hm).
    rewrite Hm in H. injection H as <-.
    rewrite (dyadic_value z e R).
    rewrite (dyadic_mantissa_value (sign_of a) M E0 z e ltac:(lia) Hc).
    set (g := 2 ^ (- E0)) in *.
    assert (Pg : 0 < g) by (apply Z.pow_pos_nonneg; lia).
    pose proof (pow2_neg_inv E0 ltac:(lia)) as Hg. fold g in Hg.
    pose proof (pow2_pos E0) as Pt. set (t := pow2 E0) in *.
    set (A := Z.abs a) in *.
    assert (D1 : 2 ^ 53 * (M * n - A * g) <= A * g) by lia.
    assert (D2 : - (A * g) <= 2 ^ 53 * (M * n - A * g)) by lia.
    rewrite Zle_Qle in D1, D2.
    apply (Qmult_le_compat_r _ _ t) in D1; [|apply Qlt_le_weak; exact Pt].
    apply (Qmult_le_compat_r _ _ t) in D2; [|apply Qlt_le_weak; exact Pt].
    assert (EA : (inject_Z (A * g) * t == inject_Z A)%Q).
    { rewrite inject_Z_mult, <- Qmult_assoc, (Qmult_comm (inject_Z g)), Hg.
      ring. }
    assert (ED : (inject_Z (2 ^ 53 * (M * n - A * g)) * t
                  == inject_Z (2 ^ 53)
                     * (inject_Z M * t * inject_Z n - inject_Z A))%Q).
    { unfold Z.sub. rewrite inject_Z_mult, inject_Z_plus, inject_Z_opp.
      rewrite (inject_Z_mult M n), <- EA. ring. }
    rewrite inject_Z_opp in D2.
    setoid_replace (- inject_Z (A * g) * t)%Q
      with (- (inject_Z (A * g) * t))%Q in D2 by ring.
    rewrite EA, ED in D1. rewrite EA, ED in D2.
    unfold sign_of. destruct (Z.ltb_spec a 0) as [Neg|Pos]; cbn [cond_Zopp].
    + assert (Ea : (inject_Z a == - inject_Z A)%Q).
      { unfold A. rewrite <- inject_Z_opp. apply inject_Z_injective. lia. }
      rewrite Ea, inject_Z_opp.
      set (x := inject_Z M) in *. set (y := inject_Z A) in *.
      set (c := inject_Z (2 ^ 53)) in *. set (k := inject_Z n) in *.
      setoid_replace (c * (- x * t * k - - y))%Q
        with (- (c * (x * t * k - y)))%Q by ring.
      split; lra.
    + assert (Ea : (inject_Z a == inject_Z A)%Q).
      { apply inject_Z_injective. unfold A. lia. }
      rewrite Ea. split; assumption.
Qed.

(** On samples of magnitude at most [B] with
    [max(n, 2) * B < 2^53], the earlier model returns, and each output
    [w] is the exact mean [a / n] of its window up to a relative error of
    [2^-53]: [2^53 * |w * n - a| <= |a|]. *)
Theorem legacy_accuracy (samples : list Z) (n B : Z) :
  1 <= n < 2 ^ 53 -> Z.max n 2 * B < 2 ^ 53 -> bounded_by B samples ->
  exists out,
    Legacy.fpga_moving_integrator samples n = Ok out
    /\ Forall2
         (fun w a =>
            (- inject_Z (Z.abs a)
             <= inject_Z (2 ^ 53) * (SF2Q w * inject_Z n - inject_Z a)
             <= inject_Z (Z.abs a))%Q)
         out (window_sums n samples).
Proof.
  intros Hn HB Hb.
  destruct (legacy_outputs n B Hn HB samples Hb) as (out & Hf & Ho & Hw).
  exists out. split; [exact Hf|].
  clear Hf. revert Hw Ho. generalize (window_sums n samples).
  intros sums Hw Ho. induction Ho as [|v a out sums Hv Ho IH];
    [constructor|].
  inversion Hw as [|? ? [_ Ha] Hw']; subst.
  constructor; [|apply IH; exact Hw'].
  apply mean_accuracy; assumption.
Qed.

Lemma legacy_accuracy_witness :
  exists out,
    Legacy.fpga_moving_integrator [1; 2; 4] 3 = Ok out
    /\ Forall2
         (fun w a =>
            (- inject_Z (Z.abs a)
             <= inject_Z (2 ^ 53) * (SF2Q w * inject_Z 3 - inject_Z a)
             <= inject_Z (Z.abs a))%Q)
         out (window_sums 3 [1; 2; 4]).
Proof.
  apply (legacy_accuracy [1; 2; 4] 3 4); try lia.
  unfold bounded_by. repeat (constructor; [lia|]). constructor.
Defined.

(** ** The model quantises the plain quotient *)

Lemma nearest_even_self (k : Z) (x : Q) :
  (x == inject_Z k)%Q -> nearest_even k x.
Proof.
  intros E. split.
  - rewrite E. split; lra.
  - rewrite E. intros [H|H]; lra.
Qed.

Lemma rne_dy_nearest (z x : Z) :
  nearest_even (rne_dy z x) (inject_Z z * pow2 x).
Proof.
  unfold rne_dy. destruct (Z.leb_spec 0 x) as [L|L].
  - apply nearest_even_self.
    rewrite inject_Z_mult, pow2_Z by exact L. reflexivity.
  - assert (HD : 0 < 2 ^ (- x)) by (apply Z.pow_pos_nonneg; lia).
    pose proof (rne_div_nearest_even (Z.abs z) (2 ^ (- x)) HD) as N.
    assert (Et : (/ inject_Z (2 ^ (- x)) == pow2 x)%Q).
    { rewrite <- (pow2_Z (- x)) by lia. rewrite <- pow2_opp.
      rewrite Z.opp_involutive. reflexivity. }
    unfold sign_of. destruct (Z.ltb_spec z 0) as [Neg|Pos]; cbn [cond_Zopp].
    + apply nearest_even_opp in N.
      refine (nearest_even_comp _ _ _ _ N). rewrite Et.
      replace z with (- Z.abs z) at 2 by lia. rewrite inject_Z_opp. ring.
    + refine (nearest_even_comp _ _ _ _ N). rewrite Et.
      replace (Z.abs z) with z by lia. reflexivity.
Qed.

Section Quantised.

Variables (a n eb : Z).
Hypothesis Ha : Z.abs a < 2 ^ 53.
Hypothesis Hn : 1 <= n < 2 ^ 53.
Hypothesis He : -968 <= eb <= 970.

Lemma truncate_of_mean (w lo : float) :
  mean (Float (Z2SF a)) n = Ok w ->
  value_of false (Float (Z2SF a)) n eb = Ok lo ->
  (SF2Q lo <= SF2Q w)%Q /\ (SF2Q w < SF2Q lo + pow2 (- eb))%Q.
Proof.
  intros Hw Hl. pose proof (pow2_pos (- eb)) as Pt.
  destruct (Z.eq_dec a 0) as [A0|A0].
  - rewrite A0, Z2SF_0 in Hw, Hl.
    rewrite (proj1 (mean_zero (Float fzero) n (or_intror eq_refl)
                      ltac:(lia)) w Hw).
    rewrite (proj1 (value_zero false (Float fzero) n eb
                      (or_intror eq_refl) ltac:(lia)) lo Hl).
    cbn [SF2Q fzero]. split; lra.
  - destruct (mean_int a n A0 Ha Hn)
      as (M & E0 & z & e & HE & HM & _ & _ & R & Hze & _ & Hm).
    rewrite (emit_exact false _ n z e eb Hm R ltac:(lia) He) in Hl.
    rewrite Hm in Hw. injection Hw as <-. injection Hl as <-.
    pose proof (emit_value false z e eb R ltac:(lia) He) as V.
    cbn [quant] in V. rewrite V, (dyadic_value z e R). clear V.
    rewrite floor_dy_Q.
    set (y := (inject_Z z * pow2 (e + eb))%Q).
    assert (Ey : (inject_Z z * pow2 e == y * pow2 (- eb))%Q).
    { unfold y. rewrite <- Qmult_assoc, <- pow2_add.
      replace (e + eb + - eb) with e by lia. reflexivity. }
    rewrite Ey.
    pose proof (Qfloor_le y) as F1. pose proof (Qlt_floor y) as F2.
    rewrite inject_Z_plus in F2. change (inject_Z 1) with 1%Q in F2.
    set (f := inject_Z (Qfloor y)) in *. set (t := pow2 (- eb)) in *.
    split.
    + apply Qmult_le_compat_r; [exact F1|apply Qlt_le_weak; exact Pt].
    + setoid_replace (f * t + t)%Q with ((f + 1) * t)%Q by ring.
      apply Qmult_lt_compat_r; assumption.
Qed.

Lemma round_of_mean (w hi : float) :
  mean (Float (Z2SF a)) n = Ok w ->
  value_of true (Float (Z2SF a)) n eb = Ok hi ->
  exists k,
    (SF2Q hi == inject_Z k * pow2 (- eb))%Q
    /\ nearest_even k (SF2Q w * pow2 eb).
Proof.
  intros Hw Hh. destruct (Z.eq_dec a 0) as [A0|A0].
  - rewrite A0, Z2SF_0 in Hw, Hh.
    rewrite (proj1 (mean_zero (Float fzero) n (or_intror eq_refl)
                      ltac:(lia)) w Hw).
    rewrite (proj1 (value_zero true (Float fzero) n eb
                      (or_intror eq_refl) ltac:(lia)) hi Hh).
    exists 0. cbn [SF2Q fzero]. change (inject_Z 0) with 0%Q.
    split; [ring|]. apply nearest_even_self.
    change (inject_Z 0) with 0%Q. ring.
  - destruct (mean_int a n A0 Ha Hn)
      as (M & E0 & z & e & HE & HM & _ & _ & R & Hze & _ & Hm).
    rewrite (emit_exact true _ n z e eb Hm R ltac:(lia) He) in Hh.
    rewrite Hm in Hw. injection Hw as <-. injection Hh as <-.
    exists (rne_dy z (e + eb)).
    split; [exact (emit_value true z e eb R ltac:(lia) He)|].
    refine (nearest_even_comp _ _ _ _ (rne_dy_nearest z (e + eb))).
    rewrite (dyadic_value z e R), pow2_add. ring.
Qed.

(** With at least 106 extra bits the quantisation loses nothing. *)
Lemma value_of_mean (mr : bool) :
  106 <= eb -> value_of mr (Float (Z2SF a)) n eb = mean (Float (Z2SF a)) n.
Proof.
  intros Hb. destruct (Z.eq_dec a 0) as [A0|A0].
  - rewrite A0, Z2SF_0.
    rewrite (proj2 (value_zero mr (Float fzero) n eb
                      (or_intror eq_refl) ltac:(lia)))
      by (unfold emin; lia).
    rewrite (proj2 (mean_zero (Float fzero) n (or_intror eq_refl)
                      ltac:(lia))) by lia.
    reflexivity.
  - destruct (mean_int a n A0 Ha Hn)
      as (M & E0 & z & e & HE & HM & _ & _ & R & Hze & _ & Hm).
    rewrite (emit_exact mr _ n z e eb Hm R ltac:(lia) He), Hm.
    f_equal. apply dyadic_eq.
    rewrite quant_exact by lia.
    rewrite inject_Z_mult, <- pow2_Z by lia.
    rewrite <- Qmult_assoc, <- pow2_add.
    replace (e + eb + - eb) with e by lia. reflexivity.
Qed.

End Quantised.

Lemma Forall2_eq {A : Type} (l1 l2 : list A) :
  Forall2 eq l1 l2 -> l1 = l2.
Proof.
  induction 1 as [|x y l1 l2 E _ IH]; [reflexivity|].
  rewrite E, IH. reflexivity.
Qed.

(** On bounded samples the model quantises the outputs of the earlier
    one: each Truncate output is the largest multiple of [2^-eb] not
    above the earlier output at the same index, and each Round output is
    a multiple of [2^-eb] nearest to it (the even one on a tie). *)
Theorem quantises_legacy (samples : list Z) (n B eb : Z) :
  1 <= n < 2 ^ 53 -> Z.max n 2 * B < 2 ^ 53 -> -968 <= eb <= 970 ->
  bounded_by B samples ->
  exists old lo hi,
    Legacy.fpga_moving_integrator samples n = Ok old
    /\ fpga_moving_integrator samples n false eb = Ok lo
    /\ fpga_moving_integrator samples n true eb = Ok hi
    /\ Forall2
         (fun u w =>
            (SF2Q u <= SF2Q w)%Q /\ (SF2Q w < SF2Q u + pow2 (- eb))%Q
            /\ exists j, (SF2Q u == inject_Z j * pow2 (- eb))%Q)
         lo old
    /\ Forall2
         (fun v w =>
            exists k,
              (SF2Q v == inject_Z k * pow2 (- eb))%Q
              /\ nearest_even k (SF2Q w * pow2 eb))
         hi old.
Proof.
  intros Hn HB He Hb.
  destruct (legacy_outputs n B Hn HB samples Hb) as (old & Hf & Ho & Hw).
  destruct (fpga_outputs n B false eb samples Hn HB He Hb)
    as (lo & Hl & Ho1 & _).
  destruct (fpga_outputs n B true eb samples Hn HB He Hb)
    as (hi & Hh & Ho2 & _).
  exists old, lo, hi. repeat (split; [assumption|]). split.
  - refine (Forall2_join _ _ _ _ _ lo old _ Hw Ho1 Ho).
    intros u w a [_ Ha] H1 H2.
    destruct (truncate_of_mean a n eb Ha Hn He w u H2 H1) as [T1 T2].
    split; [exact T1|]. split; [exact T2|].
    exact (value_of_grid a n eb Ha Hn He false u H1).
  - refine (Forall2_join _ _ _ _ _ hi old _ Hw Ho2 Ho).
    intros v w a [_ Ha] H1 H2.
    exact (round_of_mean a n eb Ha Hn He w v H2 H1).
Qed.

Lemma quantises_legacy_witness :
  exists old lo hi,
    Legacy.fpga_moving_integrator [1; 2; 4] 3 = Ok old
    /\ fpga_moving_integrator [1; 2; 4] 3 false 2 = Ok lo
    /\ fpga_moving_integrator [1; 2; 4] 3 true 2 = Ok hi
    /\ Forall2
         (fun u w =>
            (SF2Q u <= SF2Q w)%Q /\ (SF2Q w < SF2Q u + pow2 (- 2))%Q
            /\ exists j, (SF2Q u == inject_Z j * pow2 (- 2))%Q)
         lo old
    /\ Forall2
         (fun v w =>
            exists k,
              (SF2Q v == inject_Z k * pow2 (- 2))%Q
              /\ nearest_even k (SF2Q w * pow2 2))
         hi old.
Proof.
  apply (quantises_legacy [1; 2; 4] 3 4 2); try lia.
  unfold bounded_by. repeat (constructor; [lia|]). constructor.
Defined.

(** With [106 <= extra_bits <= 970] and bounded samples, the model
    returns exactly the outputs of the earlier one, in both modes: the
    quantisation no longer changes the quotient. *)
Theorem many_extra_bits (samples : list Z) (n B : Z) (mr : bool) (eb : Z) :
  1 <= n < 2 ^ 53 -> Z.max n 2 * B < 2 ^ 53 -> 106 <= eb <= 970 ->
  bounded_by B samples ->
  exists out,
    fpga_moving_integrator samples n mr eb = Ok out
    /\ Legacy.fpga_moving_integrator samples n = Ok out.
Proof.
  intros Hn HB He Hb.
  destruct (legacy_outputs n B Hn HB samples Hb) as (old & Hf & Ho & Hw).
  destruct (fpga_outputs n B mr eb samples Hn HB ltac:(lia) Hb)
    as (out & Hl & Ho1 & _).
  exists out. split; [exact Hl|]. rewrite Hf. do 2 f_equal.
  apply Forall2_eq.
  refine (Forall2_join _ _ _ _ _ old out _ Hw Ho Ho1).
  intros w v a [_ Ha] H1 H2.
  rewrite (value_of_mean a n eb Ha Hn ltac:(lia) mr ltac:(lia)) in H2.
  rewrite H1 in H2. injection H2 as ->. reflexivity.
Qed.

Lemma many_extra_bits_witness :
  exists out,
    fpga_moving_integrator [1; 2; 4] 3 true 106 = Ok out
    /\ Legacy.fpga_moving_integrator [1; 2; 4] 3 = Ok out.
Proof.
  apply (many_extra_bits [1; 2; 4] 3 4 true 106); try lia.
  unfold bounded_by. repeat (constructor; [lia|]). constructor.
Defined.

(** ** Scaling a golden value back to an integer *)

Lemma mapM_Forall2 {A B : Type} (f : A -> res B) (l : list A) (ks : list B) :
  Forall2 (fun v k => f v = Ok k) l ks -> mapM f l = Ok ks.
Proof.
  induction 1 as [|v k l ks Hv _ IH]; [reflexivity|].
  cbn [mapM]. rewrite Hv. cbn [bind]. rewrite IH. reflexivity.
Qed.

(** [int(v * 2 ** k)] gives back the integer [K] of [v = K / 2^k]. *)
Theorem rescale_exact (K k : Z) :
  Z.abs K < 2 ^ 53 -> -968 <= k <= 970 ->
  rescale k (dyadic K (- k)) = Ok K.
Proof.
  intros HK Hk. unfold rescale. rewrite (py_pow2_ok k) by lia.
  cbn [py_mul to_float bind].
  rewrite (to_float_pow2 k) by (unfold emin; lia). cbn [bind].
  assert (R1 : repr 1 k) by (apply repr_pow2; unfold emin; lia).
  destruct (Z.eq_dec K 0) as [->|K0].
  - rewrite dyadic_0, (dyadic_repr 1 k R1). reflexivity.
  - pose proof (Zdigits2_lt_pow2 K 53 ltac:(lia) HK) as Hd.
    assert (RK : repr K (- k)) by (unfold repr, emin; repeat split; lia).
    assert (R0 : repr K 0) by (apply repr_int; assumption).
    rewrite (fmul_dyadic K (- k) 1 k K 0 RK R1 R0).
    + apply (py_int_Z K false). exact HK.
    + change (pow2 0) with 1%Q.
      setoid_replace (inject_Z K * pow2 (- k) * (inject_Z 1 * pow2 k))%Q
        with (inject_Z K * (pow2 (- k) * pow2 k))%Q
        by (change (inject_Z 1) with 1%Q; ring).
      rewrite <- pow2_add. replace (- k + k) with 0 by lia.
      change (pow2 0) with 1%Q. ring.
Qed.

(** The quantised integer of a bounded accumulator is small. *)
Lemma value_of_small (mr : bool) (a n k B : Z) :
  Z.abs a <= n * B -> 1 <= n < 2 ^ 53 -> -968 <= k <= 970 ->
  Z.max n 2 * B * 2 ^ Z.max k 0 < 2 ^ 53 ->
  exists K,
    value_of mr (Float (Z2SF a)) n k = Ok (dyadic K (- k))
    /\ Z.abs K < 2 ^ 53.
Proof.
  intros Hab Hn Hk Hs.
  assert (B0 : 0 <= B) by nia.
  assert (Pp : 1 <= 2 ^ Z.max k 0).
  { assert (0 < 2 ^ Z.max k 0) by (apply Z.pow_pos_nonneg; lia). lia. }
  assert (Ha : Z.abs a < 2 ^ 53) by nia.
  destruct (Z.eq_dec a 0) as [A0|A0].
  - exists 0. split; [|reflexivity]. rewrite A0, Z2SF_0, dyadic_0.
    apply (proj2 (value_zero mr (Float fzero) n k
                    (or_intror eq_refl) ltac:(lia)));
      unfold emin; lia.
  - destruct (mean_int a n A0 Ha Hn)
      as (M & E0 & z & e & HE & HM & Near & _ & R & Hze & Hc & Hm).
    exists (quant mr z (e + k)).
    split; [exact (emit_exact mr _ n z e k Hm R ltac:(lia) Hk)|].
    destruct R as (Rz & Rd & Re & Rm).
    assert (Hz : Z.abs z < 2 ^ 53) by (apply Zdigits2_le_pow2; assumption).
    destruct (Z_le_gt_dec 0 k) as [Pk|Nk].
    + (* at most [B * 2^k] *)
      replace (Z.max k 0) with k in * by lia.
      set (g := 2 ^ (- E0)) in *.
      assert (Pg : 0 < g) by (apply Z.pow_pos_nonneg; lia).
      assert (HMg : M <= B * g) by nia.
      assert (EK : quant mr z (e + k)
                   = quant mr (cond_Zopp (sign_of a) M) (E0 + k)).
      { rewrite Hc. replace (E0 + k) with (e + k - (e - E0)) by lia.
        rewrite quant_scale by lia. reflexivity. }
      assert (HK : Z.abs (quant mr z (e + k)) <= B * 2 ^ k).
      { rewrite EK. apply quant_bound; rewrite cond_Zopp_abs;
          rewrite (Z.abs_eq M) by lia.
        - intros L.
          assert (Eg : g * 2 ^ (E0 + k) = 2 ^ k).
          { unfold g. rewrite <- Z.pow_add_r by lia. f_equal. lia. }
          assert (0 < 2 ^ (E0 + k)) by (apply Z.pow_pos_nonneg; lia).
          rewrite <- Eg. nia.
        - intros L.
          assert (Eg : 2 ^ k * 2 ^ (- (E0 + k)) = g).
          { unfold g. rewrite <- Z.pow_add_r by lia. f_equal. lia. }
          rewrite <- Z.mul_assoc, Eg. exact HMg. }
      nia.
    + destruct (Z_le_gt_dec 0 (e + k)) as [L|G].
      * rewrite quant_exact by exact L.
        replace (e + k) with 0 by lia. change (2 ^ 0) with 1. lia.
      * pose proof (quant_small mr z (e + k) ltac:(lia)). lia.
Qed.

Lemma Forall2_exists {A C : Type} (P : A -> C -> Prop) (l : list A) :
  Forall (fun v => exists k, P v k) l -> exists ks, Forall2 P l ks.
Proof.
  induction 1 as [|v l (k & Hk) _ (ks & IH)].
  - exists []. constructor.
  - exists (k :: ks). constructor; assumption.
Qed.

Lemma dyadic_small_value (K k : Z) :
  Z.abs K < 2 ^ 53 -> -968 <= k <= 970 ->
  (SF2Q (dyadic K (- k)) == inject_Z K * pow2 (- k))%Q.
Proof.
  intros HK Hk. destruct (Z.eq_dec K 0) as [->|K0].
  - rewrite dyadic_0. cbn [SF2Q fzero]. change (inject_Z 0) with 0%Q. ring.
  - pose proof (Zdigits2_lt_pow2 K 53 ltac:(lia) HK) as Hd.
    apply dyadic_value. unfold repr, emin. repeat split; lia.
Qed.

Lemma fpga_nil (n : Z) (mr : bool) (eb : Z) :
  0 <= n -> fpga_moving_integrator [] n mr eb = Ok [].
Proof.
  intros H. unfold fpga_moving_integrator. rewrite run_nil, init_ok by lia.
  reflexivity.
Qed.

(** ** The golden values are the outputs, scaled without loss *)

(** On a bounded vector [generate_test_vectors] returns one line per
    sample, and the golden integer [g] written beside a sample is the
    output [v] of the model for that sample scaled by [2^k] with nothing
    lost: [v = g / 2^k], for [k = out_width - bit_width + extra_bits], in
    both modes. *)
Theorem golden_round_trip (vector : list Z) (bw ow n : Z) (mr : bool)
    (eb B : Z) :
  1 <= n < 2 ^ 53 -> -968 <= ow - bw + eb <= 970 ->
  Z.max n 2 * B * 2 ^ Z.max (ow - bw + eb) 0 < 2 ^ 53 ->
  bounded_by B vector ->
  exists out golden,
    fpga_moving_integrator vector n mr (ow - bw + eb) = Ok out
    /\ generate_test_vectors vector bw ow n mr eb
       = Ok (map (fun p => format_line (fst p) (snd p))
               (combine vector golden))
    /\ length golden = length vector
    /\ Forall2
         (fun v g => (SF2Q v == inject_Z g * pow2 (- (ow - bw + eb)))%Q)
         out golden.
Proof.
  intros Hn Hk Hs Hb. unfold generate_test_vectors.
  set (k := ow - bw + eb) in *.
  destruct vector as [|s0 rest].
  - exists [], []. rewrite fpga_nil by lia. cbn [bind mapM combine map].
    repeat split. constructor.
  - assert (B0 : 0 <= B) by (inversion Hb; subst; lia).
    assert (Pp : 1 <= 2 ^ Z.max k 0).
    { assert (0 < 2 ^ Z.max k 0) by (apply Z.pow_pos_nonneg; lia). lia. }
    assert (HB : Z.max n 2 * B < 2 ^ 53) by nia.
    destruct (fpga_outputs n B mr k _ Hn HB Hk Hb) as (out & Hf & Ho & Hw).
    assert (Hex : Forall
                    (fun v => exists K,
                         v = dyadic K (- k) /\ Z.abs K < 2 ^ 53) out).
    { refine (Forall2_forall _ _ _ _ out _ Hw Ho).
      intros v a [Hab _] Hv.
      destruct (value_of_small mr a n k B Hab Hn Hk Hs) as (K & HK & Hsm).
      rewrite HK in Hv. injection Hv as <-. exists K. split; [reflexivity|].
      exact Hsm. }
    destruct (Forall2_exists _ _ Hex) as (golden & Hg).
    assert (Hm : mapM (rescale k) out = Ok golden).
    { apply mapM_Forall2.
      apply (Forall2_impl (R1 := fun v K =>
               v = dyadic K (- k) /\ Z.abs K < 2 ^ 53)); [|exact Hg].
      intros v K [-> HK]. apply rescale_exact; assumption. }
    exists out, golden. rewrite Hf. cbn [bind]. rewrite Hm. cbn [bind].
    split; [reflexivity|]. split; [reflexivity|]. split.
    + rewrite <- (Forall2_length Hg).
      unfold fpga_moving_integrator in Hf.
      destruct (run (s0 :: rest) n mr k) as [st|] eqn:R; [|discriminate].
      cbn [bind] in Hf. injection Hf as <-.
      exact (run_result_length _ _ _ _ _ R).
    + apply (Forall2_impl (R1 := fun v K =>
               v = dyadic K (- k) /\ Z.abs K < 2 ^ 53)); [|exact Hg].
      intros v K [-> HK]. apply dyadic_small_value; assumption.
Qed.

Lemma golden_round_trip_witness :
  exists out golden,
    fpga_moving_integrator [3; 1; 4] 2 true (6 - 4 + 0) = Ok out
    /\ generate_test_vectors [3; 1; 4] 4 6 2 true 0
       = Ok (map (fun p => format_line (fst p) (snd p))
               (combine [3; 1; 4] golden))
    /\ length golden = length [3; 1; 4]
    /\ Forall2
         (fun v g => (SF2Q v == inject_Z g * pow2 (- (6 - 4 + 0)))%Q)
         out golden.
Proof.
  apply (golden_round_trip [3; 1; 4] 4 6 2 true 0 4); try lia.
  - vm_compute. reflexivity.
  - unfold bounded_by. repeat (constructor; [lia|]). constructor.
Defined.

(** ** The default configuration of the test bench *)

(** In Truncate mode the emitted float is the floor of the exact scaled
    mean over [2^eb]. *)
Lemma truncate_value (a n eb : Z) :
  Z.abs a * 2 ^ Z.max eb 0 < 2 ^ 53 -> 1 <= n < 2 ^ 53 ->
  -968 <= eb <= 970 ->
  value_of false (Float (Z2SF a)) n eb
  = Ok (dyadic ((a * 2 ^ Z.max eb 0) / (n * 2 ^ Z.max (- eb) 0)) (- eb)).
Proof.
  intros Hs Hn He.
  assert (Pp : 1 <= 2 ^ Z.max eb 0).
  { assert (0 < 2 ^ Z.max eb 0) by (apply Z.pow_pos_nonneg; lia). lia. }
  assert (Pm : 1 <= 2 ^ Z.max (- eb) 0).
  { assert (0 < 2 ^ Z.max (- eb) 0) by (apply Z.pow_pos_nonneg; lia). lia. }
  destruct (Z.eq_dec a 0) as [->|Ha].
  - rewrite Z.mul_0_l, Z.div_0_l, dyadic_0, Z2SF_0 by nia.
    apply (proj2 (value_zero false (Float fzero) n eb
                    (or_intror eq_refl) ltac:(lia)));
      unfold emin; lia.
  - assert (Hb : Z.abs a < 2 ^ 53) by nia.
    destruct (value_of_int false a n eb Ha Hb Hn He)
      as (M & E0 & HE & HM & Near & Norm & V).
    rewrite V. cbn [quant].
    rewrite (floor_coincide a n eb M E0 Ha ltac:(lia) Hs ltac:(lia)
               Near Norm).
    reflexivity.
Qed.

Lemma wsum_nonneg (n : Z) (p : list Z) :
  Forall (fun x => 0 <= x) p -> 0 <= wsum n p.
Proof.
  intros H. unfold wsum, window.
  assert (Hr : Forall (fun x => 0 <= x) (rev p)) by (apply Forall_rev; exact H).
  revert Hr. generalize (rev p) (Z.to_nat n). clear.
  intros l k. revert k. induction l as [|x l IH]; intros [|k] H;
    cbn [firstn fold_right]; try lia.
  inversion H; subst. specialize (IH k ltac:(assumption)). lia.
Qed.

Lemma window_sums_nonneg (n : Z) (p : list Z) :
  Forall (fun x => 0 <= x) p ->
  Forall (fun a => 0 <= a) (window_sums n p).
Proof.
  intros H. unfold window_sums. apply Forall_forall. intros a Ha.
  apply in_map_iff in Ha. destruct Ha as (k & <- & _).
  apply wsum_nonneg.
  revert H. generalize (S k). clear. intros k. revert k.
  induction p as [|x p IH]; intros [|k] H; cbn [firstn];
    try constructor; inversion H; subst; [assumption|].
  apply IH. assumption.
Qed.

(** With the generics of the test bench (16-bit unsigned samples, a
    window of 32, a 24-bit output, truncation), for every vector the
    generator can draw, the golden value written beside each sample is 8
    times the sum of the last 32 samples, and it fits the 24-bit unsigned
    output. *)
Theorem default_golden_values (vector : list Z) :
  Forall (drawn G_INPUT_SIGNED G_DATA_IN_WIDTH) vector ->
  generate_test_vectors vector G_DATA_IN_WIDTH G_DATA_OUT_WIDTH G_SAMPLES
    G_ROUND_EVEN (- G_PROTECTION_BITS)
  = Ok (map (fun p => format_line (fst p) (snd p))
          (combine vector
             (map (fun a => 8 * a) (window_sums G_SAMPLES vector))))
  /\ Forall (fun a => 0 <= 8 * a < 2 ^ G_DATA_OUT_WIDTH)
       (window_sums G_SAMPLES vector)
  /\ length (window_sums G_SAMPLES vector) = length vector.
Proof.
  intros Hd.
  unfold G_INPUT_SIGNED, G_DATA_IN_WIDTH, G_DATA_OUT_WIDTH, G_SAMPLES,
    G_ROUND_EVEN, G_PROTECTION_BITS, drawn in *.
  assert (Hb : bounded_by 65534 vector).
  { unfold bounded_by.
    apply (Forall_impl _ (P := fun x => 0 <= x < 2 ^ 16 - 1)); [|exact Hd].
    intros x Hx. lia. }
  assert (Hp : Forall (fun x => 0 <= x) vector).
  { apply (Forall_impl _ (P := fun x => 0 <= x < 2 ^ 16 - 1)); [|exact Hd].
    intros x Hx. lia. }
  destruct (fpga_outputs 32 65534 false 8 vector ltac:(lia) ltac:(lia)
              ltac:(lia) Hb) as (out & Hf & Ho & Hw).
  pose proof (window_sums_nonneg 32 vector Hp) as Hnn.
  assert (Tv : forall a, Z.abs a <= 32 * 65534 ->
             value_of false (Float (Z2SF a)) 32 8
             = Ok (dyadic (8 * a) (- 8))).
  { intros a Hab.
    pose proof (truncate_value a 32 8) as T.
    change (2 ^ Z.max 8 0) with 256 in T.
    change (2 ^ Z.max (- 8) 0) with 1 in T.
    rewrite T by lia. do 2 f_equal.
    replace (a * 256) with (8 * a * (32 * 1)) by lia.
    apply Z.div_mul. lia. }
  assert (Hg : Forall2 (fun v g => rescale 8 v = Ok g) out
                 (map (fun a => 8 * a) (window_sums 32 vector))).
  { clear Hf. revert Hw Ho. generalize (window_sums 32 vector).
    intros sums Hw Ho. induction Ho as [|v a out sums Hv Ho IH];
      [constructor|].
    inversion Hw as [|? ? [Hab _] Hw']; subst.
    cbn [map]. constructor; [|apply IH; assumption].
    rewrite (Tv a Hab) in Hv. injection Hv as <-.
    apply rescale_exact; lia. }
  split; [|split].
  - unfold generate_test_vectors. change (24 - 16 + - 0) with 8.
    rewrite Hf. cbn [bind]. rewrite (mapM_Forall2 _ _ _ Hg). reflexivity.
  - rewrite Forall_forall in *. intros a Ha.
    destruct (Hw a Ha) as [Hab _]. specialize (Hnn a Ha).
    change (2 ^ 24) with 16777216. lia.
  - unfold window_sums. rewrite length_map, length_seq. reflexivity.
Qed.

Lemma default_golden_values_witness :
  generate_test_vectors [7; 65534; 0] G_DATA_IN_WIDTH G_DATA_OUT_WIDTH
    G_SAMPLES G_ROUND_EVEN (- G_PROTECTION_BITS)
  = Ok (map (fun p => format_line (fst p) (snd p))
          (combine [7; 65534; 0]
             (map (fun a => 8 * a) (window_sums G_SAMPLES [7; 65534; 0]))))
  /\ Forall (fun a => 0 <= 8 * a < 2 ^ G_DATA_OUT_WIDTH)
       (window_sums G_SAMPLES [7; 65534; 0])
  /\ length (window_sums G_SAMPLES [7; 65534; 0]) = length [7; 65534; 0].
Proof.
  apply (default_golden_values [7; 65534; 0]).
  unfold drawn, G_INPUT_SIGNED, G_DATA_IN_WIDTH.
  repeat (constructor; [lia|]). constructor.
Defined.

(** ** Exact arithmetic on multiples of [2^-c] *)

Section PowerOfTwo.

Variable c : Z.
Hypothesis Hc : 0 <= c <= 52.

Lemma repr_scaled (x : Z) : x <> 0 -> Z.abs x < 2 ^ 53 -> repr x (- c).
Proof.
  intros Nx Hx. pose proof (Zdigits2_lt_pow2 x 53 ltac:(lia) Hx).
  unfold repr, emin. repeat split; lia.
Qed.

(** The kernel element [1.0 / 2^c]. *)
Lemma recip_pow2 : fdiv (Z2SF 1) (Z2SF (2 ^ c)) = dyadic 1 (- c).
Proof.
  rewrite Z2SF_pow2 by lia. rewrite Z2SF_dyadic.
  apply fdiv_dyadic.
  - apply repr_int; [lia|reflexivity].
  - apply repr_pow2. unfold emin. lia.
  - apply repr_pow2. unfold emin. lia.
  - rewrite <- Qmult_assoc.
    setoid_replace (pow2 (- c) * (inject_Z 1 * pow2 c))%Q
      with (inject_Z 1 * (pow2 (- c) * pow2 c))%Q by ring.
    rewrite <- pow2_add. replace (- c + c) with 0 by lia. reflexivity.
Qed.

Lemma term_exact (x : Z) :
  Z.abs x < 2 ^ 53 ->
  fmul (Z2SF x) (dyadic 1 (- c)) = dyadic x (- c)
  /\ fmul (dyadic 1 (- c)) (Z2SF x) = dyadic x (- c).
Proof.
  intros Hx.
  assert (R1 : repr 1 (- c)) by (apply repr_pow2; unfold emin; lia).
  destruct (Z.eq_dec x 0) as [->|Nx].
  - rewrite Z2SF_0, dyadic_0, (dyadic_repr 1 (- c) R1).
    split; reflexivity.
  - assert (Rx : repr x 0) by (apply repr_int; assumption).
    rewrite Z2SF_dyadic. split; apply fmul_dyadic;
      try assumption; try (apply repr_scaled; assumption);
      change (pow2 0) with 1%Q; change (inject_Z 1) with 1%Q; ring.
Qed.

Lemma sum_exact (S x : Z) :
  Z.abs S < 2 ^ 53 -> Z.abs x < 2 ^ 53 ->
  fadd (dyadic S (- c)) (dyadic x (- c)) = dyadic (S + x) (- c).
Proof.
  intros HS Hx.
  destruct (Z.eq_dec S 0) as [->|NS]; destruct (Z.eq_dec x 0) as [->|Nx].
  - rewrite !dyadic_0. reflexivity.
  - rewrite Z.add_0_l, dyadic_0.
    rewrite (dyadic_repr x (- c) (repr_scaled x Nx Hx)). reflexivity.
  - rewrite Z.add_0_r, dyadic_0.
    rewrite (dyadic_repr S (- c) (repr_scaled S NS HS)). reflexivity.
  - apply fadd_repr; try (apply repr_scaled; assumption).
    rewrite inject_Z_plus. ring.
Qed.

Variable B : Z.

(** Adding the terms [t / 2^c] one by one is exact while the sums stay
    below [2^53]. *)
Lemma fold_exact (mul : float -> float) :
  (forall t, Z.abs t < 2 ^ 53 -> mul (Z2SF t) = dyadic t (- c)) ->
  forall (ts : list Z) (S : Z),
    bounded_by B ts ->
    Z.abs S + Z.of_nat (length ts) * B < 2 ^ 53 ->
    fold_left (fun s t => fadd s (mul (Z2SF t))) ts (dyadic S (- c))
    = dyadic (S + fold_right Z.add 0 ts) (- c).
Proof.
  intros Hmul ts. induction ts as [|t ts IH]; intros S Hb Hs.
  - cbn [fold_left fold_right]. rewrite Z.add_0_r. reflexivity.
  - inversion Hb as [|? ? Ht Hb']; subst.
    cbn [fold_left fold_right length] in *.
    assert (B0 : 0 <= B) by lia.
    assert (Ht53 : Z.abs t < 2 ^ 53) by nia.
    rewrite Hmul by exact Ht53.
    rewrite sum_exact by (assumption || nia).
    rewrite IH by (assumption || nia).
    f_equal. lia.
Qed.

End PowerOfTwo.

(** ** The terms of one element of the convolution *)

Lemma flat_map_map {A B C : Type} (f : B -> list C) (g : A -> B)
    (l : list A) :
  flat_map f (map g l) = flat_map (fun x => f (g x)) l.
Proof. induction l as [|x l IH]; cbn; [reflexivity|]. rewrite IH. reflexivity. Qed.

Lemma flat_map_nil {A B : Type} (f : A -> list B) (l : list A) :
  (forall x, In x l -> f x = []) -> flat_map f l = [].
Proof.
  induction l as [|x l IH]; intros H; cbn; [reflexivity|].
  rewrite (H x (or_introl eq_refl)). apply IH.
  intros y Hy. apply H. right. exact Hy.
Qed.

Lemma sum_app (l1 l2 : list Z) :
  fold_right Z.add 0 (l1 ++ l2)
  = fold_right Z.add 0 l1 + fold_right Z.add 0 l2.
Proof. induction l1 as [|x l1 IH]; cbn [app fold_right]; lia. Qed.

Lemma sum_rev (l : list Z) :
  fold_right Z.add 0 (rev l) = fold_right Z.add 0 l.
Proof.
  induction l as [|x l IH]; cbn [rev fold_right]; [reflexivity|].
  rewrite sum_app. cbn [fold_right]. lia.
Qed.

(** The elements of [l] at the indices in [[lo, hi)]. *)
Lemma pick_interval {A : Type} (l : list A) :
  forall lo hi : nat,
    flat_map (fun j => match nth_error l j with
                       | Some x => if (lo <=? j)%nat && (j <? hi)%nat
                                   then [x] else []
                       | None => []
                       end) (seq 0 (length l))
    = skipn lo (firstn hi l).
Proof.
  induction l as [|x l IH]; intros lo hi.
  - cbn. rewrite firstn_nil, skipn_nil. reflexivity.
  - cbn [length seq flat_map nth_error].
    rewrite <- seq_shift, flat_map_map. cbn [nth_error].
    destruct hi as [|hi]; cbn [firstn].
    + rewrite Bool.andb_false_r. cbn [app]. rewrite skipn_nil.
      apply flat_map_nil. intros j _.
      destruct (nth_error l j); [|reflexivity].
      rewrite Bool.andb_false_r. reflexivity.
    + destruct lo as [|lo]; cbn [skipn Nat.leb Nat.ltb andb app].
      * specialize (IH 0%nat hi). cbn [skipn] in IH. rewrite <- IH.
        f_equal.
      * rewrite <- (IH lo hi). reflexivity.
Qed.

(** The elements of [l] at the indices [k, k - 1, ..., 0]. *)
Lemma pick_reverse {A : Type} (l : list A) :
  forall k m : nat,
    (k < length l)%nat -> (k < m)%nat ->
    flat_map (fun j => if (j <=? k)%nat
                       then match nth_error l (k - j) with
                            | Some x => [x]
                            | None => []
                            end
                       else []) (seq 0 m)
    = rev (firstn (S k) l).
Proof.
  intros k. induction k as [|k IH]; intros m Hk Hm.
  - destruct m as [|m]; [lia|]. destruct l as [|x l]; [cbn in Hk; lia|].
    cbn [seq flat_map Nat.leb Nat.sub nth_error firstn rev app].
    rewrite <- seq_shift, flat_map_map.
    rewrite flat_map_nil; [reflexivity|]. intros j _. reflexivity.
  - destruct m as [|m]; [lia|].
    cbn [seq flat_map Nat.leb]. rewrite Nat.sub_0_r.
    rewrite <- seq_shift, flat_map_map.
    destruct (nth_error l (S k)) as [x|] eqn:Nx;
      [|apply nth_error_None in Nx; lia].
    assert (F : firstn (S (S k)) l = firstn (S k) l ++ [x]).
    { rewrite (firstn_S_nth x (S k) l Hk). f_equal. f_equal.
      apply nth_error_nth. exact Nx. }
    rewrite F, rev_app_distr. cbn [rev app]. f_equal.
    rewrite <- (IH m ltac:(lia) ltac:(lia)).
    apply flat_map_ext. intros j. reflexivity.
Qed.

(** A fold whose step adds, at each index, the terms of a list. *)
Lemma fold_pick (mul : float -> float) (h : nat -> list Z)
    (step : float -> nat -> float) (js : list nat) :
  (forall s j, In j js ->
     step s j = fold_left (fun s t => fadd s (mul (Z2SF t))) (h j) s) ->
  forall s0,
    fold_left step js s0
    = fold_left (fun s t => fadd s (mul (Z2SF t))) (flat_map h js) s0.
Proof.
  induction js as [|j js IH]; intros H s0; cbn [fold_left flat_map].
  - reflexivity.
  - rewrite fold_left_app, <- (H s0 j (or_introl eq_refl)).
    apply IH. intros s i Hi. apply H. right. exact Hi.
Qed.

Lemma firstn_seq_app (s m d : nat) : firstn m (seq s (m + d)) = seq s m.
Proof.
  rewrite seq_app, firstn_app, length_seq, Nat.sub_diag.
  cbn [firstn]. rewrite app_nil_r. apply firstn_all2.
  rewrite length_seq. lia.
Qed.

(** ** [np.convolve] on its two operand orders *)

Lemma np_convolve_long (a v : list float) :
  a <> [] -> v <> [] -> (length v <= length a)%nat ->
  np_convolve float fzero fadd fmul a v
  = Ok (map (conv_at float fzero fadd fmul a v)
          (seq 0 (length a + length v - 1))).
Proof.
  intros Ha Hv L. unfold np_convolve.
  destruct (Nat.ltb_spec (length a) (length v)) as [G|_]; [lia|].
  destruct a as [|x a']; [contradiction|].
  destruct v as [|y v']; [contradiction|]. reflexivity.
Qed.

Lemma np_convolve_short (a v : list float) :
  a <> [] -> v <> [] -> (length a < length v)%nat ->
  np_convolve float fzero fadd fmul a v
  = Ok (map (conv_at float fzero fadd fmul v a)
          (seq 0 (length v + length a - 1))).
Proof.
  intros Ha Hv L. unfold np_convolve.
  destruct (Nat.ltb_spec (length a) (length v)) as [_|G]; [|lia].
  destruct v as [|y v']; [contradiction|].
  destruct a as [|x a']; [contradiction|]. reflexivity.
Qed.

Lemma bounded_by_skipn (B : Z) (k : nat) (p : list Z) :
  bounded_by B p -> bounded_by B (skipn k p).
Proof.
  unfold bounded_by. revert k.
  induction p as [|x p IH]; intros [|k] H; cbn [skipn];
    try assumption; try constructor.
  apply IH. inversion H; subst. assumption.
Qed.

Section ReferencePow2.

Variables (c B : Z) (samples : list Z).
Hypothesis Hc : 0 <= c <= 52.
Hypothesis Hb : bounded_by B samples.
Hypothesis HB : 2 ^ c * B < 2 ^ 53.

Lemma window_pos : (1 <= Z.to_nat (2 ^ c))%nat.
Proof. pose proof (Z.pow_pos_nonneg 2 c ltac:(lia) ltac:(lia)). lia. Qed.

Lemma terms_exact (mul : float -> float) (ts : list Z) :
  (forall t, Z.abs t < 2 ^ 53 -> mul (Z2SF t) = dyadic t (- c)) ->
  bounded_by B ts -> (length ts <= Z.to_nat (2 ^ c))%nat ->
  fold_left (fun s t => fadd s (mul (Z2SF t))) ts fzero
  = dyadic (fold_right Z.add 0 ts) (- c).
Proof.
  intros Hmul Ht Hl. rewrite <- (dyadic_0 (- c)).
  rewrite (fold_exact c Hc B mul Hmul ts 0 Ht); [reflexivity|].
  pose proof (Z.pow_pos_nonneg 2 c ltac:(lia) ltac:(lia)) as P.
  destruct ts as [|t ts]; [cbn; lia|].
  inversion Ht; subst.
  assert (0 <= B) by lia.
  assert (Z.of_nat (length (t :: ts)) <= 2 ^ c) by lia.
  change (Z.abs 0) with 0. nia.
Qed.

(** The kernel is the shorter operand: element [k] adds the samples at
    the indices [k - 2^c + 1 .. k]. *)
Lemma conv_at_long (k : nat) :
  (k < length samples)%nat ->
  conv_at float fzero fadd fmul (map Z2SF samples)
    (repeat (dyadic 1 (- c)) (Z.to_nat (2 ^ c))) k
  = dyadic (wsum (2 ^ c) (firstn (S k) samples)) (- c).
Proof.
  intros Hk. pose proof window_pos as Np.
  unfold conv_at. rewrite length_map.
  rewrite (fold_pick (fun y => fmul y (dyadic 1 (- c)))
             (fun j => match nth_error samples j with
                       | Some x =>
                           if (S k - Z.to_nat (2 ^ c) <=? j)%nat
                              && (j <? S k)%nat
                           then [x] else []
                       | None => []
                       end)).
  - rewrite pick_interval.
    rewrite (terms_exact (fun y => fmul y (dyadic 1 (- c)))
               (skipn (S k - Z.to_nat (2 ^ c)) (firstn (S k) samples))).
    + f_equal. unfold wsum, window.
      rewrite firstn_rev, sum_rev, length_firstn.
      replace (Nat.min (S k) (length samples)) with (S k) by lia.
      reflexivity.
    + intros t Ht. apply (term_exact c Hc t Ht).
    + apply bounded_by_skipn, bounded_by_firstn. exact Hb.
    + rewrite length_skipn, length_firstn. lia.
  - intros s j _. rewrite nth_error_map.
    destruct (nth_error samples j) as [x|]; cbn [option_map];
      [|reflexivity].
    destruct (Nat.lt_ge_cases (k - j) (Z.to_nat (2 ^ c))) as [L|G].
    + rewrite nth_error_repeat by exact L.
      destruct (Nat.leb_spec j k) as [L1|G1].
      * replace ((S k - Z.to_nat (2 ^ c) <=? j)%nat && (j <? S k)%nat)
          with true; [reflexivity|].
        symmetry. apply andb_true_iff.
        split; [apply Nat.leb_le|apply Nat.ltb_lt]; lia.
      * replace ((S k - Z.to_nat (2 ^ c) <=? j)%nat && (j <? S k)%nat)
          with false; [reflexivity|].
        symmetry. apply andb_false_iff. right. apply Nat.ltb_ge. lia.
    + replace (nth_error (repeat (dyadic 1 (- c)) (Z.to_nat (2 ^ c)))
                 (k - j)) with (@None float).
      * replace ((S k - Z.to_nat (2 ^ c) <=? j)%nat && (j <? S k)%nat)
          with false; [reflexivity|].
        symmetry. apply andb_false_iff. left. apply Nat.leb_gt. lia.
      * symmetry. apply nth_error_None. rewrite repeat_length. exact G.
Qed.

(** The kernel is the longer operand, so the operands are swapped:
    element [k] adds the samples at the indices [k, k - 1, .., 0]. *)
Lemma conv_at_short (k : nat) :
  (length samples < Z.to_nat (2 ^ c))%nat -> (k < length samples)%nat ->
  conv_at float fzero fadd fmul
    (repeat (dyadic 1 (- c)) (Z.to_nat (2 ^ c))) (map Z2SF samples) k
  = dyadic (wsum (2 ^ c) (firstn (S k) samples)) (- c).
Proof.
  intros Hs Hk. unfold conv_at. rewrite repeat_length.
  rewrite (fold_pick (fun y => fmul (dyadic 1 (- c)) y)
             (fun j => if (j <=? k)%nat
                       then match nth_error samples (k - j) with
                            | Some x => [x]
                            | None => []
                            end
                       else [])).
  - rewrite pick_reverse by lia.
    rewrite (terms_exact (fun y => fmul (dyadic 1 (- c)) y)
               (rev (firstn (S k) samples))).
    + f_equal. unfold wsum, window.
      rewrite (@firstn_all2 Z (Z.to_nat (2 ^ c))
                 (rev (firstn (S k) samples))); [reflexivity|].
      rewrite length_rev, length_firstn. lia.
    + intros t Ht. apply (term_exact c Hc t Ht).
    + apply bounded_by_rev, bounded_by_firstn. exact Hb.
    + rewrite length_rev, length_firstn. lia.
  - intros s j Hj. apply in_seq in Hj.
    rewrite nth_error_repeat by lia. rewrite nth_error_map.
    destruct (nth_error samples (k - j)) as [x|]; cbn [option_map];
      destruct (j <=? k)%nat; reflexivity.
Qed.

(** For a window of [2^c] samples the trimmed reference returns, at
    each index, the sum of the window over [2^c] without rounding. *)
Lemma reference_pow2 :
  samples <> [] ->
  moving_integrator64 samples (2 ^ c) true
  = Ok (map (fun a => dyadic a (- c)) (window_sums (2 ^ c) samples)).
Proof.
  intros Ne. pose proof window_pos as Np.
  pose proof (Z.pow_pos_nonneg 2 c ltac:(lia) ltac:(lia)) as P.
  rewrite moving_integrator64_floats.
  2: { apply (Forall_impl _ (P := fun x => Z.abs x <= B)); [|exact Hb].
       intros x Hx. apply (proj1 (Z2SF_range x)). nia. }
  unfold moving_integrator, np_full.
  destruct (Z.ltb_spec (2 ^ c) 0) as [G|_]; [lia|]. cbn [bind].
  rewrite (recip_pow2 c Hc).
  assert (Na : map Z2SF samples <> []).
  { destruct samples; [contradiction|discriminate]. }
  assert (Nv : repeat (dyadic 1 (- c)) (Z.to_nat (2 ^ c)) <> []).
  { destruct (Z.to_nat (2 ^ c)); [lia|discriminate]. }
  unfold window_sums. rewrite map_map.
  destruct (Nat.lt_ge_cases (length samples) (Z.to_nat (2 ^ c)))
    as [L|G].
  - rewrite np_convolve_short
      by (try assumption; rewrite length_map, repeat_length; exact L).
    cbn [bind]. rewrite length_map, repeat_length, firstn_map.
    replace (Z.to_nat (2 ^ c) + length samples - 1)%nat
      with (length samples + (Z.to_nat (2 ^ c) - 1))%nat by lia.
    rewrite firstn_seq_app. f_equal.
    apply map_ext_in. intros k Hk. apply in_seq in Hk.
    apply conv_at_short; lia.
  - rewrite np_convolve_long
      by (try assumption; rewrite length_map, repeat_length; exact G).
    cbn [bind]. rewrite length_map, repeat_length, firstn_map.
    replace (length samples + Z.to_nat (2 ^ c) - 1)%nat
      with (length samples + (Z.to_nat (2 ^ c) - 1))%nat by lia.
    rewrite firstn_seq_app. f_equal.
    apply map_ext_in. intros k Hk. apply in_seq in Hk.
    apply conv_at_long; lia.
Qed.

End ReferencePow2.

Lemma Forall2_map_r {A C : Type} (f : C -> A) (cs : list C) :
  Forall2 (fun v a => v = f a) (map f cs) cs.
Proof. induction cs as [|x cs IH]; cbn [map]; constructor; auto. Qed.

Lemma Forall2_map_eq {A C : Type} (f : C -> A) (l : list A) (cs : list C) :
  Forall2 (fun v a => v = f a) l cs -> l = map f cs.
Proof.
  induction 1 as [|v a l cs E _ IH]; [reflexivity|].
  cbn [map]. rewrite E, IH. reflexivity.
Qed.

Lemma Forall2_weaken {A C : Type} (R1 R2 : A -> C -> Prop) (P : C -> Prop) :
  (forall u c, P c -> R1 u c -> R2 u c) ->
  forall (l : list A) (cs : list C),
    Forall P cs -> Forall2 R1 l cs -> Forall2 R2 l cs.
Proof.
  intros H l cs Hp H1.
  induction H1 as [|u c l cs Hu H1 IH]; [constructor|].
  inversion Hp; subst. constructor; [eauto|]. apply IH; assumption.
Qed.

Lemma scaled_value (c a : Z) :
  0 <= c <= 52 -> Z.abs a < 2 ^ 53 ->
  is_finite (dyadic a (- c)) = true
  /\ (SF2Q (dyadic a (- c)) * inject_Z (2 ^ c) == inject_Z a)%Q.
Proof.
  intros Hc Ha. destruct (Z.eq_dec a 0) as [->|Na].
  - rewrite dyadic_0. split; [reflexivity|]. cbn [SF2Q fzero]. ring.
  - pose proof (repr_scaled c Hc a Na Ha) as R. split.
    + rewrite (dyadic_repr a (- c) R). reflexivity.
    + pose proof (pow2_neg_inv (- c) ltac:(lia)) as I.
      rewrite Z.opp_involutive in I.
      rewrite (dyadic_value a (- c) R), <- Qmult_assoc, I. ring.
Qed.

(** With a window of [2^c] samples and [c <= eb], the value emitted for
    the window sum [a] is [a / 2^c] itself, in both modes. *)
Lemma value_of_pow2 (mr : bool) (a c eb : Z) :
  0 <= c <= 52 -> c <= eb <= 970 -> Z.abs a < 2 ^ 53 ->
  value_of mr (Float (Z2SF a)) (2 ^ c) eb = Ok (dyadic a (- c)).
Proof.
  intros Hc He Ha.
  pose proof (Z.pow_pos_nonneg 2 c ltac:(lia) ltac:(lia)) as P.
  assert (Hn : 1 <= 2 ^ c < 2 ^ 53).
  { split; [lia|]. apply Z.pow_lt_mono_r; lia. }
  destruct (Z.eq_dec a 0) as [->|Na].
  - rewrite Z2SF_0, dyadic_0.
    apply (value_zero mr (Float fzero) (2 ^ c) eb); try lia.
    + right. reflexivity.
    + unfold emin. lia.
  - pose proof (repr_scaled c Hc a Na Ha) as R.
    assert (M : mean (Float (Z2SF a)) (2 ^ c) = Ok (dyadic a (- c))).
    { rewrite mean_float by exact Hn. f_equal.
      rewrite (Z2SF_pow2 c) by lia. rewrite Z2SF_dyadic.
      apply fdiv_dyadic; [apply repr_int; assumption| |exact R|].
      - apply repr_pow2. unfold emin. lia.
      - change (pow2 0) with 1%Q.
        setoid_replace (inject_Z a * pow2 (- c) * (inject_Z 1 * pow2 c))%Q
          with (inject_Z a * (pow2 (- c) * pow2 c))%Q by ring.
        rewrite <- pow2_add. replace (- c + c) with 0 by lia.
        change (pow2 0) with 1%Q. ring. }
    rewrite (emit_exact mr (Float (Z2SF a)) (2 ^ c) a (- c) eb M R)
      by lia.
    f_equal. rewrite quant_exact by lia. apply dyadic_eq.
    rewrite inject_Z_mult, <- (pow2_Z (- c + eb)) by lia.
    rewrite <- Qmult_assoc, <- pow2_add.
    replace (- c + eb + - eb) with (- c) by lia. reflexivity.
Qed.

(** For a window of [2^c] samples ([0 <= c <= 52]) and samples of
    magnitude at most [B] with [2^c * B < 2^53], the trimmed reference
    returns one finite value for each sample, and that value is the
    exact mean: the sum of the window divided by [2^c], with no rounding
    error. *)
Theorem reference_exact_pow2 (samples : list Z) (c B : Z) :
  0 <= c <= 52 -> samples <> [] -> bounded_by B samples ->
  2 ^ c * B < 2 ^ 53 ->
  exists out,
    moving_integrator64 samples (2 ^ c) true = Ok out
    /\ Forall2 (fun v a =>
                  is_finite v = true
                  /\ (SF2Q v * inject_Z (2 ^ c) == inject_Z a)%Q)
         out (window_sums (2 ^ c) samples).
Proof.
  intros Hc Ne Hb HB.
  exists (map (fun a => dyadic a (- c)) (window_sums (2 ^ c) samples)).
  split; [apply (reference_pow2 c B samples Hc Hb HB Ne)|].
  pose proof (Z.pow_pos_nonneg 2 c ltac:(lia) ltac:(lia)) as P.
  pose proof (window_sums_bound (2 ^ c) B samples ltac:(lia) Hb) as Hw.
  refine (Forall2_weaken (fun v a => v = dyadic a (- c)) _ _ _ _ _ Hw
            (Forall2_map_r _ _)).
  intros u a Ha ->. apply scaled_value; [exact Hc|nia].
Qed.

Lemma reference_exact_pow2_witness :
  exists out,
    moving_integrator64 [3; -5; 8; 1; 7] (2 ^ 2) true = Ok out
    /\ Forall2 (fun v a =>
                  is_finite v = true
                  /\ (SF2Q v * inject_Z (2 ^ 2) == inject_Z a)%Q)
         out (window_sums (2 ^ 2) [3; -5; 8; 1; 7]).
Proof.
  apply (reference_exact_pow2 [3; -5; 8; 1; 7] 2 8); try lia.
  - discriminate.
  - unfold bounded_by. repeat (constructor; [lia|]). constructor.
Defined.

(** For a window of [2^c] samples and [c <= extra_bits <= 970], on
    non-empty bounded samples the hardware model returns, in both modes,
    exactly the list the trimmed reference returns. *)
Theorem fpga_matches_reference (samples : list Z) (c B : Z) (mr : bool)
    (eb : Z) :
  0 <= c <= 52 -> c <= eb <= 970 -> samples <> [] ->
  bounded_by B samples -> Z.max (2 ^ c) 2 * B < 2 ^ 53 ->
  exists out,
    moving_integrator64 samples (2 ^ c) true = Ok out
    /\ fpga_moving_integrator samples (2 ^ c) mr eb = Ok out.
Proof.
  intros Hc He Ne Hb HB.
  pose proof (Z.pow_pos_nonneg 2 c ltac:(lia) ltac:(lia)) as P.
  assert (Hn : 1 <= 2 ^ c < 2 ^ 53).
  { split; [lia|]. apply Z.pow_lt_mono_r; lia. }
  assert (B0 : 0 <= B).
  { destruct samples as [|x p]; [contradiction|].
    inversion Hb; subst. lia. }
  assert (HB' : 2 ^ c * B < 2 ^ 53) by nia.
  destruct (fpga_outputs (2 ^ c) B mr eb samples Hn HB ltac:(lia) Hb)
    as (out & Hf & Ho & Hw).
  exists out. split; [|exact Hf].
  rewrite (reference_pow2 c B samples Hc Hb HB' Ne). f_equal.
  symmetry. apply Forall2_map_eq.
  refine (Forall2_weaken _ _ _ _ _ _ Hw Ho).
  intros u a [_ Ha] Hv.
  rewrite (value_of_pow2 mr a c eb Hc He Ha) in Hv.
  injection Hv as <-. reflexivity.
Qed.

Lemma fpga_matches_reference_witness :
  exists out,
    moving_integrator64 [3; -5; 8; 1; 7] (2 ^ 2) true = Ok out
    /\ fpga_moving_integrator [3; -5; 8; 1; 7] (2 ^ 2) false 2 = Ok out.
Proof.
  apply (fpga_matches_reference [3; -5; 8; 1; 7] 2 8 false 2); try lia.
  - discriminate.
  - unfold bounded_by. repeat (constructor; [lia|]). constructor.
Defined.
